(** * Sistema de Archivos Simple: a shallow embedding of [filesystem.c]

    The C program keeps one global [FileSystem] value and mutates it in place.
    Here every operation takes the state and returns the new one, together
    with the [int] it returns and the lines it prints.

    Conventions.
    - Every C integer ([size_t], [int]) is a [Z]; [size_t] arithmetic that the
      program performs is written with its wrap-around modulo [2^64]
      ([wadd], [wsub]).
    - A C array is a list of the array's length; [a[i]] is [a .[ i ]] and
      [a[i] = v] is [a .[ i <- v ]].  An access outside the array is undefined
      behaviour in C; the model reads the default value there and drops the
      write.  The invariant [fs_inv] bounds the indices the program keeps in
      its state, and the theorems about a caller's buffer assume its size.
    - A [const char *] argument is [option (list Z)]: [None] is [NULL], and
      [Some s] is the memory the pointer designates, read up to its first zero
      byte (or up to the end of [s], where a terminator is understood).
    - A [FileEntry *] is the index of the slot in [file_table].
    - A loop is a [Fixpoint] on the number of iterations that remain. *)

From stdpp Require Import base numbers list.

Open Scope Z_scope.

Ltac Zify.zify_post_hook ::= Z.div_mod_to_equations.

(** ** Constants of the system *)

Definition BLOCK_SIZE : Z := 512.
Definition MAX_FILES : Z := 100.
Definition MAX_STORAGE : Z := 1024 * 1024.
Definition MAX_BLOCKS : Z := MAX_STORAGE / BLOCK_SIZE.
Definition MAX_FILENAME : Z := 256.
Definition MAX_FILE_SIZE : Z := 1024 * 1024.

(** ** [size_t] arithmetic *)

Definition SIZE_MAX1 : Z := 18446744073709551616.

Definition wadd (a b : Z) : Z := (a + b) mod SIZE_MAX1.
Definition wsub (a b : Z) : Z := (a - b) mod SIZE_MAX1.

Definition is_size_t (x : Z) : Prop := 0 <= x < SIZE_MAX1.

(** ** Arrays *)

Definition aget {A} `{Inhabited A} (l : list A) (i : Z) : A := l !!! Z.to_nat i.
Definition aset {A} (l : list A) (i : Z) (v : A) : list A := <[Z.to_nat i := v]> l.

Notation "l .[ i ]" := (aget l i) (at level 1, left associativity, format "l .[ i ]").
Notation "l .[ i <- v ]" := (aset l i v) (at level 1, left associativity, format "l .[ i  <-  v ]").

(** [memcpy(&dst[pos], &src[from], n)]; a byte that lies outside either
    array is not copied. *)
Definition memcpy (dst : list Z) (pos : Z) (src : list Z) (from n : Z) : list Z :=
  list_inserts (Z.to_nat pos) (take (Z.to_nat n) (drop (Z.to_nat from) src)) dst.

(** ** C strings *)

Fixpoint strlen (s : list Z) : Z :=
  match s with
  | [] => 0
  | c :: s' => if c =? 0 then 0 else 1 + strlen s'
  end.

(** The characters of the string, without the terminator. *)
Definition cstr (s : list Z) : list Z := take (Z.to_nat (strlen s)) s.

(** [strcmp(a, b) == 0] *)
Definition streq (a b : list Z) : bool := bool_decide (cstr a = cstr b).

(** [strncpy(dst, src, n)]: at most [n] characters of [src], padded with zero
    bytes up to [n]. *)
Definition strncpy (dst src : list Z) (n : Z) : list Z :=
  list_inserts 0 (take (Z.to_nat n) (cstr src ++ replicate (Z.to_nat n) 0)) dst.

(** ** Data *)

Record FileEntry := mkFileEntry {
  fe_filename : list Z;     (* char filename[MAX_FILENAME] *)
  fe_size : Z;              (* size_t size *)
  fe_num_blocks : Z;        (* size_t num_blocks *)
  fe_blocks : list Z;       (* size_t blocks[MAX_BLOCKS] *)
  fe_in_use : bool          (* bool in_use *)
}.

Record FileSystem := mkFileSystem {
  fs_blocks : list (list Z);     (* unsigned char blocks[MAX_BLOCKS][BLOCK_SIZE] *)
  block_map : list bool;         (* bool block_map[MAX_BLOCKS] *)
  file_table : list FileEntry;   (* FileEntry file_table[MAX_FILES] *)
  num_files : Z;
  used_blocks : Z;
  total_storage : Z
}.

#[global] Instance FileEntry_inhabited : Inhabited FileEntry :=
  populate (mkFileEntry [] 0 0 [] false).

(** What the program prints, one constructor for each [printf] site (a site
    that prints several lines of one report is one message). *)
Inductive message :=
| MsgInit
| ErrInvalidName
| ErrZeroSize
| ErrSizeLimit
| ErrExists (name : list Z)
| ErrMaxFiles
| ErrNoSpace (available required : Z)
| ErrTableFull
| ErrAllocation
| MsgCreated (name : list Z) (size num_blocks : Z)
| ErrParams
| ErrNotFound (name : list Z)
| ErrOffset (offset size : Z)
| ErrWriteExceeds (size offset data_len : Z)
| MsgWritten (bytes_written : Z) (name : list Z) (offset : Z)
| WarnClamped (bytes_to_read size : Z)
| MsgRead (bytes_read : Z) (name : list Z) (offset : Z)
| MsgDeleted (name : list Z)
| MsgNoFiles
| MsgListing (rows : list (list Z * Z)) (files bytes blocks : Z).

(** The static storage of the program before [main] runs: all zero. *)
Definition zero_entry : FileEntry :=
  {| fe_filename := replicate (Z.to_nat MAX_FILENAME) 0;
     fe_size := 0;
     fe_num_blocks := 0;
     fe_blocks := replicate (Z.to_nat MAX_BLOCKS) 0;
     fe_in_use := false |}.

Definition zero_block : list Z := replicate (Z.to_nat BLOCK_SIZE) 0.

Definition fs_static : FileSystem :=
  {| fs_blocks := replicate (Z.to_nat MAX_BLOCKS) zero_block;
     block_map := replicate (Z.to_nat MAX_BLOCKS) false;
     file_table := replicate (Z.to_nat MAX_FILES) zero_entry;
     num_files := 0;
     used_blocks := 0;
     total_storage := 0 |}.

(** ** init_filesystem *)

Definition init_entry (e : FileEntry) : FileEntry :=
  {| fe_filename := (fe_filename e).[0 <- 0];
     fe_size := 0;
     fe_num_blocks := 0;
     fe_blocks := fe_blocks e;
     fe_in_use := false |}.

Definition init_filesystem (fs : FileSystem) : list message * FileSystem :=
  ([MsgInit],
   {| fs_blocks := (fun _ => zero_block) <$> fs_blocks fs;
      block_map := (fun _ => false) <$> block_map fs;
      file_table := init_entry <$> file_table fs;
      num_files := 0;
      used_blocks := 0;
      total_storage := 0 |}).

(** ** find_file *)

Fixpoint find_file_from (ft : list FileEntry) (i : nat) (filename : list Z) : option nat :=
  match ft with
  | [] => None
  | e :: ft' =>
      if fe_in_use e && streq (fe_filename e) filename then Some i
      else find_file_from ft' (S i) filename
  end.

Definition find_file (fs : FileSystem) (filename : list Z) : option nat :=
  find_file_from (file_table fs) 0 filename.

(** ** allocate_blocks *)

(** The inner loop [for (j = 0; j < num_blocks; j++)] that looks for an
    occupied block or the end of the pool; [k] iterations remain. *)
Fixpoint found_sequence (bm : list bool) (i j : Z) (k : nat) : bool :=
  match k with
  | O => true
  | S k' =>
      if (i + j >=? MAX_BLOCKS) || bm.[i + j] then false
      else found_sequence bm i (j + 1) k'
  end.

(** The loop that assigns the run found at [i]. *)
Fixpoint assign_sequence (bm : list bool) (block_list : list Z) (i j : Z) (k : nat)
  : list bool * list Z :=
  match k with
  | O => (bm, block_list)
  | S k' => assign_sequence (bm.[i + j <- true]) (block_list.[j <- i + j]) i (j + 1) k'
  end.

(** The first outer loop; it returns the start of the first run, if any.
    [allocated] stays [0] in this loop, so its second condition
    [allocated < num_blocks] holds at every test. *)
Fixpoint search_sequence (bm : list bool) (num_blocks : Z) (i : Z) (k : nat) : option Z :=
  match k with
  | O => None
  | S k' =>
      if negb bm.[i] && found_sequence bm i 0 (Z.to_nat num_blocks) then Some i
      else search_sequence bm num_blocks (i + 1) k'
  end.

(** The second outer loop: scattered blocks. *)
Fixpoint scatter (bm : list bool) (block_list : list Z) (used allocated : Z)
    (num_blocks : Z) (i : Z) (k : nat) : list bool * list Z * Z * Z :=
  match k with
  | O => (bm, block_list, used, allocated)
  | S k' =>
      if allocated <? num_blocks then
        if negb bm.[i] then
          scatter (bm.[i <- true]) (block_list.[allocated <- i])
                  (wadd used 1) (wadd allocated 1) num_blocks (i + 1) k'
        else scatter bm block_list used allocated num_blocks (i + 1) k'
      else (bm, block_list, used, allocated)
  end.

Definition set_alloc (fs : FileSystem) (bm : list bool) (used : Z) : FileSystem :=
  {| fs_blocks := fs_blocks fs;
     block_map := bm;
     file_table := file_table fs;
     num_files := num_files fs;
     used_blocks := used;
     total_storage := total_storage fs |}.

(** Returns the number of blocks allocated, the state and the array behind
    [block_list]. *)
Definition allocate_blocks (fs : FileSystem) (num_blocks : Z) (block_list : list Z)
  : Z * FileSystem * list Z :=
  if (num_blocks =? 0) || (num_blocks >? MAX_BLOCKS) then (0, fs, block_list)
  else if wadd (used_blocks fs) num_blocks >? MAX_BLOCKS then (0, fs, block_list)
  else
    match search_sequence (block_map fs) num_blocks 0 (Z.to_nat MAX_BLOCKS) with
    | Some i =>
        let '(bm, bl) := assign_sequence (block_map fs) block_list i 0 (Z.to_nat num_blocks) in
        (num_blocks, set_alloc fs bm (wadd (used_blocks fs) num_blocks), bl)
    | None =>
        let '(bm, bl, used, allocated) :=
          scatter (block_map fs) block_list (used_blocks fs) 0 num_blocks 0
                  (Z.to_nat MAX_BLOCKS) in
        (allocated, set_alloc fs bm used, bl)
    end.

(** ** free_blocks *)

Fixpoint free_loop (blocks : list (list Z)) (bm : list bool) (used : Z)
    (block_list : list Z) (i : Z) (k : nat) : list (list Z) * list bool * Z :=
  match k with
  | O => (blocks, bm, used)
  | S k' =>
      let b := block_list.[i] in
      if (b <? MAX_BLOCKS) && bm.[b] then
        free_loop (blocks.[b <- zero_block]) (bm.[b <- false]) (wsub used 1)
                  block_list (i + 1) k'
      else free_loop blocks bm used block_list (i + 1) k'
  end.

Definition free_blocks (fs : FileSystem) (num_blocks : Z) (block_list : list Z) : FileSystem :=
  let '(blocks, bm, used) :=
    free_loop (fs_blocks fs) (block_map fs) (used_blocks fs) block_list 0
              (Z.to_nat num_blocks) in
  {| fs_blocks := blocks;
     block_map := bm;
     file_table := file_table fs;
     num_files := num_files fs;
     used_blocks := used;
     total_storage := total_storage fs |}.

(** ** create_file *)

(** The search for a free slot of the file table; [None] is the value
    [MAX_FILES] that [file_index] keeps when no slot is free. *)
Fixpoint free_slot_from (ft : list FileEntry) (i : nat) : option nat :=
  match ft with
  | [] => None
  | e :: ft' => if negb (fe_in_use e) then Some i else free_slot_from ft' (S i)
  end.

Definition set_file_table (fs : FileSystem) (ft : list FileEntry) : FileSystem :=
  {| fs_blocks := fs_blocks fs;
     block_map := block_map fs;
     file_table := ft;
     num_files := num_files fs;
     used_blocks := used_blocks fs;
     total_storage := total_storage fs |}.

Definition set_entry_blocks (e : FileEntry) (bl : list Z) : FileEntry :=
  {| fe_filename := fe_filename e;
     fe_size := fe_size e;
     fe_num_blocks := fe_num_blocks e;
     fe_blocks := bl;
     fe_in_use := fe_in_use e |}.

(** [allocate_blocks(num_blocks, fs.file_table[file_index].blocks)]: the
    array the allocator fills is the one inside the table. *)
Definition allocate_into (fs : FileSystem) (file_index : nat) (num_blocks : Z)
  : Z * FileSystem :=
  let e := file_table fs !!! file_index in
  let '(allocated, fs1, bl) := allocate_blocks fs num_blocks (fe_blocks e) in
  (allocated, set_file_table fs1 (<[file_index := set_entry_blocks e bl]> (file_table fs1))).

Definition create_entry (e : FileEntry) (filename : list Z) (size num_blocks : Z) : FileEntry :=
  {| fe_filename := (strncpy (fe_filename e) filename (MAX_FILENAME - 1)).[MAX_FILENAME - 1 <- 0];
     fe_size := size;
     fe_num_blocks := num_blocks;
     fe_blocks := fe_blocks e;
     fe_in_use := true |}.

Definition create_file (fs : FileSystem) (filename : option (list Z)) (size : Z)
  : Z * list message * FileSystem :=
  match filename with
  | None => (-1, [ErrInvalidName], fs)
  | Some name =>
    if strlen name =? 0 then (-1, [ErrInvalidName], fs)
    else if size =? 0 then (-1, [ErrZeroSize], fs)
    else if size >? MAX_FILE_SIZE then (-1, [ErrSizeLimit], fs)
    else if find_file fs name is Some _ then (-1, [ErrExists name], fs)
    else if num_files fs >=? MAX_FILES then (-1, [ErrMaxFiles], fs)
    else
      let num_blocks := wsub (wadd size BLOCK_SIZE) 1 / BLOCK_SIZE in
      if wadd (used_blocks fs) num_blocks >? MAX_BLOCKS then
        (-1, [ErrNoSpace (wsub MAX_BLOCKS (used_blocks fs)) num_blocks], fs)
      else
        match free_slot_from (file_table fs) 0 with
        | None => (-1, [ErrTableFull], fs)
        | Some file_index =>
            let '(allocated, fs1) := allocate_into fs file_index num_blocks in
            if allocated <? num_blocks then
              (-1, [ErrAllocation],
               if allocated >? 0
               then free_blocks fs1 allocated (fe_blocks (file_table fs1 !!! file_index))
               else fs1)
            else
              let e := file_table fs1 !!! file_index in
              (0, [MsgCreated name size num_blocks],
               {| fs_blocks := fs_blocks fs1;
                  block_map := block_map fs1;
                  file_table :=
                    <[file_index := create_entry e name size num_blocks]> (file_table fs1);
                  num_files := wadd (num_files fs1) 1;
                  used_blocks := used_blocks fs1;
                  total_storage := wadd (total_storage fs1) size |})
        end
  end.

(** ** write_file *)

(** The [while] loop; [k] bounds the iterations that remain (each one
    advances [current_block], so [num_blocks - current_block] is enough, see
    [write_loop_fuel]). *)
Fixpoint write_loop (blocks : list (list Z)) (file : FileEntry) (data : list Z)
    (data_len bytes_written current_block current_pos : Z) (k : nat)
  : list (list Z) * Z :=
  match k with
  | O => (blocks, bytes_written)
  | S k' =>
      if (bytes_written <? data_len) && (current_block <? fe_num_blocks file) then
        let block_index := (fe_blocks file).[current_block] in
        let bytes_to_write := wsub data_len bytes_written in
        let bytes_to_write :=
          if wadd current_pos bytes_to_write >? BLOCK_SIZE
          then wsub BLOCK_SIZE current_pos else bytes_to_write in
        let blocks' :=
          blocks.[block_index <- memcpy blocks.[block_index] current_pos
                                        data bytes_written bytes_to_write] in
        write_loop blocks' file data data_len (wadd bytes_written bytes_to_write)
                   (wadd current_block 1) 0 k'
      else (blocks, bytes_written)
  end.

Definition set_blocks (fs : FileSystem) (blocks : list (list Z)) : FileSystem :=
  {| fs_blocks := blocks;
     block_map := block_map fs;
     file_table := file_table fs;
     num_files := num_files fs;
     used_blocks := used_blocks fs;
     total_storage := total_storage fs |}.

Definition write_file (fs : FileSystem) (filename : option (list Z)) (offset : Z)
    (data : option (list Z)) : Z * list message * FileSystem :=
  match filename, data with
  | Some name, Some data =>
    match find_file fs name with
    | None => (-1, [ErrNotFound name], fs)
    | Some p =>
      let file := file_table fs !!! p in
      if offset >? fe_size file then (-1, [ErrOffset offset (fe_size file)], fs)
      else
        let data_len := strlen data in
        if wadd offset data_len >? fe_size file then
          (-1, [ErrWriteExceeds (fe_size file) offset data_len], fs)
        else
          let start_block := offset / BLOCK_SIZE in
          let start_pos := offset mod BLOCK_SIZE in
          let '(blocks, bytes_written) :=
            write_loop (fs_blocks fs) file data data_len 0 start_block start_pos
                       (Z.to_nat (fe_num_blocks file)) in
          (0, [MsgWritten bytes_written name offset], set_blocks fs blocks)
    end
  | _, _ => (-1, [ErrParams], fs)
  end.

(** ** read_file *)

Fixpoint read_loop (blocks : list (list Z)) (file : FileEntry) (buffer : list Z)
    (bytes_to_read bytes_read current_block current_pos : Z) (k : nat)
  : list Z * Z :=
  match k with
  | O => (buffer, bytes_read)
  | S k' =>
      if (bytes_read <? bytes_to_read) && (current_block <? fe_num_blocks file) then
        let block_index := (fe_blocks file).[current_block] in
        let bytes_to_read_now := wsub bytes_to_read bytes_read in
        let bytes_to_read_now :=
          if wadd current_pos bytes_to_read_now >? BLOCK_SIZE
          then wsub BLOCK_SIZE current_pos else bytes_to_read_now in
        let buffer' :=
          memcpy buffer bytes_read blocks.[block_index] current_pos bytes_to_read_now in
        read_loop blocks file buffer' bytes_to_read (wadd bytes_read bytes_to_read_now)
                  (wadd current_block 1) 0 k'
      else (buffer, bytes_read)
  end.

(** The result is the returned [int], the lines printed and the caller's
    buffer after the call ([None] when the caller passed [NULL]).  The state
    is not modified. *)
Definition read_file (fs : FileSystem) (filename : option (list Z)) (offset size : Z)
    (buffer : option (list Z)) : Z * list message * option (list Z) :=
  match filename, buffer with
  | Some name, Some buf =>
    if size =? 0 then (-1, [ErrParams], buffer)
    else
    match find_file fs name with
    | None => (-1, [ErrNotFound name], buffer)
    | Some p =>
      let file := file_table fs !!! p in
      if offset >=? fe_size file then (-1, [ErrOffset offset (fe_size file)], buffer)
      else
        let clamp := wadd offset size >? fe_size file in
        let bytes_to_read := if clamp then wsub (fe_size file) offset else size in
        let start_block := offset / BLOCK_SIZE in
        let start_pos := offset mod BLOCK_SIZE in
        let '(buf', bytes_read) :=
          read_loop (fs_blocks fs) file buf bytes_to_read 0 start_block start_pos
                    (Z.to_nat (fe_num_blocks file)) in
        (0,
         (if clamp then [WarnClamped bytes_to_read size] else [])
         ++ [MsgRead bytes_read name offset],
         Some (buf'.[bytes_read <- 0]))
    end
  | _, _ => (-1, [ErrParams], buffer)
  end.

(** ** delete_file *)

Definition clear_entry (e : FileEntry) : FileEntry :=
  {| fe_filename := (fe_filename e).[0 <- 0];
     fe_size := 0;
     fe_num_blocks := 0;
     fe_blocks := fe_blocks e;
     fe_in_use := false |}.

Definition delete_file (fs : FileSystem) (filename : option (list Z))
  : Z * list message * FileSystem :=
  match filename with
  | None => (-1, [ErrInvalidName], fs)
  | Some name =>
    match find_file fs name with
    | None => (-1, [ErrNotFound name], fs)
    | Some p =>
      let file := file_table fs !!! p in
      let fs1 := free_blocks fs (fe_num_blocks file) (fe_blocks file) in
      (0, [MsgDeleted name],
       {| fs_blocks := fs_blocks fs1;
          block_map := block_map fs1;
          file_table := <[p := clear_entry file]> (file_table fs1);
          num_files := wsub (num_files fs1) 1;
          used_blocks := used_blocks fs1;
          total_storage := wsub (total_storage fs1) (fe_size file) |})
    end
  end.

(** ** list_files *)

Definition listing (ft : list FileEntry) : list (list Z * Z) :=
  (fun e => (cstr (fe_filename e), fe_size e)) <$> filter (fun e => fe_in_use e = true) ft.

Definition list_files (fs : FileSystem) : list message :=
  if num_files fs =? 0 then [MsgNoFiles]
  else [MsgListing (listing (file_table fs)) (num_files fs) (total_storage fs) (used_blocks fs)].

(** * Definitions used in the statements *)

(** ** Block maps *)

(** The number of occupied entries of a block map. *)
Fixpoint count_occupied (bm : list bool) : Z :=
  match bm with
  | [] => 0
  | b :: bm' => (if b then 1 else 0) + count_occupied bm'
  end.

(** [mark a l v]: the array after [a[b] = v] for each [b] of [l] in turn. *)
Definition mark {A} (a : list A) (l : list Z) (v : A) : list A :=
  foldl (fun acc b => acc.[b <- v]) a l.

(** ** What the allocator chooses *)

(** Block [b] is free. *)
Definition is_free (bm : list bool) (b : Z) : Prop := bm.[b] = false.

#[global] Instance is_free_dec bm b : Decision (is_free bm b).
Proof. unfold is_free. apply _. Defined.

(** The [n] blocks from [i] on exist and are free. *)
Definition free_run (bm : list bool) (i n : Z) : Prop :=
  ∀ t, 0 <= t < n -> i + t < MAX_BLOCKS ∧ bm.[i + t] = false.

(** The free blocks among [i, i + k), in ascending order. *)
Definition free_list (bm : list bool) (i k : Z) : list Z :=
  filter (is_free bm) (seqZ i k).

(** What [allocate_blocks] hands out: the first run of [n] consecutive free
    blocks if there is one, the first [n] free blocks otherwise. *)
Definition alloc_choice (bm : list bool) (n : Z) (l : list Z) : Prop :=
  (∃ i, 0 <= i ∧ free_run bm i n ∧ (∀ r, 0 <= r < i -> ¬ free_run bm r n) ∧
        l = seqZ i n)
  ∨ ((∀ r, 0 <= r -> ¬ free_run bm r n) ∧
     l = take (Z.to_nat n) (free_list bm 0 MAX_BLOCKS)).

(** ** The state invariant *)

(** The block list of a live entry: the first [num_blocks] cells of
    [blocks]. *)
Definition owned_blocks (e : FileEntry) : list Z :=
  if fe_in_use e then take (Z.to_nat (fe_num_blocks e)) (fe_blocks e) else [].

(** The block lists of all live entries, in slot order. *)
Definition all_owned (ft : list FileEntry) : list Z := ft ≫= owned_blocks.

(** Recounts over the live entries of the table. *)
Fixpoint sum_in_use (f : FileEntry -> Z) (ft : list FileEntry) : Z :=
  match ft with
  | [] => 0
  | e :: ft' => (if fe_in_use e then f e else 0) + sum_in_use f ft'
  end.

Definition live_files (ft : list FileEntry) : Z := sum_in_use (fun _ => 1) ft.

Definition live_blocks (ft : list FileEntry) : Z := sum_in_use fe_num_blocks ft.

Definition live_bytes (ft : list FileEntry) : Z := sum_in_use fe_size ft.

(** The number of blocks of a file of [size] bytes, rounded up. *)
Definition blocks_for (size : Z) : Z := (size + BLOCK_SIZE - 1) / BLOCK_SIZE.

(** The arrays of an entry have the lengths of their C types, and a live
    entry has a size within the limits and the block count of that size. *)
Definition entry_ok (e : FileEntry) : Prop :=
  length (fe_filename e) = Z.to_nat MAX_FILENAME ∧
  length (fe_blocks e) = Z.to_nat MAX_BLOCKS ∧
  Forall (fun b => 0 <= b) (fe_blocks e) ∧
  (fe_in_use e = true ->
   0 < fe_size e <= MAX_FILE_SIZE ∧ fe_num_blocks e = blocks_for (fe_size e)).

(** The arrays have their lengths; the block lists of the live entries are
    pairwise disjoint and hold occupied blocks only; the three counters agree
    with a recount; every free block is all zero. *)
Record fs_inv (fs : FileSystem) : Prop := {
  inv_blocks_len : length (fs_blocks fs) = Z.to_nat MAX_BLOCKS;
  inv_block_len : Forall (fun b => length b = Z.to_nat BLOCK_SIZE) (fs_blocks fs);
  inv_map_len : length (block_map fs) = Z.to_nat MAX_BLOCKS;
  inv_table_len : length (file_table fs) = Z.to_nat MAX_FILES;
  inv_entries : Forall entry_ok (file_table fs);
  inv_owned_nodup : NoDup (all_owned (file_table fs));
  inv_owned_occupied :
    Forall (fun b => 0 <= b < MAX_BLOCKS ∧ (block_map fs).[b] = true)
           (all_owned (file_table fs));
  inv_used : used_blocks fs = count_occupied (block_map fs);
  inv_live_blocks : live_blocks (file_table fs) = used_blocks fs;
  inv_num_files : num_files fs = live_files (file_table fs);
  inv_total : total_storage fs = live_bytes (file_table fs);
  inv_free_zero :
    ∀ b, 0 <= b < MAX_BLOCKS -> (block_map fs).[b] = false ->
         (fs_blocks fs).[b] = zero_block
}.

(** ** Reachable states *)

(** A call of one of the five operations. *)
Inductive call :=
| Create (filename : option (list Z)) (size : Z)
| Write (filename : option (list Z)) (offset : Z) (data : option (list Z))
| Read (filename : option (list Z)) (offset size : Z) (buffer : option (list Z))
| Delete (filename : option (list Z))
| List.

(** The integer arguments are values of [size_t]. *)
Definition call_ok (c : call) : Prop :=
  match c with
  | Create _ size => is_size_t size
  | Write _ offset _ => is_size_t offset
  | Read _ offset size _ => is_size_t offset ∧ is_size_t size
  | Delete _ | List => True
  end.

(** The state after a call; [read_file] and [list_files] do not write to it. *)
Definition step (fs : FileSystem) (c : call) : FileSystem :=
  match c with
  | Create filename size => (create_file fs filename size).2
  | Write filename offset data => (write_file fs filename offset data).2
  | Read _ _ _ _ => fs
  | Delete filename => (delete_file fs filename).2
  | List => fs
  end.

(** The states the program can be in: the one [init_filesystem] leaves
    and those that calls with well-formed arguments lead to. *)
Inductive reachable : FileSystem -> Prop :=
| reach_init : reachable (init_filesystem fs_static).2
| reach_step fs c : reachable fs -> call_ok c -> reachable (step fs c).

(** ** The states after create_file and delete_file *)

(** The state after a successful [create_file] that took slot [p] and the
    blocks [l]. *)
Definition created (fs : FileSystem) (p : nat) (name : list Z) (size : Z) (l : list Z)
  : FileSystem :=
  let e := file_table fs !!! p in
  {| fs_blocks := fs_blocks fs;
     block_map := mark (block_map fs) l true;
     file_table :=
       <[p := create_entry (set_entry_blocks e (list_inserts 0 l (fe_blocks e)))
                           name size (blocks_for size)]> (file_table fs);
     num_files := num_files fs + 1;
     used_blocks := used_blocks fs + blocks_for size;
     total_storage := total_storage fs + size |}.

(** The state after a successful [delete_file] of the entry in slot [p]. *)
Definition deleted (fs : FileSystem) (p : nat) : FileSystem :=
  let file := file_table fs !!! p in
  {| fs_blocks := mark (fs_blocks fs) (owned_blocks file) zero_block;
     block_map := mark (block_map fs) (owned_blocks file) false;
     file_table := <[p := clear_entry file]> (file_table fs);
     num_files := num_files fs - 1;
     used_blocks := used_blocks fs - fe_num_blocks file;
     total_storage := total_storage fs - fe_size file |}.

(** ** The byte layout of a file *)

(** Byte [o] of a file lives in block [blocks[o / BLOCK_SIZE]] of its list, at
    position [o % BLOCK_SIZE]. *)
Definition file_byte (blocks : list (list Z)) (file : FileEntry) (o : Z) : Z :=
  blocks.[(fe_blocks file).[o / BLOCK_SIZE]].[o mod BLOCK_SIZE].

(** The bytes [offset .. offset + n) of a file. *)
Definition file_bytes (blocks : list (list Z)) (file : FileEntry) (offset n : Z) : list Z :=
  file_byte blocks file <$> seqZ offset n.

(** The blocks of the entry are distinct rows of the store. *)
Definition file_stored (blocks : list (list Z)) (file : FileEntry) : Prop :=
  0 <= fe_num_blocks file <= MAX_BLOCKS ∧
  (Z.to_nat (fe_num_blocks file) <= length (fe_blocks file))%nat ∧
  NoDup (take (Z.to_nat (fe_num_blocks file)) (fe_blocks file)) ∧
  Forall (fun b => 0 <= b ∧ (Z.to_nat b < length blocks)%nat)
         (take (Z.to_nat (fe_num_blocks file)) (fe_blocks file)) ∧
  Forall (fun r => length r = Z.to_nat BLOCK_SIZE) blocks.

(** ** Disjoint block lists *)

(** No block index is in the block lists of two live entries. *)
Definition blocks_disjoint (fs : FileSystem) : Prop :=
  ∀ p q b, (p < length (file_table fs))%nat -> (q < length (file_table fs))%nat -> p ≠ q ->
    b ∈ owned_blocks (file_table fs !!! p) -> b ∉ owned_blocks (file_table fs !!! q).

(** Every block index in the block list of a live entry is a block of the
    pool and is marked occupied. *)
Definition blocks_occupied (fs : FileSystem) : Prop :=
  ∀ p b, (p < length (file_table fs))%nat -> b ∈ owned_blocks (file_table fs !!! p) ->
    0 <= b < MAX_BLOCKS ∧ (block_map fs).[b] = true.

(** ** Error kinds *)

(** The error kinds of the specification.  The program returns [-1] for
    every failure and tells the failures apart only by the line it prints;
    [error_of] gives each diagnostic the kind under which the specification
    lists that failure. *)
Inductive error_kind :=
| InvalidArgument | AlreadyExists | NotFound | TableFull | OutOfSpace
| SizeLimitExceeded | OutOfBounds.

Definition error_of (m : message) : option error_kind :=
  match m with
  | ErrInvalidName | ErrZeroSize | ErrParams | ErrOffset _ _ => Some InvalidArgument
  | ErrSizeLimit => Some SizeLimitExceeded
  | ErrExists _ => Some AlreadyExists
  | ErrMaxFiles | ErrTableFull => Some TableFull
  | ErrNoSpace _ _ | ErrAllocation => Some OutOfSpace
  | ErrNotFound _ => Some NotFound
  | ErrWriteExceeds _ _ _ => Some OutOfBounds
  | _ => None
  end.

(** The call returned [-1] and printed one diagnostic, of kind [k]. *)
Definition fails_with (k : error_kind) (r : Z * list message) : Prop :=
  r.1 = -1 ∧ error_of <$> r.2 = [Some k].

(** The longest object a C program can hold: no string is longer. *)
Definition PTRDIFF_MAX : Z := 9223372036854775807.

(** A state whose counter does not exceed the number of occupied blocks: the
    states in which the allocator can come up short. *)
Definition under_counted (fs : FileSystem) : Prop :=
  length (block_map fs) = Z.to_nat MAX_BLOCKS ∧
  0 <= used_blocks fs <= count_occupied (block_map fs) ∧
  Forall (fun e => length (fe_blocks e) = Z.to_nat MAX_BLOCKS) (file_table fs).

(** ** Lookups, written bytes, listings and names *)

(** The entry in slot [q] is live and its stored name is the string
    [filename]: the test of the loop of [find_file]. *)
Definition matches (ft : list FileEntry) (filename : list Z) (q : nat) : Prop :=
  fe_in_use (ft !!! q) = true ∧ cstr (fe_filename (ft !!! q)) = cstr filename.

(** Byte [o] of a file after [data] was written at [offset]: the byte of
    [data] inside the range written, the byte stored before outside it. *)
Definition overlay (blocks : list (list Z)) (file : FileEntry) (offset : Z)
    (data : list Z) (o : Z) : Z :=
  if decide (offset <= o < offset + strlen data) then data.[o - offset]
  else file_byte blocks file o.

(** The sum of a list of integers. *)
Definition sumZ (l : list Z) : Z := foldr Z.add 0 l.

(** The arrays of a state have the lengths of their C types, and the cells
    of the block lists hold values of [size_t]. *)
Definition well_sized (fs : FileSystem) : Prop :=
  length (fs_blocks fs) = Z.to_nat MAX_BLOCKS ∧
  length (block_map fs) = Z.to_nat MAX_BLOCKS ∧
  length (file_table fs) = Z.to_nat MAX_FILES ∧
  Forall (fun e => length (fe_filename e) = Z.to_nat MAX_FILENAME ∧
                   length (fe_blocks e) = Z.to_nat MAX_BLOCKS ∧
                   Forall (fun b => 0 <= b) (fe_blocks e)) (file_table fs).

(** No two live entries hold the same name. *)
Definition names_unique (fs : FileSystem) : Prop :=
  ∀ p q, (p < length (file_table fs))%nat -> (q < length (file_table fs))%nat ->
    fe_in_use (file_table fs !!! p) = true -> fe_in_use (file_table fs !!! q) = true ->
    cstr (fe_filename (file_table fs !!! p)) = cstr (fe_filename (file_table fs !!! q)) ->
    p = q.

(** The names of the files a call creates are shorter than MAX_FILENAME
    characters. *)
Definition short_name (c : call) : Prop :=
  match c with
  | Create (Some name) _ => strlen name < MAX_FILENAME
  | _ => True
  end.

(** The name under which [create_file] stores a file created as [name]: its
    first MAX_FILENAME - 1 characters. *)
Definition stored_as (name : list Z) : list Z :=
  take (Z.to_nat (MAX_FILENAME - 1)) (cstr name).

(** The call names the file [name]: it is a write or a delete under that
    name, or a create whose name is stored as that name. *)
Definition names_file (name : list Z) (c : call) : Prop :=
  match c with
  | Create (Some n) _ => stored_as n = cstr name
  | Write (Some n) _ _ | Delete (Some n) => cstr n = cstr name
  | _ => False
  end.

(** Calls with well-formed arguments that do not name the file [name]. *)
Definition other_calls (name : list Z) (calls : list call) : Prop :=
  Forall (fun c => call_ok c ∧ ¬ names_file name c) calls.

(** ** Example states *)

(** The state [main] starts from, and a file ["f"] of ten bytes in it. *)
Definition fs_init : FileSystem := (init_filesystem fs_static).2.

Definition name_f : list Z := [102].

Definition fs_f10 : FileSystem := (create_file fs_init (Some name_f) 10).2.

(** The state of [fs_f10] after the two bytes ["hi"] were written to the
    file. *)
Definition fs_f10_written : FileSystem :=
  (write_file fs_f10 (Some name_f) 0 (Some [104; 105])).2.

(** A file ["g"] of 1000 bytes, for a read whose [offset + size] wraps
    around. *)
Definition name_g : list Z := [103].

Definition fs_g1000 : FileSystem := (create_file fs_init (Some name_g) 1000).2.

(** The state after a list of calls. *)
Definition run (fs : FileSystem) (calls : list call) : FileSystem := foldl step fs calls.

(** A fragmented pool: every block is occupied but blocks 0 and 2. *)
Definition fs_fragmented : FileSystem :=
  run fs_init
      [Create (Some [97]) 512; Create (Some [98]) 512; Create (Some [99]) 512;
       Create (Some [100]) 1047040; Delete (Some [97]); Delete (Some [99])].

(** The fragmented pool with a counter that is too low: two blocks are free,
    the counter claims eight. *)
Definition fs_under : FileSystem :=
  set_alloc fs_fragmented (block_map fs_fragmented) 2040.

(** * Properties *)

(** ** Arithmetic and arrays *)

Lemma MAX_BLOCKS_eq : MAX_BLOCKS = 2048.
Proof. reflexivity. Qed.

Ltac unfold_consts :=
  rewrite ?MAX_BLOCKS_eq in *;
  unfold wadd, wsub, is_size_t, SIZE_MAX1, MAX_STORAGE, BLOCK_SIZE, MAX_FILES,
    MAX_FILENAME, MAX_FILE_SIZE in *.

Ltac zlia := unfold_consts; lia.

Lemma wadd_small a b : 0 <= a + b < SIZE_MAX1 -> wadd a b = a + b.
Proof. intros; zlia. Qed.

Lemma wsub_small a b : 0 <= a - b < SIZE_MAX1 -> wsub a b = a - b.
Proof. intros; zlia. Qed.

Section arrays.
Context {A : Type} `{Inhabited A}.
Implicit Types (l : list A) (i j : Z) (v : A).

Lemma length_aset l i v : length (l.[i <- v]) = length l.
Proof. apply length_insert. Qed.

Lemma aget_aset_eq l i v : 0 <= i -> (Z.to_nat i < length l)%nat -> l.[i <- v].[i] = v.
Proof. intros ? ?. unfold aget, aset. by apply list_lookup_total_insert_eq. Qed.

Lemma aget_aset_ne l i j v : 0 <= i -> 0 <= j -> i ≠ j -> l.[i <- v].[j] = l.[j].
Proof.
    intros ? ? ?. unfold aget, aset. apply list_lookup_total_insert_ne. lia.
Qed.

Lemma aget_aset l i j v :
    0 <= i -> 0 <= j ->
    l.[i <- v].[j] = if decide (i = j ∧ (Z.to_nat i < length l)%nat) then v else l.[j].
Proof.
    intros ? ?. unfold aget, aset. rewrite list_lookup_total_insert.
    repeat case_decide; try done; exfalso; intuition lia.
Qed.

Lemma aget_lookup l i : 0 <= i -> (Z.to_nat i < length l)%nat -> l !! Z.to_nat i = Some l.[i].
Proof. intros ? ?. unfold aget. by apply list_lookup_lookup_total_lt. Qed.

Lemma aget_replicate n v i : (Z.to_nat i < n)%nat -> (replicate n v).[i] = v.
Proof. intros ?. unfold aget. by apply lookup_total_replicate_2. Qed.
End arrays.

Lemma count_occupied_app bm1 bm2 :
  count_occupied (bm1 ++ bm2) = count_occupied bm1 + count_occupied bm2.
Proof. induction bm1 as [|b bm1 IH]; cbn [count_occupied app]; lia. Qed.

Lemma count_occupied_bounds bm : 0 <= count_occupied bm <= Z.of_nat (length bm).
Proof. induction bm as [|[] bm IH]; cbn [count_occupied length]; lia. Qed.

Lemma count_occupied_replicate n : count_occupied (replicate n false) = 0.
Proof. induction n; cbn [count_occupied replicate]; lia. Qed.

Lemma count_occupied_aset bm i v :
  0 <= i -> (Z.to_nat i < length bm)%nat ->
  count_occupied (bm.[i <- v]) =
  count_occupied bm - (if bm.[i] then 1 else 0) + (if v then 1 else 0).
Proof.
  intros Hi Hlt. unfold aset, aget.
  rewrite <- (take_drop_middle bm (Z.to_nat i) (bm !!! Z.to_nat i)) at 2
    by (by apply list_lookup_lookup_total_lt).
  rewrite insert_take_drop by done.
  rewrite !count_occupied_app. cbn [count_occupied]. lia.
Qed.

Section mark.
Context {A : Type} `{Inhabited A}.
Implicit Types (a : list A) (l : list Z) (v : A).

Lemma length_mark a l v : length (mark a l v) = length a.
Proof.
  revert a. induction l as [|b l IH]; intros a; [done|].
  cbn. unfold mark in IH. by rewrite IH, length_aset.
Qed.

Lemma mark_app a l1 l2 v : mark a (l1 ++ l2) v = mark (mark a l1 v) l2 v.
Proof. unfold mark. apply foldl_app. Qed.

Lemma aget_mark_notin a l v b :
  0 <= b -> Forall (fun x => 0 <= x) l -> b ∉ l -> (mark a l v).[b] = a.[b].
Proof.
  revert a. induction l as [|x l IH]; intros a Hb Hl Hn; [done|].
  inversion_clear Hl. apply not_elem_of_cons in Hn as [? ?].
  cbn. unfold mark in IH. rewrite IH by done. by apply aget_aset_ne.
Qed.

Lemma aget_mark_in a l v b :
  Forall (fun x => 0 <= x ∧ (Z.to_nat x < length a)%nat) l -> b ∈ l -> (mark a l v).[b] = v.
Proof.
  revert a. induction l as [|x l IH] using rev_ind; intros a Hl Hin.
  - by apply elem_of_nil in Hin.
  - apply Forall_app in Hl as [Hl Hx]. apply Forall_singleton in Hx as [? ?].
    rewrite mark_app. cbn.
    destruct (decide (b = x)) as [->|Hne].
    + apply aget_aset_eq; [done|]. by rewrite length_mark.
    + apply elem_of_app in Hin as [Hin|Hin]; [|apply list_elem_of_singleton in Hin; done].
      rewrite aget_aset_ne; [by apply IH| done | | done].
      rewrite Forall_forall in Hl. by apply Hl.
Qed.

Lemma aget_mark_keep a l v b : a.[b] = v -> (mark a l v).[b] = v.
Proof.
  revert a. induction l as [|x l IH]; intros a Hb; [done|].
  cbn. unfold mark in IH. apply IH.
  unfold aget, aset. rewrite list_lookup_total_insert. by case_decide.
Qed.
End mark.

Lemma count_occupied_mark bm l v :
  NoDup l ->
  Forall (fun x => 0 <= x ∧ (Z.to_nat x < length bm)%nat ∧ bm.[x] = negb v) l ->
  count_occupied (mark bm l v) =
  count_occupied bm + (if v then 1 else -1) * Z.of_nat (length l).
Proof.
  revert bm. induction l as [|x l IH]; intros bm Hnd Hl.
  - cbn. lia.
  - inversion_clear Hnd as [|? ? Hx Hnd']. inversion_clear Hl as [|? ? (? & ? & Hv) Hl'].
    cbn [mark foldl]. unfold mark in IH. rewrite IH; [| done |].
    + rewrite count_occupied_aset, Hv by done. cbn [length]. destruct v; cbn; lia.
    + rewrite Forall_forall in Hl'. apply Forall_forall. intros y Hy.
      destruct (Hl' y Hy) as (? & ? & Hvy). rewrite length_aset.
      repeat split; [done..|].
      rewrite aget_aset_ne; [done..|]. by intros ->.
Qed.

(** ** The allocator *)

Lemma found_sequence_spec bm i j k :
  found_sequence bm i j k = true ↔
  ∀ t, 0 <= t < Z.of_nat k -> i + (j + t) < MAX_BLOCKS ∧ bm.[i + (j + t)] = false.
Proof.
  revert j. induction k as [|k IH]; intros j.
  - split; [intros _ t ?; lia | done].
  - cbn [found_sequence].
    destruct (Z.geb_spec (i + j) MAX_BLOCKS) as [Hge|Hlt]; cbn [orb].
    + split; [done|]. intros Ht. destruct (Ht 0) as [? _]; [lia|]. lia.
    + destruct (bm.[i + j]) eqn:Hb.
      * split; [done|]. intros Ht. destruct (Ht 0) as [_ Hf]; [lia|].
        rewrite Z.add_0_r in Hf. congruence.
      * rewrite IH. split.
        -- intros Ht t ?. destruct (decide (t = 0)) as [->|].
           ++ rewrite Z.add_0_r. split; [lia|done].
           ++ destruct (Ht (t - 1)) as [? ?]; [lia|].
              replace (j + t) with (j + 1 + (t - 1)) by lia. done.
        -- intros Ht t ?. destruct (Ht (t + 1)) as [? ?]; [lia|].
           replace (j + 1 + t) with (j + (t + 1)) by lia. done.
Qed.

Lemma found_sequence_free_run bm i n :
  0 <= n -> found_sequence bm i 0 (Z.to_nat n) = true ↔ free_run bm i n.
Proof.
  intros ?. rewrite found_sequence_spec. unfold free_run.
  split; intros Ht t ?; specialize (Ht t); cbn in Ht |- *; apply Ht; lia.
Qed.

Lemma search_condition bm i n :
  0 < n -> negb bm.[i] && found_sequence bm i 0 (Z.to_nat n) = true ↔ free_run bm i n.
Proof.
  intros ?. rewrite andb_true_iff, found_sequence_free_run by lia.
  split; [by intros [_ ?]|]. intros Hr. split; [|done].
  destruct (Hr 0) as [_ Hf]; [lia|]. rewrite Z.add_0_r in Hf. by rewrite Hf.
Qed.

Lemma search_sequence_Some bm n i k r :
  0 < n -> search_sequence bm n i k = Some r ->
  i <= r < i + Z.of_nat k ∧ free_run bm r n ∧ ∀ r', i <= r' < r -> ¬ free_run bm r' n.
Proof.
  intros Hn. revert i. induction k as [|k IH]; intros i; [done|].
  cbn [search_sequence].
  destruct (negb bm.[i] && found_sequence bm i 0 (Z.to_nat n)) eqn:Hc.
  - intros [= <-]. apply search_condition in Hc; [|done].
    split; [lia|]. split; [done|]. intros; lia.
  - intros Hs. destruct (IH _ Hs) as (? & ? & Hmin).
    split; [lia|]. split; [done|]. intros r' ?.
    destruct (decide (r' = i)) as [->|].
    + rewrite <- search_condition by done. by rewrite Hc.
    + apply Hmin. lia.
Qed.

Lemma search_sequence_None bm n i k :
  0 < n -> search_sequence bm n i k = None ->
  ∀ r, i <= r < i + Z.of_nat k -> ¬ free_run bm r n.
Proof.
  intros Hn. revert i. induction k as [|k IH]; intros i; [intros; lia|].
  cbn [search_sequence].
  destruct (negb bm.[i] && found_sequence bm i 0 (Z.to_nat n)) eqn:Hc; [done|].
  intros Hs r ?. destruct (decide (r = i)) as [->|].
  - rewrite <- search_condition by done. by rewrite Hc.
  - apply (IH _ Hs). lia.
Qed.

Lemma assign_sequence_eq bm bl i j k :
  0 <= j ->
  assign_sequence bm bl i j k =
  (mark bm (seqZ (i + j) (Z.of_nat k)) true,
   list_inserts (Z.to_nat j) (seqZ (i + j) (Z.of_nat k)) bl).
Proof.
  revert bm bl j. induction k as [|k IH]; intros bm bl j Hj; [done|].
  cbn [assign_sequence]. rewrite IH by lia.
  rewrite (seqZ_cons (i + j)) by lia.
  replace (Z.succ (i + j)) with (i + (j + 1)) by lia.
  replace (Z.pred (Z.of_nat (S k))) with (Z.of_nat k) by lia.
  cbn [mark foldl list_inserts]. f_equal.
  replace (Z.to_nat (j + 1)) with (S (Z.to_nat j)) by lia.
  unfold aset. symmetry. apply list_insert_inserts_lt. lia.
Qed.

Lemma filter_ext_in {A} (P Q : A -> Prop) `{!∀ x, Decision (P x)} `{!∀ x, Decision (Q x)}
    (l : list A) :
  (∀ x, x ∈ l -> P x ↔ Q x) -> filter P l = filter Q l.
Proof.
  induction l as [|x l IH]; intros HPQ; [done|].
  rewrite !filter_cons. rewrite IH by (intros y ?; apply HPQ; by right).
  pose proof (HPQ x (list_elem_of_here _ _)).
  repeat case_decide; try done; tauto.
Qed.

Lemma free_list_aset bm i v j k :
  0 <= i < j -> free_list (bm.[i <- v]) j k = free_list bm j k.
Proof.
  intros ?. unfold free_list. apply filter_ext_in.
  intros x Hx%elem_of_seqZ. unfold is_free. rewrite aget_aset_ne by lia. done.
Qed.

Lemma free_list_cons_free bm i k :
  0 < k -> bm.[i] = false -> free_list bm i k = i :: free_list bm (i + 1) (k - 1).
Proof.
  intros ? Hf. unfold free_list. rewrite seqZ_cons by done.
  rewrite filter_cons_True by done. done.
Qed.

Lemma free_list_cons_used bm i k :
  0 < k -> bm.[i] = true -> free_list bm i k = free_list bm (i + 1) (k - 1).
Proof.
  intros ? Hf. unfold free_list. rewrite seqZ_cons by done.
  rewrite filter_cons_False; [done|]. unfold is_free. congruence.
Qed.

Lemma scatter_eq bm bl used allocated n i k :
  0 <= i -> 0 <= allocated <= n ->
  0 <= used -> used + Z.of_nat k < SIZE_MAX1 -> allocated + Z.of_nat k < SIZE_MAX1 ->
  let l := take (Z.to_nat (n - allocated)) (free_list bm i (Z.of_nat k)) in
  scatter bm bl used allocated n i k =
  (mark bm l true, list_inserts (Z.to_nat allocated) l bl,
   used + Z.of_nat (length l), allocated + Z.of_nat (length l)).
Proof.
  revert bm bl used allocated i.
  induction k as [|k IH]; intros bm bl used allocated i Hi Ha Hu Hu' Ha'.
  - cbn zeta. unfold free_list. rewrite seqZ_nil by lia.
    cbn [filter list_filter]. rewrite take_nil. cbn. by rewrite !Z.add_0_r.
  - cbn zeta. cbn [scatter].
    destruct (Z.ltb_spec allocated n) as [Hlt|Hge].
    + destruct (bm.[i]) eqn:Hb; cbn [negb].
      * rewrite free_list_cons_used by (done || lia).
        replace (Z.of_nat (S k) - 1) with (Z.of_nat k) by lia.
        apply IH; lia.
      * rewrite free_list_cons_free by (done || lia).
        replace (Z.of_nat (S k) - 1) with (Z.of_nat k) by lia.
        replace (Z.to_nat (n - allocated)) with (S (Z.to_nat (n - (allocated + 1)))) by lia.
        cbn [take]. rewrite !wadd_small by lia.
        rewrite IH by lia. rewrite free_list_aset by lia.
        cbn [mark foldl list_inserts length]. f_equal; [f_equal; [f_equal|]|]; [|lia..].
        replace (Z.to_nat (allocated + 1)) with (S (Z.to_nat allocated)) by lia.
        unfold aset. symmetry. apply list_insert_inserts_lt. lia.
    + replace (Z.to_nat (n - allocated)) with 0%nat by lia.
      cbn. by rewrite !Z.add_0_r.
Qed.

Lemma length_free_list bm :
  Z.of_nat (length (free_list bm 0 (Z.of_nat (length bm)))) =
  Z.of_nat (length bm) - count_occupied bm.
Proof.
  induction bm as [|b bm IH] using rev_ind; [done|].
  rewrite length_app, count_occupied_app. cbn [length count_occupied].
  replace (length bm + 1)%nat with (S (length bm)) by lia.
  unfold free_list in *. rewrite seqZ_S, filter_app, length_app.
  rewrite (filter_ext_in (is_free (bm ++ [b])) (is_free bm)).
  - rewrite Nat2Z.inj_add, IH. rewrite filter_singleton by exact [].
    assert ((bm ++ [b]).[0 + Z.of_nat (length bm)] = b) as Hb.
    { unfold aget. apply list_lookup_total_middle. lia. }
    unfold is_free. case_decide as Hd; rewrite Hb in Hd; destruct b; cbn; try done; lia.
  - intros x Hx%elem_of_seqZ. unfold is_free, aget.
    by rewrite lookup_total_app_l by lia.
Qed.

Lemma alloc_choice_free bm n l :
  0 < n -> alloc_choice bm n l ->
  NoDup l ∧ Forall (fun b => 0 <= b < MAX_BLOCKS ∧ bm.[b] = false) l.
Proof.
  intros Hn [(i & Hi & Hrun & _ & ->)|[_ ->]].
  - split; [apply NoDup_seqZ|]. apply Forall_seqZ. intros b ?.
    destruct (Hrun (b - i)) as [? ?]; [lia|].
    replace (i + (b - i)) with b in * by lia. split; [lia|done].
  - split.
    + eapply sublist_NoDup; [|apply sublist_take]. apply NoDup_filter, NoDup_seqZ.
    + apply Forall_take. apply Forall_forall. intros b Hb.
      apply list_elem_of_filter in Hb as [? Hb%elem_of_seqZ]. split; [lia|done].
Qed.

Lemma allocate_blocks_ok fs n bl :
  length (block_map fs) = Z.to_nat MAX_BLOCKS ->
  used_blocks fs = count_occupied (block_map fs) ->
  0 < n <= MAX_BLOCKS ->
  used_blocks fs + n <= MAX_BLOCKS ->
  ∃ l, allocate_blocks fs n bl =
         (n, set_alloc fs (mark (block_map fs) l true) (used_blocks fs + n),
          list_inserts 0 l bl)
       ∧ Z.of_nat (length l) = n
       ∧ alloc_choice (block_map fs) n l.
Proof.
  intros Hlen Hused Hn Hroom. unfold allocate_blocks.
  pose proof (count_occupied_bounds (block_map fs)) as Hc.
  assert (0 <= used_blocks fs <= MAX_BLOCKS) as Hu by lia.
  destruct (Z.eqb_spec n 0) as [?|_]; [lia|].
  destruct (Z.gtb_spec n MAX_BLOCKS) as [?|_]; [lia|]. cbn [orb].
  rewrite wadd_small by zlia.
  destruct (Z.gtb_spec (used_blocks fs + n) MAX_BLOCKS) as [?|_]; [lia|].
  destruct (search_sequence _ _ _ _) as [i|] eqn:Hs.
  - apply search_sequence_Some in Hs as (Hi & Hrun & Hmin); [|lia].
    rewrite assign_sequence_eq by done. rewrite Z.add_0_r, Z2Nat.id by lia.
    exists (seqZ i n). split; [done|]. split; [rewrite length_seqZ; lia|].
    left. exists i. split; [lia|]. split; [done|]. split; [|done].
    intros r ?. apply Hmin. lia.
  - pose proof (search_sequence_None _ _ _ _ (proj1 Hn) Hs) as Hnone.
    rewrite Z.add_0_l, Z2Nat.id in Hnone by zlia.
    rewrite scatter_eq by zlia. cbn zeta.
    rewrite Z.sub_0_r, Z.add_0_l, Z2Nat.id by zlia.
    set (l := take (Z.to_nat n) (free_list (block_map fs) 0 MAX_BLOCKS)).
    assert (Z.of_nat (length l) = n) as Hl.
    { subst l. rewrite length_take.
      pose proof (length_free_list (block_map fs)) as Hf.
      rewrite Hlen, Z2Nat.id in Hf by zlia. lia. }
    exists l. rewrite Hl. split; [done|]. split; [done|].
    right. split; [|done]. intros r ? Hrun.
    destruct (decide (r < MAX_BLOCKS)); [by apply (Hnone r)|].
    destruct (Hrun 0); lia.
Qed.

(** ** free_blocks *)

Lemma elem_of_take_drop {A} (l : list A) k n x : x ∈ take k (drop n l) -> x ∈ l.
Proof.
  intros Hin. apply list_elem_of_lookup in Hin as [j Hj].
  apply lookup_take_Some in Hj as [Hj _]. rewrite lookup_drop in Hj.
  apply list_elem_of_lookup. eauto.
Qed.

(** A block that is free and cleared stays so through the loop. *)
Lemma free_loop_keeps blocks bm used bl i k b :
  bm.[b] = false -> blocks.[b] = zero_block ->
  let '(blocks', bm', _) := free_loop blocks bm used bl i k in
  bm'.[b] = false ∧ blocks'.[b] = zero_block.
Proof.
  revert blocks bm used i. induction k as [|k IH]; intros blocks bm used i Hb Hz; [done|].
  cbn [free_loop]. cbn zeta.
  destruct ((bl.[i] <? MAX_BLOCKS) && bm.[bl.[i]]); [|by apply IH].
  apply IH; unfold aget, aset; rewrite list_lookup_total_insert; by case_decide.
Qed.

(** Every listed block that passes the guard ends up free and cleared,
    whatever else the list holds. *)
Lemma free_loop_clears blocks bm used bl i k b :
  0 <= i -> (Z.to_nat i + k <= length bl)%nat ->
  Forall (fun x => 0 <= x) bl ->
  (Z.to_nat MAX_BLOCKS <= length bm)%nat -> (Z.to_nat MAX_BLOCKS <= length blocks)%nat ->
  b ∈ take k (drop (Z.to_nat i) bl) -> b < MAX_BLOCKS -> bm.[b] = true ->
  let '(blocks', bm', _) := free_loop blocks bm used bl i k in
  bm'.[b] = false ∧ blocks'.[b] = zero_block.
Proof.
  intros Hi Hk Hpos. revert blocks bm used i Hi Hk.
  induction k as [|k IH]; intros blocks bm used i Hi Hk Hbm Hbl Hin Hb Ht.
  { rewrite take_0 in Hin. by apply elem_of_nil in Hin. }
  rewrite (drop_S _ bl.[i]) in Hin by (apply aget_lookup; lia).
  cbn [take] in Hin. cbn [free_loop]. cbn zeta.
  assert (0 <= bl.[i]) as Hx.
  { rewrite Forall_forall in Hpos. apply Hpos. apply list_elem_of_lookup.
    exists (Z.to_nat i). apply aget_lookup; lia. }
  assert (0 <= b) as Hb0.
  { apply elem_of_cons in Hin as [->|Hin]; [done|].
    rewrite Forall_forall in Hpos. apply Hpos. by eapply elem_of_take_drop. }
  destruct (decide (b = bl.[i])) as [Heq|Hne].
  - rewrite <- Heq. destruct (Z.ltb_spec b MAX_BLOCKS); [|lia]. rewrite Ht. cbn [andb].
    apply free_loop_keeps; apply aget_aset_eq; lia.
  - apply elem_of_cons in Hin as [?|Hin]; [done|].
    replace (S (Z.to_nat i)) with (Z.to_nat (i + 1)) in Hin by lia.
    destruct ((bl.[i] <? MAX_BLOCKS) && bm.[bl.[i]]).
    + apply IH; rewrite ?length_aset; try done; try lia.
      by rewrite aget_aset_ne.
    + apply IH; try done; lia.
Qed.

(** On a list of distinct occupied blocks the loop frees them all. *)
Lemma free_loop_eq blocks bm used bl i k :
  0 <= i -> (Z.to_nat i + k <= length bl)%nat ->
  let l := take k (drop (Z.to_nat i) bl) in
  NoDup l ->
  Forall (fun b => 0 <= b < MAX_BLOCKS ∧ (Z.to_nat b < length bm)%nat ∧ bm.[b] = true) l ->
  Z.of_nat k <= used < SIZE_MAX1 ->
  free_loop blocks bm used bl i k =
  (mark blocks l zero_block, mark bm l false, used - Z.of_nat k).
Proof.
  revert blocks bm used i. induction k as [|k IH]; intros blocks bm used i Hi Hk l Hnd Hl Hu.
  { subst l. cbn. by rewrite Z.sub_0_r. }
  subst l. rewrite (drop_S _ bl.[i]) in * by (apply aget_lookup; lia).
  cbn [take] in *. cbn [free_loop]. cbn zeta.
  inversion_clear Hnd as [|? ? Hx Hnd']. inversion_clear Hl as [|? ? (? & ? & Hv) Hl'].
  destruct (Z.ltb_spec bl.[i] MAX_BLOCKS); [|lia]. rewrite Hv. cbn [andb].
  replace (S (Z.to_nat i)) with (Z.to_nat (i + 1)) in * by lia.
  rewrite wsub_small by lia. rewrite IH; try done; try lia.
  - cbn [mark foldl]. f_equal. lia.
  - rewrite Forall_forall in Hl'. apply Forall_forall. intros y Hy.
    destruct (Hl' y Hy) as (? & ? & ?). rewrite length_aset.
    split; [lia|]. split; [done|].
    rewrite aget_aset_ne; [done|lia..|]. intros Heq. by rewrite Heq in Hx.
Qed.

(** ** Recounts and table updates *)

Lemma sum_in_use_app f ft1 ft2 :
  sum_in_use f (ft1 ++ ft2) = sum_in_use f ft1 + sum_in_use f ft2.
Proof. induction ft1 as [|e ft1 IH]; cbn [sum_in_use app]; lia. Qed.

Lemma sum_in_use_insert f ft p e' :
  (p < length ft)%nat ->
  sum_in_use f (<[p := e']> ft) =
  sum_in_use f ft - (if fe_in_use (ft !!! p) then f (ft !!! p) else 0)
  + (if fe_in_use e' then f e' else 0).
Proof.
  intros Hp. rewrite insert_take_drop by done.
  rewrite <- (take_drop_middle ft p (ft !!! p)) at 3
    by (by apply list_lookup_lookup_total_lt).
  rewrite !sum_in_use_app. cbn [sum_in_use]. lia.
Qed.

Lemma sum_in_use_bounds f ft c :
  0 <= c -> (∀ e, e ∈ ft -> fe_in_use e = true -> 0 <= f e <= c) ->
  0 <= sum_in_use f ft <= c * Z.of_nat (length ft).
Proof.
  intros Hc. induction ft as [|e ft IH]; intros Hf; cbn [sum_in_use length]; [lia|].
  destruct IH as [? ?]; [intros; apply Hf; [by right|done]|].
  pose proof (Hf e (list_elem_of_here _ _)).
  destruct (fe_in_use e); nia.
Qed.

Lemma all_owned_insert ft p e' :
  (p < length ft)%nat ->
  all_owned (<[p := e']> ft) =
  all_owned (take p ft) ++ owned_blocks e' ++ all_owned (drop (S p) ft).
Proof.
  intros Hp. rewrite insert_take_drop by done. unfold all_owned.
  by rewrite bind_app, bind_cons.
Qed.

Lemma all_owned_split ft p :
  (p < length ft)%nat ->
  all_owned ft =
  all_owned (take p ft) ++ owned_blocks (ft !!! p) ++ all_owned (drop (S p) ft).
Proof.
  intros Hp. rewrite <- (take_drop_middle ft p (ft !!! p)) at 1
    by (by apply list_lookup_lookup_total_lt).
  unfold all_owned. by rewrite bind_app, bind_cons.
Qed.

Lemma find_file_from_Some ft i filename p :
  find_file_from ft i filename = Some p ->
  (i <= p < i + length ft)%nat ∧
  fe_in_use (ft !!! (p - i)%nat) = true ∧
  streq (fe_filename (ft !!! (p - i)%nat)) filename = true.
Proof.
  revert i. induction ft as [|e ft IH]; intros i; [done|].
  cbn [find_file_from].
  destruct (fe_in_use e && streq (fe_filename e) filename) eqn:Hc.
  - intros [= <-]. apply andb_true_iff in Hc as [? ?].
    rewrite Nat.sub_diag. cbn. split; [lia|done].
  - intros Hf. destruct (IH _ Hf) as (? & ? & ?). cbn [length].
    replace (p - i)%nat with (S (p - S i)) by lia. split; [lia|done].
Qed.

Lemma find_file_Some fs filename p :
  find_file fs filename = Some p ->
  (p < length (file_table fs))%nat ∧
  fe_in_use (file_table fs !!! p) = true ∧
  streq (fe_filename (file_table fs !!! p)) filename = true.
Proof.
  intros Hf. apply find_file_from_Some in Hf as (? & Hu & Hs).
  rewrite Nat.sub_0_r in Hu, Hs. split; [lia|done].
Qed.

Lemma free_slot_from_Some ft i p :
  free_slot_from ft i = Some p ->
  (i <= p < i + length ft)%nat ∧ fe_in_use (ft !!! (p - i)%nat) = false.
Proof.
  revert i. induction ft as [|e ft IH]; intros i; [done|].
  cbn [free_slot_from]. destruct (fe_in_use e) eqn:Hu; cbn [negb].
  - intros Hf. destruct (IH _ Hf) as (? & ?). cbn [length].
    replace (p - i)%nat with (S (p - S i)) by lia. split; [lia|done].
  - intros [= <-]. rewrite Nat.sub_diag. cbn. split; [lia|done].
Qed.

Lemma all_owned_free ft :
  Forall (fun e => fe_in_use e = false) ft -> all_owned ft = [].
Proof.
  induction 1 as [|e ft He _ IH]; [done|].
  unfold all_owned in *. rewrite bind_cons, IH. unfold owned_blocks. by rewrite He.
Qed.

Lemma sum_in_use_free f ft :
  Forall (fun e => fe_in_use e = false) ft -> sum_in_use f ft = 0.
Proof.
  induction 1 as [|e ft He _ IH]; [done|]. cbn [sum_in_use]. rewrite He, IH. done.
Qed.

Lemma blocks_for_bounds size :
  0 < size <= MAX_FILE_SIZE -> 0 < blocks_for size <= MAX_BLOCKS.
Proof. unfold blocks_for. intros. zlia. Qed.

Lemma entry_ok_live ft p :
  Forall entry_ok ft -> (p < length ft)%nat -> fe_in_use (ft !!! p) = true ->
  0 < fe_size (ft !!! p) <= MAX_FILE_SIZE ∧
  fe_num_blocks (ft !!! p) = blocks_for (fe_size (ft !!! p)) ∧
  length (fe_blocks (ft !!! p)) = Z.to_nat MAX_BLOCKS.
Proof.
  intros Hok Hp Hu. rewrite Forall_forall in Hok.
  destruct (Hok (ft !!! p)) as (? & ? & ? & Hlive).
  { apply list_elem_of_lookup. exists p. by apply list_lookup_lookup_total_lt. }
  destruct (Hlive Hu). done.
Qed.

Lemma live_bounds ft :
  Forall entry_ok ft ->
  0 <= live_files ft <= Z.of_nat (length ft) ∧
  0 <= live_bytes ft <= MAX_FILE_SIZE * Z.of_nat (length ft) ∧
  0 <= live_blocks ft.
Proof.
  intros Hok. rewrite Forall_forall in Hok.
  pose proof (sum_in_use_bounds (fun _ => 1) ft 1 ltac:(lia)) as H1.
  pose proof (sum_in_use_bounds fe_size ft MAX_FILE_SIZE ltac:(zlia)) as H2.
  pose proof (sum_in_use_bounds fe_num_blocks ft MAX_BLOCKS ltac:(zlia)) as H3.
  unfold live_files, live_bytes, live_blocks.
  split; [|split].
  - destruct H1; [intros; lia|]. lia.
  - apply H2. intros e He Hu. destruct (Hok e He) as (_ & _ & _ & Hl).
    destruct (Hl Hu). lia.
  - apply H3. intros e He Hu. destruct (Hok e He) as (_ & _ & _ & Hl).
    destruct (Hl Hu) as [Hs ->]. pose proof (blocks_for_bounds _ Hs). lia.
Qed.

(** ** init_filesystem *)

Lemma init_filesystem_inv : fs_inv (init_filesystem fs_static).2.
Proof.
  assert (Forall (fun e => fe_in_use e = false) (init_entry <$> file_table fs_static)) as Hfree.
  { apply Forall_fmap, Forall_true. done. }
  unfold fs_static in *.
  split; cbn [init_filesystem snd fs_blocks block_map file_table num_files
              used_blocks total_storage] in *.
  - by rewrite length_fmap, length_replicate.
  - apply Forall_fmap, Forall_true. intros ?. apply length_replicate.
  - by rewrite length_fmap, length_replicate.
  - by rewrite length_fmap, length_replicate.
  - apply Forall_fmap, Forall_replicate. unfold entry_ok. cbn.
    rewrite length_aset, !length_replicate.
    split; [done|]. split; [done|]. split; [|done].
    apply Forall_replicate. lia.
  - rewrite all_owned_free by done. constructor.
  - rewrite all_owned_free by done. constructor.
  - rewrite fmap_replicate. by rewrite count_occupied_replicate.
  - unfold live_blocks. by rewrite sum_in_use_free.
  - unfold live_files. by rewrite sum_in_use_free.
  - unfold live_bytes. by rewrite sum_in_use_free.
  - intros b Hb _. rewrite fmap_replicate. apply aget_replicate. lia.
Qed.

(** ** create_file *)

Lemma create_file_cases fs name size :
  fs_inv fs -> is_size_t size ->
  ((create_file fs (Some name) size).1.1 = -1 ∧ (create_file fs (Some name) size).2 = fs)
  ∨ (∃ p l,
        strlen name ≠ 0 ∧ 0 < size <= MAX_FILE_SIZE ∧
        find_file fs name = None ∧
        free_slot_from (file_table fs) 0 = Some p ∧
        Z.of_nat (length l) = blocks_for size ∧
        alloc_choice (block_map fs) (blocks_for size) l ∧
        create_file fs (Some name) size =
        (0, [MsgCreated name size (blocks_for size)], created fs p name size l)).
Proof.
  intros Hinv Hsize. unfold create_file.
  destruct (Z.eqb_spec (strlen name) 0); [by left|].
  destruct (Z.eqb_spec size 0); [by left|].
  destruct (Z.gtb_spec size MAX_FILE_SIZE); [by left|].
  destruct (find_file fs name) eqn:Hfind; [by left|].
  destruct (Z.geb_spec (num_files fs) MAX_FILES); [by left|].
  assert (0 < size <= MAX_FILE_SIZE) as Hs by zlia.
  replace (wsub (wadd size BLOCK_SIZE) 1 / BLOCK_SIZE) with (blocks_for size)
    by (unfold blocks_for; zlia).
  pose proof (blocks_for_bounds _ Hs) as Hn.
  pose proof (count_occupied_bounds (block_map fs)) as Hc.
  rewrite <- (inv_used _ Hinv), (inv_map_len _ Hinv) in Hc.
  rewrite wadd_small by zlia.
  destruct (Z.gtb_spec (used_blocks fs + blocks_for size) MAX_BLOCKS); [by left|].
  destruct (free_slot_from (file_table fs) 0) as [p|] eqn:Hslot; [|by left].
  right. unfold allocate_into.
  destruct (allocate_blocks_ok fs (blocks_for size) (fe_blocks (file_table fs !!! p)))
    as (l & -> & Hl & Hchoice);
    [apply Hinv | apply Hinv | lia | lia |].
  rewrite Z.ltb_irrefl. exists p, l.
  repeat (split; [done|]).
  cbn [set_file_table set_alloc fs_blocks block_map file_table num_files
       used_blocks total_storage].
  apply free_slot_from_Some in Hslot as [Hp _].
  rewrite list_lookup_total_insert_eq by lia.
  rewrite list_insert_insert_eq.
  pose proof (live_bounds _ (inv_entries _ Hinv)) as (Hf & Hb & _).
  rewrite (inv_table_len _ Hinv) in Hf, Hb.
  rewrite !wadd_small; [done| |].
  - rewrite (inv_total _ Hinv). zlia.
  - rewrite (inv_num_files _ Hinv). zlia.
Qed.

Lemma owned_blocks_create_entry e name size l :
  length (fe_blocks e) = Z.to_nat MAX_BLOCKS ->
  0 < size <= MAX_FILE_SIZE ->
  Z.of_nat (length l) = blocks_for size ->
  owned_blocks (create_entry (set_entry_blocks e (list_inserts 0 l (fe_blocks e)))
                             name size (blocks_for size)) = l.
Proof.
  intros Hlen Hs Hl. pose proof (blocks_for_bounds _ Hs).
  unfold owned_blocks. cbn [create_entry set_entry_blocks fe_in_use fe_num_blocks fe_blocks].
  rewrite <- (take_drop (length l) (fe_blocks e)) at 1.
  rewrite list_inserts_0_r by (rewrite length_take; lia).
  apply take_app_length'. lia.
Qed.

Lemma created_inv fs p name size l :
  fs_inv fs ->
  0 < size <= MAX_FILE_SIZE ->
  free_slot_from (file_table fs) 0 = Some p ->
  Z.of_nat (length l) = blocks_for size ->
  alloc_choice (block_map fs) (blocks_for size) l ->
  fs_inv (created fs p name size l).
Proof.
  intros Hinv Hs Hslot Hl Hchoice.
  pose proof (blocks_for_bounds _ Hs) as Hn.
  apply free_slot_from_Some in Hslot as [Hp Hfree]. rewrite Nat.sub_0_r in Hfree.
  assert (p < length (file_table fs))%nat as Hp' by lia. clear Hp.
  destruct (alloc_choice_free _ _ _ (proj1 Hn) Hchoice) as [Hnd Hlfree].
  pose proof (inv_map_len _ Hinv) as Hmap.
  assert (entry_ok (file_table fs !!! p)) as (Hname & Hblocks & Hpos & _).
  { pose proof (inv_entries _ Hinv) as Hok. rewrite Forall_forall in Hok. apply Hok.
    apply list_elem_of_lookup. exists p. by apply list_lookup_lookup_total_lt. }
  unfold created. cbv zeta. set (e' := create_entry _ _ _ _).
  assert (owned_blocks e' = l) as Howned by (by apply owned_blocks_create_entry).
  assert (all_owned (file_table fs) =
          all_owned (take p (file_table fs)) ++ all_owned (drop (S p) (file_table fs)))
    as Hold.
  { rewrite (all_owned_split _ p) by done. unfold owned_blocks at 1. by rewrite Hfree. }
  pose proof (inv_owned_nodup _ Hinv) as Hndo.
  pose proof (inv_owned_occupied _ Hinv) as Hocc.
  rewrite Hold in Hndo, Hocc.
  assert (Forall (fun x => 0 <= x ∧ (Z.to_nat x < length (block_map fs))%nat ∧
                           (block_map fs).[x] = negb true) l) as Hl3.
  { eapply Forall_impl; [exact Hlfree|]. cbn. intros x [? ?]. rewrite Hmap. split; [lia|].
    split; [lia|done]. }
  split; cbn [fs_blocks block_map file_table num_files used_blocks total_storage].
  - apply Hinv.
  - apply Hinv.
  - by rewrite length_mark.
  - rewrite length_insert. apply Hinv.
  - apply Forall_insert; [apply Hinv|]. subst e'. unfold entry_ok.
    cbn [create_entry set_entry_blocks fe_filename fe_blocks fe_in_use fe_size fe_num_blocks].
    rewrite length_aset. unfold strncpy. rewrite !length_inserts.
    split; [done|]. split; [done|]. split; [|done].
    apply Forall_inserts; [done|]. eapply Forall_impl; [exact Hlfree|]. cbn. lia.
  - rewrite all_owned_insert, Howned by done.
    rewrite Permutation_app_swap_app. apply NoDup_app. split; [done|]. split; [|done].
    intros x Hx Hx'. rewrite Forall_forall in Hlfree, Hocc.
    destruct (Hlfree x Hx) as [_ ?]. destruct (Hocc x Hx') as [_ ?]. congruence.
  - rewrite all_owned_insert, Howned by done.
    rewrite Permutation_app_swap_app. apply Forall_app. split.
    + apply Forall_forall. intros x Hx. rewrite Forall_forall in Hlfree.
      split; [by apply Hlfree|]. apply aget_mark_in; [|done].
      eapply Forall_impl; [exact Hl3|]. cbn. tauto.
    + eapply Forall_impl; [exact Hocc|]. cbn. intros x [? ?]. split; [done|].
      by apply aget_mark_keep.
  - rewrite count_occupied_mark by done. rewrite (inv_used _ Hinv). lia.
  - unfold live_blocks. rewrite sum_in_use_insert, Hfree by done.
    fold (live_blocks (file_table fs)). rewrite (inv_live_blocks _ Hinv).
    subst e'. cbn. lia.
  - unfold live_files. rewrite sum_in_use_insert, Hfree by done.
    fold (live_files (file_table fs)). rewrite (inv_num_files _ Hinv).
    subst e'. cbn. lia.
  - unfold live_bytes. rewrite sum_in_use_insert, Hfree by done.
    fold (live_bytes (file_table fs)). rewrite (inv_total _ Hinv).
    subst e'. cbn. lia.
  - intros b Hb Hf. apply (inv_free_zero _ Hinv); [done|].
    destruct ((block_map fs).[b]) eqn:Hbm; [|done].
    by rewrite (aget_mark_keep _ l true b Hbm) in Hf.
Qed.

Lemma create_file_inv fs filename size :
  fs_inv fs -> is_size_t size -> fs_inv (create_file fs filename size).2.
Proof.
  intros Hinv Hsize. destruct filename as [name|]; [|done].
  destruct (create_file_cases fs name size Hinv Hsize)
    as [[_ ->]|(p & l & _ & ? & _ & ? & ? & ? & ->)]; [done|].
  by apply created_inv.
Qed.

(** ** delete_file *)

Lemma Forall_mark {A} (P : A -> Prop) (a : list A) l v :
  Forall P a -> P v -> Forall P (mark a l v).
Proof.
  intros Ha Hv. revert a Ha. induction l as [|x l IH]; intros a Ha; [done|].
  cbn. apply IH. by apply Forall_insert.
Qed.

Lemma clear_entry_ok e : entry_ok e -> entry_ok (clear_entry e).
Proof.
  intros (? & ? & ? & _). unfold entry_ok. cbn. rewrite length_aset. done.
Qed.

(** What the invariant says about the entry [find_file] returns. *)
Lemma live_entry_facts fs p :
  fs_inv fs -> (p < length (file_table fs))%nat ->
  fe_in_use (file_table fs !!! p) = true ->
  let file := file_table fs !!! p in
  let l := take (Z.to_nat (fe_num_blocks file)) (fe_blocks file) in
  0 < fe_size file <= MAX_FILE_SIZE ∧
  fe_num_blocks file = blocks_for (fe_size file) ∧
  0 < fe_num_blocks file <= MAX_BLOCKS ∧
  length (fe_blocks file) = Z.to_nat MAX_BLOCKS ∧
  owned_blocks file = l ∧
  Z.of_nat (length l) = fe_num_blocks file ∧
  NoDup l ∧
  Forall (fun b => 0 <= b < MAX_BLOCKS ∧ (block_map fs).[b] = true) l ∧
  (∀ x, x ∈ l ->
     x ∉ all_owned (take p (file_table fs)) ++ all_owned (drop (S p) (file_table fs))) ∧
  fe_num_blocks file <= used_blocks fs.
Proof.
  intros Hinv Hp Hu file l.
  destruct (entry_ok_live _ p (inv_entries _ Hinv) Hp Hu) as (Hs & Hnb & Hlen).
  pose proof (blocks_for_bounds _ Hs) as Hn. rewrite <- Hnb in Hn.
  fold file in Hs, Hnb, Hlen, Hn, Hu.
  assert (owned_blocks file = l) as Ho by (unfold owned_blocks; by rewrite Hu).
  pose proof (inv_owned_nodup _ Hinv) as Hnd.
  pose proof (inv_owned_occupied _ Hinv) as Hocc.
  rewrite (all_owned_split _ p) in Hnd, Hocc by done. fold file in Hnd, Hocc.
  rewrite Ho in Hnd, Hocc.
  rewrite Permutation_app_swap_app in Hnd.
  apply NoDup_app in Hnd as (Hndl & Hdisj & _).
  apply Forall_app in Hocc as [_ Hocc]. apply Forall_app in Hocc as [Hocc _].
  repeat (split; [done|]). split; [subst l; rewrite length_take; lia|].
  repeat (split; [done|]).
  pose proof (sum_in_use_insert fe_num_blocks (file_table fs) p (clear_entry file) Hp) as Hsum.
  fold file in Hsum. rewrite Hu in Hsum. cbn in Hsum.
  assert (Forall entry_ok (<[p := clear_entry file]> (file_table fs))) as Hok'.
  { apply Forall_insert; [apply Hinv|]. apply clear_entry_ok.
    pose proof (inv_entries _ Hinv) as Hok. rewrite Forall_forall in Hok. apply Hok.
    apply list_elem_of_lookup. exists p. by apply list_lookup_lookup_total_lt. }
  destruct (live_bounds _ Hok') as (_ & _ & Hb). unfold live_blocks in Hb.
  rewrite <- (inv_live_blocks _ Hinv). unfold live_blocks. lia.
Qed.

Lemma delete_file_found fs name p :
  fs_inv fs -> find_file fs name = Some p ->
  delete_file fs (Some name) = (0, [MsgDeleted name], deleted fs p).
Proof.
  intros Hinv Hfind. unfold delete_file. rewrite Hfind.
  apply find_file_Some in Hfind as (Hp & Hu & _).
  destruct (live_entry_facts fs p Hinv Hp Hu)
    as (Hs & Hnb & Hn & Hlen & Ho & Hll & Hnd & Hocc & _ & Hused).
  set (file := file_table fs !!! p) in *.
  pose proof (count_occupied_bounds (block_map fs)) as Hc.
  rewrite <- (inv_used _ Hinv), (inv_map_len _ Hinv) in Hc.
  unfold free_blocks. rewrite free_loop_eq; rewrite ?drop_0; [|lia|lia|done| |zlia].
  - cbn [fs_blocks block_map file_table num_files used_blocks total_storage].
    unfold deleted. cbv zeta. fold file. rewrite Ho.
    pose proof (sum_in_use_insert (fun _ => 1) (file_table fs) p (clear_entry file) Hp) as H1.
    pose proof (sum_in_use_insert fe_size (file_table fs) p (clear_entry file) Hp) as H2.
    fold file in H1, H2. rewrite Hu in H1, H2. cbn in H1, H2.
    assert (Forall entry_ok (<[p := clear_entry file]> (file_table fs))) as Hok'.
    { apply Forall_insert; [apply Hinv|]. apply clear_entry_ok.
      pose proof (inv_entries _ Hinv) as Hok. rewrite Forall_forall in Hok. apply Hok.
      apply list_elem_of_lookup. exists p. by apply list_lookup_lookup_total_lt. }
    destruct (live_bounds _ Hok') as (Hf & Hb & _).
    rewrite length_insert, (inv_table_len _ Hinv) in Hf, Hb.
    unfold live_files, live_bytes in Hf, Hb.
    pose proof (inv_num_files _ Hinv) as Hnf. pose proof (inv_total _ Hinv) as Hts.
    unfold live_files, live_bytes in Hnf, Hts.
    rewrite !wsub_small by zlia.
    do 2 f_equal. f_equal. lia.
  - eapply Forall_impl; [exact Hocc|]. cbn. intros x [? ?].
    rewrite (inv_map_len _ Hinv). split; [lia|]. split; [lia|done].
Qed.

Lemma deleted_inv fs p :
  fs_inv fs -> (p < length (file_table fs))%nat ->
  fe_in_use (file_table fs !!! p) = true ->
  fs_inv (deleted fs p).
Proof.
  intros Hinv Hp Hu.
  destruct (live_entry_facts fs p Hinv Hp Hu)
    as (Hs & Hnb & Hn & Hlen & Ho & Hll & Hnd & Hocc & Hdisj & Hused).
  unfold deleted. cbv zeta.
  set (file := file_table fs !!! p) in *. rewrite Ho.
  set (l := take (Z.to_nat (fe_num_blocks file)) (fe_blocks file)) in *.
  assert (all_owned (<[p := clear_entry file]> (file_table fs)) =
          all_owned (take p (file_table fs)) ++ all_owned (drop (S p) (file_table fs)))
    as Hnew by (by rewrite all_owned_insert).
  pose proof (inv_owned_nodup _ Hinv) as Hndo.
  pose proof (inv_owned_occupied _ Hinv) as Hocco.
  rewrite (all_owned_split _ p) in Hndo, Hocco by done. fold file in Hndo, Hocco.
  rewrite Ho, Permutation_app_swap_app in Hndo, Hocco.
  apply NoDup_app in Hndo as (_ & _ & Hndo). apply Forall_app in Hocco as [_ Hocco].
  assert (Forall (fun x => 0 <= x) l) as Hpos.
  { eapply Forall_impl; [exact Hocc|]. cbn. lia. }
  assert (Forall (fun x => 0 <= x ∧ (Z.to_nat x < length (block_map fs))%nat ∧
                           (block_map fs).[x] = negb false) l) as Hl3.
  { eapply Forall_impl; [exact Hocc|]. cbn. intros x [? ?].
    rewrite (inv_map_len _ Hinv). split; [lia|]. split; [lia|done]. }
  split; cbn [fs_blocks block_map file_table num_files used_blocks total_storage].
  - rewrite length_mark. apply Hinv.
  - apply Forall_mark; [apply Hinv|]. apply length_replicate.
  - rewrite length_mark. apply Hinv.
  - rewrite length_insert. apply Hinv.
  - apply Forall_insert; [apply Hinv|]. apply clear_entry_ok.
    pose proof (inv_entries _ Hinv) as Hok. rewrite Forall_forall in Hok. apply Hok.
    apply list_elem_of_lookup. exists p. by apply list_lookup_lookup_total_lt.
  - by rewrite Hnew.
  - rewrite Hnew. apply Forall_forall. intros x Hx.
    rewrite Forall_forall in Hocco. destruct (Hocco x Hx) as [? ?]. split; [done|].
    rewrite aget_mark_notin; [done|lia|done|]. intros Hxl. by apply (Hdisj x Hxl).
  - rewrite count_occupied_mark by done. rewrite (inv_used _ Hinv). lia.
  - unfold live_blocks. rewrite sum_in_use_insert by done. fold file. rewrite Hu.
    fold (live_blocks (file_table fs)). rewrite (inv_live_blocks _ Hinv). cbn. lia.
  - unfold live_files. rewrite sum_in_use_insert by done. fold file. rewrite Hu.
    fold (live_files (file_table fs)). rewrite (inv_num_files _ Hinv). cbn. lia.
  - unfold live_bytes. rewrite sum_in_use_insert by done. fold file. rewrite Hu.
    fold (live_bytes (file_table fs)). rewrite (inv_total _ Hinv). cbn. lia.
  - intros b Hb Hf. destruct (decide (b ∈ l)) as [Hin|Hnin].
    + apply aget_mark_in; [|done]. eapply Forall_impl; [exact Hocc|]. cbn.
      intros x [? ?]. rewrite (inv_blocks_len _ Hinv). lia.
    + rewrite aget_mark_notin in Hf by (done || lia).
      rewrite aget_mark_notin by (done || lia).
      by apply (inv_free_zero _ Hinv).
Qed.

Lemma delete_file_inv fs filename : fs_inv fs -> fs_inv (delete_file fs filename).2.
Proof.
  intros Hinv. destruct filename as [name|]; [|done].
  destruct (find_file fs name) as [p|] eqn:Hfind.
  - rewrite (delete_file_found _ _ _ Hinv Hfind).
    apply find_file_Some in Hfind as (? & ? & _). by apply deleted_inv.
  - unfold delete_file. by rewrite Hfind.
Qed.

(** ** write_file: what the loop leaves alone *)

Lemma length_memcpy dst pos src from n : length (memcpy dst pos src from n) = length dst.
Proof. apply length_inserts. Qed.

Lemma Forall_rows_aset (blocks : list (list Z)) bi row n :
  Forall (fun r => length r = n) blocks ->
  length row = length blocks.[bi] ->
  Forall (fun r => length r = n) (blocks.[bi <- row]).
Proof.
  intros Hrows Hrow. unfold aset.
  destruct (decide (Z.to_nat bi < length blocks)%nat) as [Hlt|Hge].
  - apply Forall_insert; [done|]. rewrite Hrow.
    rewrite Forall_forall in Hrows. apply Hrows. unfold aget.
    apply list_elem_of_lookup. exists (Z.to_nat bi). by apply list_lookup_lookup_total_lt.
  - rewrite list_insert_ge by lia. done.
Qed.

Lemma elem_of_take_aget (l : list Z) n i :
  0 <= i < n -> (Z.to_nat n <= length l)%nat -> l.[i] ∈ take (Z.to_nat n) l.
Proof.
  intros Hi Hn. apply list_elem_of_lookup. exists (Z.to_nat i).
  rewrite lookup_take_lt by lia. apply aget_lookup; lia.
Qed.

Lemma write_loop_frame blocks file data data_len bw cb cp k :
  0 <= cb -> fe_num_blocks file <= MAX_BLOCKS ->
  (Z.to_nat (fe_num_blocks file) <= length (fe_blocks file))%nat ->
  Forall (fun b => 0 <= b) (fe_blocks file) ->
  Forall (fun r => length r = Z.to_nat BLOCK_SIZE) blocks ->
  let blocks' := (write_loop blocks file data data_len bw cb cp k).1 in
  length blocks' = length blocks ∧
  Forall (fun r => length r = Z.to_nat BLOCK_SIZE) blocks' ∧
  ∀ b, 0 <= b -> b ∉ take (Z.to_nat (fe_num_blocks file)) (fe_blocks file) ->
       blocks'.[b] = blocks.[b].
Proof.
  intros Hcb Hnb Hlen Hpos. revert blocks bw cb cp Hcb.
  induction k as [|k IH]; intros blocks bw cb cp Hcb Hrows; cbn zeta; [done|].
  cbn [write_loop]. cbn zeta.
  destruct ((bw <? data_len) && (cb <? fe_num_blocks file)) eqn:Hc; [|done].
  apply andb_true_iff in Hc as [_ Hc%Z.ltb_lt].
  set (bi := (fe_blocks file).[cb]).
  set (row := memcpy _ _ _ _ _).
  assert (bi ∈ take (Z.to_nat (fe_num_blocks file)) (fe_blocks file)) as Hbi
    by (apply elem_of_take_aget; lia).
  assert (0 <= bi) as Hbi0.
  { rewrite Forall_forall in Hpos. apply Hpos. by eapply (elem_of_take_drop _ _ 0). }
  rewrite (wadd_small cb 1) by zlia.
  specialize (IH (blocks.[bi <- row]) (wadd bw (if wadd cp (wsub data_len bw) >? BLOCK_SIZE
                                                 then wsub BLOCK_SIZE cp
                                                 else wsub data_len bw)) (cb + 1) 0).
  cbn zeta in IH. destruct IH as (IH1 & IH2 & IH3); [lia| |].
  { apply Forall_rows_aset; [done|]. apply length_memcpy. }
  rewrite length_aset in IH1. split; [done|]. split; [done|].
  intros b Hb Hnin. rewrite IH3 by done. apply aget_aset_ne; [done..|].
  intros ->. done.
Qed.

Lemma write_file_inv fs filename offset data :
  fs_inv fs -> is_size_t offset -> fs_inv (write_file fs filename offset data).2.
Proof.
  intros Hinv Hoff. unfold write_file.
  destruct filename as [name|]; [|done]. destruct data as [data|]; [|done].
  destruct (find_file fs name) as [p|] eqn:Hfind; [|done].
  apply find_file_Some in Hfind as (Hp & Hu & _).
  destruct (live_entry_facts fs p Hinv Hp Hu)
    as (Hs & Hnb & Hn & Hlen & Ho & Hll & Hnd & Hocc & _ & Hused).
  set (file := file_table fs !!! p) in *.
  destruct (offset >? fe_size file); [done|].
  destruct (wadd offset (strlen data) >? fe_size file); [done|].
  assert (Forall (fun b => 0 <= b) (fe_blocks file)) as Hpos.
  { pose proof (inv_entries _ Hinv) as Hok. rewrite Forall_forall in Hok.
    destruct (Hok file) as (_ & _ & ? & _); [|done].
    apply list_elem_of_lookup. exists p. by apply list_lookup_lookup_total_lt. }
  pose proof (write_loop_frame (fs_blocks fs) file data (strlen data) 0
                (offset / BLOCK_SIZE) (offset mod BLOCK_SIZE)
                (Z.to_nat (fe_num_blocks file))) as Hframe.
  destruct (write_loop _ _ _ _ _ _ _ _) as [blocks' bw'].
  cbn zeta in Hframe. cbn [fst snd] in *.
  destruct Hframe as (Hl1 & Hl2 & Hl3); [zlia|lia|lia|done|apply Hinv|].
  split; cbn [set_blocks fs_blocks block_map file_table num_files used_blocks
              total_storage]; try apply Hinv.
  - rewrite Hl1. apply Hinv.
  - done.
  - intros b Hb Hf. rewrite Hl3; [by apply (inv_free_zero _ Hinv)|lia|].
    intros Hin. rewrite Forall_forall in Hocc. destruct (Hocc b Hin) as [_ ?]. congruence.
Qed.

(** ** Every reachable state satisfies the invariant *)

Lemma step_inv fs c : fs_inv fs -> call_ok c -> fs_inv (step fs c).
Proof.
  intros Hinv Hc. destruct c; cbn [step call_ok] in *.
  - by apply create_file_inv.
  - by apply write_file_inv.
  - done.
  - by apply delete_file_inv.
  - done.
Qed.

Lemma reachable_inv fs : reachable fs -> fs_inv fs.
Proof.
  induction 1 as [|fs c _ IH Hc]; [apply init_filesystem_inv | by apply step_inv].
Qed.

(** ** C strings *)

Lemma strlen_bounds s : 0 <= strlen s <= Z.of_nat (length s).
Proof.
  induction s as [|c s IH]; cbn [strlen length]; [lia|].
  destruct (c =? 0); lia.
Qed.

Lemma strlen_nonzero s j : 0 <= j < strlen s -> s.[j] ≠ 0.
Proof.
  revert j. induction s as [|c s IH]; intros j; cbn [strlen]; [lia|].
  destruct (Z.eqb_spec c 0) as [|Hc]; [lia|]. intros Hj.
  destruct (decide (j = 0)) as [->|]; [done|].
  unfold aget. replace (Z.to_nat j) with (S (Z.to_nat (j - 1))) by lia.
  apply (IH (j - 1)). lia.
Qed.

Lemma strlen_zero s : strlen s < Z.of_nat (length s) -> s.[strlen s] = 0.
Proof.
  induction s as [|c s IH]; cbn [strlen length]; [lia|].
  destruct (Z.eqb_spec c 0) as [->|Hc]; [done|]. intros Hlt.
  pose proof (strlen_bounds s).
  unfold aget. replace (Z.to_nat (1 + strlen s)) with (S (Z.to_nat (strlen s))) by lia.
  apply IH. lia.
Qed.

Lemma strlen_no_zero s : Forall (fun c => c ≠ 0) s -> strlen s = Z.of_nat (length s).
Proof.
  induction 1 as [|c s Hc _ IH]; [done|]. cbn [strlen length].
  destruct (Z.eqb_spec c 0); [done|]. lia.
Qed.

Lemma length_cstr s : Z.of_nat (length (cstr s)) = strlen s.
Proof. unfold cstr. pose proof (strlen_bounds s). rewrite length_take. lia. Qed.

Lemma cstr_no_zero s : Forall (fun c => c ≠ 0) (cstr s).
Proof.
  apply Forall_forall. intros c Hc. apply list_elem_of_lookup in Hc as [j Hj].
  unfold cstr in Hj. apply lookup_take_Some in Hj as [Hj Hlt].
  pose proof (strlen_nonzero s (Z.of_nat j) ltac:(lia)) as Hnz.
  unfold aget in Hnz. rewrite Nat2Z.id in Hnz.
  by rewrite (list_lookup_total_correct _ _ _ Hj) in Hnz.
Qed.

Lemma strlen_cstr s : strlen (cstr s) = strlen s.
Proof. rewrite strlen_no_zero by apply cstr_no_zero. apply length_cstr. Qed.

Lemma cstr_id s : Forall (fun c => c ≠ 0) s -> cstr s = s.
Proof.
  intros Hs. unfold cstr. rewrite strlen_no_zero by done.
  rewrite Nat2Z.id. apply firstn_all.
Qed.

(** ** memcpy *)

Lemma aget_memcpy dst pos src from n j :
  0 <= pos -> 0 <= from -> 0 <= n -> 0 <= j ->
  from + n <= Z.of_nat (length src) -> pos + n <= Z.of_nat (length dst) ->
  (memcpy dst pos src from n).[j] =
  if decide (pos <= j < pos + n) then src.[from + (j - pos)] else dst.[j].
Proof.
  intros Hpos Hfrom Hn Hj Hsrc Hdst. unfold memcpy, aget.
  set (chunk := take (Z.to_nat n) (drop (Z.to_nat from) src)).
  assert (length chunk = Z.to_nat n) as Hchunk.
  { subst chunk. rewrite length_take, length_drop. lia. }
  case_decide as Hd.
  - rewrite list_lookup_total_inserts by lia.
    subst chunk. rewrite lookup_total_take, lookup_total_drop.
    case_decide; [|lia]. f_equal. lia.
  - destruct (decide (j < pos)).
    + rewrite list_lookup_total_inserts_lt by lia. done.
    + rewrite list_lookup_total_inserts_ge by lia. done.
Qed.

(** ** The byte layout of a file *)

Lemma NoDup_take_aget_inj (l : list Z) n i j :
  NoDup (take (Z.to_nat n) l) -> (Z.to_nat n <= length l)%nat ->
  0 <= i < n -> 0 <= j < n -> l.[i] = l.[j] -> i = j.
Proof.
  intros Hnd Hn Hi Hj Heq.
  assert (Z.to_nat i = Z.to_nat j); [|lia].
  apply (NoDup_lookup _ _ _ l.[i] Hnd).
  - rewrite lookup_take_lt by lia. apply aget_lookup; lia.
  - rewrite lookup_take_lt by lia. rewrite Heq. apply aget_lookup; lia.
Qed.

Lemma file_stored_block blocks file c :
  file_stored blocks file -> 0 <= c < fe_num_blocks file ->
  0 <= (fe_blocks file).[c] ∧
  (Z.to_nat (fe_blocks file).[c] < length blocks)%nat ∧
  length blocks.[(fe_blocks file).[c]] = Z.to_nat BLOCK_SIZE.
Proof.
  intros (Hnb & Hlen & Hnd & Hin & Hrows) Hc.
  rewrite Forall_forall in Hin.
  destruct (Hin (fe_blocks file).[c]) as [? ?]; [by apply elem_of_take_aget|].
  split; [done|]. split; [done|].
  rewrite Forall_forall in Hrows. apply Hrows.
  apply list_elem_of_lookup. exists (Z.to_nat (fe_blocks file).[c]).
  by apply aget_lookup.
Qed.

Lemma file_stored_aset blocks file bi row :
  file_stored blocks file -> length row = length blocks.[bi] ->
  file_stored (blocks.[bi <- row]) file.
Proof.
  intros (Hnb & Hlen & Hnd & Hin & Hrows) Hrow.
  repeat (split; [done|]). split.
  - eapply Forall_impl; [exact Hin|]. cbn. intros b ?. by rewrite length_aset.
  - by apply Forall_rows_aset.
Qed.

(** One iteration of the write loop, seen through [file_byte]. *)
Lemma file_byte_write_block blocks file data bw cb cp n o :
  file_stored blocks file ->
  0 <= cb < fe_num_blocks file -> 0 <= cp -> 0 <= n -> cp + n <= BLOCK_SIZE ->
  0 <= bw -> bw + n <= Z.of_nat (length data) ->
  0 <= o < fe_num_blocks file * BLOCK_SIZE ->
  let bi := (fe_blocks file).[cb] in
  file_byte (blocks.[bi <- memcpy blocks.[bi] cp data bw n]) file o =
  if decide (cb * BLOCK_SIZE + cp <= o < cb * BLOCK_SIZE + cp + n)
  then data.[bw + (o - (cb * BLOCK_SIZE + cp))]
  else file_byte blocks file o.
Proof.
  intros Hst Hcb Hcp Hn Hfit Hbw Hdata Ho bi.
  destruct (file_stored_block _ _ cb Hst Hcb) as (Hbi0 & Hbi & Hrow). fold bi in Hbi0, Hbi, Hrow.
  destruct Hst as (Hnb & Hlen & Hnd & Hin & Hrows).
  unfold file_byte.
  pose proof (Z.div_mod o BLOCK_SIZE ltac:(zlia)) as Hdm.
  pose proof (Z.mod_pos_bound o BLOCK_SIZE ltac:(zlia)) as Hm.
  assert (0 <= o / BLOCK_SIZE < fe_num_blocks file) as Hq by zlia.
  set (q := o / BLOCK_SIZE) in *. set (m := o mod BLOCK_SIZE) in *.
  destruct (decide (q = cb)) as [->|Hne].
  - fold bi. rewrite aget_aset_eq by done.
    rewrite aget_memcpy by lia.
    repeat case_decide; try lia. f_equal. lia.
  - rewrite aget_aset_ne.
    + case_decide; [|done]. exfalso. unfold_consts. nia.
    + done.
    + rewrite Forall_forall in Hin. apply Hin. by apply elem_of_take_aget.
    + intros Heq. apply Hne. symmetry. by eapply NoDup_take_aget_inj.
Qed.

(** The write loop copies what remains of [data] to the position it
    stands at, and reports all of [data] written. *)
Lemma write_loop_spec file data k : ∀ blocks bw cb cp,
  file_stored blocks file ->
  strlen data < SIZE_MAX1 ->
  0 <= bw <= strlen data -> 0 <= cb -> 0 <= cp < BLOCK_SIZE ->
  strlen data - bw <= Z.max 0 ((fe_num_blocks file - cb) * BLOCK_SIZE - cp) ->
  (Z.to_nat (fe_num_blocks file - cb) <= k)%nat ->
  ∃ blocks',
    write_loop blocks file data (strlen data) bw cb cp k = (blocks', strlen data) ∧
    file_stored blocks' file ∧
    ∀ o, 0 <= o < fe_num_blocks file * BLOCK_SIZE ->
      file_byte blocks' file o =
      if decide (cb * BLOCK_SIZE + cp <= o < cb * BLOCK_SIZE + cp + (strlen data - bw))
      then data.[bw + (o - (cb * BLOCK_SIZE + cp))]
      else file_byte blocks file o.
Proof.
  pose proof (strlen_bounds data) as Hdl.
  induction k as [|k IH]; intros blocks bw cb cp Hst Hmax Hbw Hcb Hcp Hcap Hk.
  - exists blocks. cbn [write_loop].
    assert (bw = strlen data) as -> by zlia.
    split; [done|]. split; [done|]. intros o Ho. case_decide; [lia|done].
  - cbn [write_loop]. cbn zeta.
    destruct (Z.ltb_spec bw (strlen data)) as [Hlt|Hge]; cycle 1.
    { exists blocks. assert (bw = strlen data) as -> by lia. cbn [andb].
      split; [done|]. split; [done|]. intros o Ho. case_decide; [lia|done]. }
    destruct (Z.ltb_spec cb (fe_num_blocks file)) as [Hcb'|Hcb']; [|zlia]. cbn [andb].
    pose proof Hst as (Hnb & _).
    rewrite (wsub_small (strlen data) bw) by zlia.
    rewrite (wadd_small cp) by zlia. rewrite (wadd_small cb 1) by zlia.
    set (n := if cp + (strlen data - bw) >? BLOCK_SIZE
              then wsub BLOCK_SIZE cp else strlen data - bw).
    assert (0 < n ∧ cp + n <= BLOCK_SIZE ∧ n <= strlen data - bw ∧
            (n = strlen data - bw ∨ n = BLOCK_SIZE - cp)) as (Hn0 & Hn1 & Hn2 & Hn3).
    { subst n. destruct (Z.gtb_spec (cp + (strlen data - bw)) BLOCK_SIZE); zlia. }
    clearbody n. rewrite (wadd_small bw n) by zlia.
    set (bi := (fe_blocks file).[cb]).
    destruct (IH (blocks.[bi <- memcpy blocks.[bi] cp data bw n]) (bw + n) (cb + 1) 0)
      as (blocks' & -> & Hst' & Hbytes);
      [apply file_stored_aset; [done|apply length_memcpy] | zlia ..|].
    exists blocks'. split; [done|]. split; [done|]. intros o Ho.
    rewrite Hbytes by done. subst bi.
    rewrite file_byte_write_block by (done || lia).
    repeat case_decide; try zlia; try done. f_equal. lia.
Qed.

(** ** read_file: the loop *)

Lemma file_byte_in_block blocks file cb m :
  0 <= cb -> 0 <= m < BLOCK_SIZE ->
  file_byte blocks file (cb * BLOCK_SIZE + m) = blocks.[(fe_blocks file).[cb]].[m].
Proof.
  intros Hcb Hm. unfold file_byte.
  replace ((cb * BLOCK_SIZE + m) / BLOCK_SIZE) with cb by zlia.
  replace ((cb * BLOCK_SIZE + m) mod BLOCK_SIZE) with m by zlia. done.
Qed.

(** The read loop copies the requested bytes of the file to the front of the
    buffer, and reports all of them read. *)
Lemma read_loop_spec blocks file total k : ∀ buffer br cb cp,
  file_stored blocks file ->
  total < SIZE_MAX1 ->
  0 <= br <= total -> 0 <= cb -> 0 <= cp < BLOCK_SIZE ->
  total - br <= Z.max 0 ((fe_num_blocks file - cb) * BLOCK_SIZE - cp) ->
  total <= Z.of_nat (length buffer) ->
  (Z.to_nat (fe_num_blocks file - cb) <= k)%nat ->
  ∃ buffer',
    read_loop blocks file buffer total br cb cp k = (buffer', total) ∧
    length buffer' = length buffer ∧
    ∀ j, 0 <= j ->
      buffer'.[j] =
      if decide (br <= j < total)
      then file_byte blocks file (cb * BLOCK_SIZE + cp + (j - br))
      else buffer.[j].
Proof.
  induction k as [|k IH]; intros buffer br cb cp Hst Hmax Hbr Hcb Hcp Hcap Hbuf Hk.
  - exists buffer. cbn [read_loop].
    assert (br = total) as -> by zlia.
    split; [done|]. split; [done|]. intros j Hj. case_decide; [lia|done].
  - cbn [read_loop]. cbn zeta.
    destruct (Z.ltb_spec br total) as [Hlt|Hge]; cycle 1.
    { exists buffer. assert (br = total) as -> by lia. cbn [andb].
      split; [done|]. split; [done|]. intros j Hj. case_decide; [lia|done]. }
    destruct (Z.ltb_spec cb (fe_num_blocks file)) as [Hcb'|Hcb']; [|zlia]. cbn [andb].
    pose proof Hst as (Hnb & _).
    rewrite (wsub_small total br) by zlia.
    rewrite (wadd_small cp) by zlia. rewrite (wadd_small cb 1) by zlia.
    set (n := if cp + (total - br) >? BLOCK_SIZE then wsub BLOCK_SIZE cp else total - br).
    assert (0 < n ∧ cp + n <= BLOCK_SIZE ∧ n <= total - br ∧
            (n = total - br ∨ n = BLOCK_SIZE - cp)) as (Hn0 & Hn1 & Hn2 & Hn3).
    { subst n. destruct (Z.gtb_spec (cp + (total - br)) BLOCK_SIZE); zlia. }
    clearbody n. rewrite (wadd_small br n) by zlia.
    set (bi := (fe_blocks file).[cb]).
    destruct (file_stored_block _ _ cb Hst ltac:(lia)) as (Hbi0 & Hbi & Hrow).
    fold bi in Hbi0, Hbi, Hrow.
    destruct (IH (memcpy buffer br blocks.[bi] cp n) (br + n) (cb + 1) 0)
      as (buffer' & -> & Hlen' & Hbytes);
      [done | done | rewrite ?length_memcpy; zlia ..|].
    exists buffer'. rewrite length_memcpy in Hlen'.
    split; [done|]. split; [done|]. intros j Hj.
    rewrite Hbytes by done. rewrite aget_memcpy by zlia.
    repeat case_decide; try zlia; try done.
    + f_equal. lia.
    + subst bi. rewrite <- file_byte_in_block by lia. f_equal. lia.
Qed.

(** ** write_file and read_file on a state that satisfies the invariant *)

Lemma inv_file_stored fs p :
  fs_inv fs -> (p < length (file_table fs))%nat ->
  fe_in_use (file_table fs !!! p) = true ->
  let file := file_table fs !!! p in
  file_stored (fs_blocks fs) file ∧
  0 < fe_size file <= MAX_FILE_SIZE ∧
  fe_size file <= fe_num_blocks file * BLOCK_SIZE.
Proof.
  intros Hinv Hp Hu file.
  destruct (live_entry_facts fs p Hinv Hp Hu)
    as (Hs & Hnb & Hn & Hlen & Ho & Hll & Hnd & Hocc & _ & Hused).
  fold file in Hs, Hnb, Hn, Hlen, Ho, Hll, Hnd, Hocc.
  split; [|split; [done|rewrite Hnb; unfold blocks_for; zlia]].
  split; [lia|]. split; [lia|]. split; [done|]. split; [|apply Hinv].
  eapply Forall_impl; [exact Hocc|]. cbn. intros b [? _].
  rewrite (inv_blocks_len _ Hinv). lia.
Qed.

Lemma write_file_ok fs name p offset data :
  fs_inv fs -> find_file fs name = Some p ->
  0 <= offset -> offset + strlen data <= fe_size (file_table fs !!! p) ->
  let file := file_table fs !!! p in
  ∃ blocks',
    write_file fs (Some name) offset (Some data) =
      (0, [MsgWritten (strlen data) name offset], set_blocks fs blocks') ∧
    file_stored blocks' file ∧
    ∀ o, 0 <= o < fe_num_blocks file * BLOCK_SIZE ->
      file_byte blocks' file o =
      if decide (offset <= o < offset + strlen data)
      then data.[o - offset] else file_byte (fs_blocks fs) file o.
Proof.
  intros Hinv Hfind Hoff Hfit file. fold file in Hfit.
  unfold write_file. rewrite Hfind. fold file.
  apply find_file_Some in Hfind as (Hp & Hu & _).
  destruct (inv_file_stored fs p Hinv Hp Hu) as (Hst & Hs & Hcap). fold file in Hst, Hs, Hcap.
  pose proof (strlen_bounds data) as Hdl.
  destruct (Z.gtb_spec offset (fe_size file)); [lia|].
  rewrite wadd_small by zlia.
  destruct (Z.gtb_spec (offset + strlen data) (fe_size file)); [lia|].
  pose proof Hst as (Hnb & _).
  destruct (write_loop_spec file data (Z.to_nat (fe_num_blocks file)) (fs_blocks fs) 0
              (offset / BLOCK_SIZE) (offset mod BLOCK_SIZE))
    as (blocks' & -> & Hst' & Hbytes); [done|zlia..|].
  exists blocks'. split; [done|]. split; [done|]. intros o Ho.
  rewrite Hbytes by done.
  replace (offset / BLOCK_SIZE * BLOCK_SIZE + offset mod BLOCK_SIZE) with offset by zlia.
  rewrite Z.sub_0_r, Z.add_0_l. done.
Qed.

Lemma aget_file_bytes blocks file offset n j :
  0 <= j < n -> (file_bytes blocks file offset n).[j] = file_byte blocks file (offset + j).
Proof.
  intros Hj. unfold file_bytes, aget. apply list_lookup_total_correct.
  rewrite list_lookup_fmap, lookup_seqZ_lt by lia. cbn. do 2 f_equal. lia.
Qed.

Lemma length_file_bytes blocks file offset n :
  length (file_bytes blocks file offset n) = Z.to_nat n.
Proof. unfold file_bytes. by rewrite length_fmap, length_seqZ. Qed.

(** The buffer after bytes [bytes] were copied to its front and the
    terminator stored behind them. *)
Lemma buffer_terminated (buffer' buffer bytes : list Z) total :
  length buffer' = length buffer ->
  Z.of_nat (length bytes) = total -> total < Z.of_nat (length buffer) ->
  (∀ j, 0 <= j -> buffer'.[j] = if decide (0 <= j < total) then bytes.[j] else buffer.[j]) ->
  buffer'.[total <- 0] = bytes ++ 0 :: drop (S (Z.to_nat total)) buffer.
Proof.
  intros Hlen Hb Htot Hj. apply list_eq. intros i. unfold aset.
  specialize (Hj (Z.of_nat i) ltac:(lia)). unfold aget in Hj. rewrite Nat2Z.id in Hj.
  destruct (decide (i < Z.to_nat total)%nat) as [Hlt|Hge].
  - rewrite list_lookup_insert_ne by lia. rewrite lookup_app_l by lia.
    rewrite !list_lookup_lookup_total_lt by lia. f_equal.
    rewrite Hj. case_decide; [done|lia].
  - rewrite lookup_app_r by lia. replace (length bytes) with (Z.to_nat total) by lia.
    destruct (decide (i = Z.to_nat total)) as [->|Hne].
    + rewrite list_lookup_insert_eq by lia. by rewrite Nat.sub_diag.
    + rewrite list_lookup_insert_ne by lia.
      replace (i - Z.to_nat total)%nat with (S (i - S (Z.to_nat total))) by lia.
      rewrite lookup_cons, lookup_drop.
      replace (S (Z.to_nat total) + (i - S (Z.to_nat total)))%nat with i by lia.
      destruct (decide (i < length buffer)%nat).
      * rewrite !list_lookup_lookup_total_lt by lia. f_equal.
        rewrite Hj. case_decide; [lia|done].
      * rewrite !lookup_ge_None_2 by lia. done.
Qed.

Lemma read_file_ok fs name p offset size buffer :
  fs_inv fs -> find_file fs name = Some p ->
  let file := file_table fs !!! p in
  0 <= offset < fe_size file -> 0 < size -> offset + size < SIZE_MAX1 ->
  let total := Z.min size (fe_size file - offset) in
  total < Z.of_nat (length buffer) ->
  read_file fs (Some name) offset size (Some buffer) =
  (0,
   (if offset + size >? fe_size file then [WarnClamped total size] else [])
   ++ [MsgRead total name offset],
   Some (file_bytes (fs_blocks fs) file offset total
         ++ 0 :: drop (S (Z.to_nat total)) buffer)).
Proof.
  intros Hinv Hfind file Hoff Hsize Hwrap total Hbuf.
  unfold read_file. rewrite Hfind. fold file.
  apply find_file_Some in Hfind as (Hp & Hu & _).
  destruct (inv_file_stored fs p Hinv Hp Hu) as (Hst & Hs & Hcap). fold file in Hst, Hs, Hcap.
  destruct (Z.eqb_spec size 0); [lia|].
  destruct (Z.geb_spec offset (fe_size file)); [lia|].
  rewrite wadd_small by zlia.
  assert ((if offset + size >? fe_size file then wsub (fe_size file) offset else size) = total)
    as ->.
  { subst total. destruct (Z.gtb_spec (offset + size) (fe_size file)); zlia. }
  assert (0 < total <= fe_size file - offset) as Htot by lia. clearbody total.
  pose proof Hst as (Hnb & _).
  destruct (read_loop_spec (fs_blocks fs) file total (Z.to_nat (fe_num_blocks file)) buffer 0
              (offset / BLOCK_SIZE) (offset mod BLOCK_SIZE))
    as (buffer' & -> & Hlen & Hbytes); [done|zlia..|].
  do 2 f_equal. apply buffer_terminated; [done|rewrite length_file_bytes; lia|done|].
  intros j Hj. rewrite Hbytes by done. case_decide; [|done].
  rewrite aget_file_bytes by lia. f_equal. zlia.
Qed.

(** ** The name stored by create_file *)

Lemma strlen_app c z :
  Forall (fun x => x ≠ 0) c -> strlen (c ++ z) = Z.of_nat (length c) + strlen z.
Proof.
  induction 1 as [|x c Hx _ IH]; [done|]. cbn [app strlen length].
  destruct (Z.eqb_spec x 0); [done|]. lia.
Qed.

Lemma cstr_app_zero c r : Forall (fun x => x ≠ 0) c -> cstr (c ++ 0 :: r) = c.
Proof.
  intros Hc. unfold cstr. rewrite strlen_app by done. cbn [strlen Z.eqb].
  rewrite Z.add_0_r, Nat2Z.id. apply take_app_length.
Qed.

Lemma stored_name old name :
  length old = Z.to_nat MAX_FILENAME -> strlen name < MAX_FILENAME ->
  cstr ((strncpy old name (MAX_FILENAME - 1)).[MAX_FILENAME - 1 <- 0]) = cstr name.
Proof.
  intros Hold Hname. pose proof (length_cstr name) as Hc.
  pose proof (strlen_bounds name) as Hb.
  set (c := cstr name) in *. set (m := Z.to_nat (MAX_FILENAME - 1)).
  assert (length old = S m) as Hold' by (subst m; zlia).
  assert (length c <= m)%nat as Hcm by (subst m; zlia).
  unfold strncpy. fold m c.
  rewrite take_app_ge by done. rewrite take_replicate.
  replace ((m - length c) `min` m)%nat with (m - length c)%nat by lia.
  rewrite <- (take_drop m old) at 1.
  rewrite list_inserts_0_r
    by (rewrite length_app, length_replicate, length_take; lia).
  unfold aset. fold m.
  replace m with (length (c ++ replicate (m - length c) 0%Z) + 0)%nat at 1
    by (rewrite length_app, length_replicate; lia).
  rewrite insert_app_r.
  destruct (drop m old) as [|x [|y r]] eqn:Hd;
    apply (f_equal length) in Hd; rewrite length_drop in Hd; cbn in Hd; try lia.
  cbn [insert list_insert]. rewrite <- app_assoc.
  destruct (m - length c)%nat; cbn [replicate app]; apply cstr_app_zero, cstr_no_zero.
Qed.

Lemma find_file_from_insert ft i name p e' :
  find_file_from ft i name = None -> (p < length ft)%nat ->
  fe_in_use e' = true -> streq (fe_filename e') name = true ->
  find_file_from (<[p := e']> ft) i name = Some (i + p)%nat.
Proof.
  revert i p. induction ft as [|e ft IH]; intros i p Hnone Hp Hu Hs; [cbn in Hp; lia|].
  cbn [find_file_from] in Hnone.
  destruct (fe_in_use e && streq (fe_filename e) name) eqn:Hc; [done|].
  destruct p as [|p]; cbn [insert list_insert find_file_from].
  - rewrite Hu, Hs. cbn. f_equal. lia.
  - rewrite Hc. rewrite IH; [f_equal; lia|done| |done..]. cbn in Hp. lia.
Qed.

Lemma find_file_created fs p name size l :
  fs_inv fs -> find_file fs name = None ->
  free_slot_from (file_table fs) 0 = Some p ->
  strlen name < MAX_FILENAME ->
  find_file (created fs p name size l) name = Some p.
Proof.
  intros Hinv Hnone Hslot Hname.
  apply free_slot_from_Some in Hslot as [Hp _].
  unfold find_file, created. cbv zeta. cbn [file_table].
  rewrite find_file_from_insert; [done|done|lia|done|].
  cbn [create_entry set_entry_blocks fe_filename]. unfold streq.
  rewrite stored_name; [by apply bool_decide_eq_true|..|done].
  pose proof (inv_entries _ Hinv) as Hok. rewrite Forall_forall in Hok.
  destruct (Hok (file_table fs !!! p)) as (? & _); [|done].
  apply list_elem_of_lookup. exists p. apply list_lookup_lookup_total_lt. lia.
Qed.

(** ** Equal arrays; the example states are reachable *)

Lemma list_eq_aget {A} `{Inhabited A} (l1 l2 : list A) :
  length l1 = length l2 ->
  (∀ j, 0 <= j < Z.of_nat (length l1) -> l1.[j] = l2.[j]) -> l1 = l2.
Proof.
  intros Hlen Hj. apply list_eq. intros i.
  destruct (decide (i < length l1)%nat).
  - rewrite !list_lookup_lookup_total_lt by lia. f_equal.
    specialize (Hj (Z.of_nat i) ltac:(lia)). unfold aget in Hj. by rewrite Nat2Z.id in Hj.
  - rewrite !lookup_ge_None_2 by lia. done.
Qed.

Lemma find_file_set_blocks fs blocks name :
  find_file (set_blocks fs blocks) name = find_file fs name.
Proof. done. Qed.

Lemma reachable_fs_f10 : reachable fs_f10.
Proof.
  apply (reach_step fs_init (Create (Some name_f) 10)); [apply reach_init|].
  cbn [call_ok]. zlia.
Qed.

Lemma reachable_fs_fragmented : reachable fs_fragmented.
Proof.
  unfold fs_fragmented, run. cbn [foldl].
  do 6 (apply reach_step; [|cbn [call_ok]; try done; zlia]). apply reach_init.
Qed.

Lemma reachable_fs_f10_written : reachable fs_f10_written.
Proof.
  apply (reach_step fs_f10 (Write (Some name_f) 0 (Some [104; 105])));
    [apply reachable_fs_f10|].
  cbn [call_ok]. zlia.
Qed.

(** ** The counters *)

(** C2: in every reachable state the cached counters agree with a recount:
    the block counts of the live entries sum to the number of occupied
    entries of [block_map], which is [used_blocks]; [num_files] is the number
    of live entries; [total_storage] is the sum of their sizes. *)
Theorem C2_counters_agree fs :
  reachable fs ->
  live_blocks (file_table fs) = count_occupied (block_map fs) ∧
  count_occupied (block_map fs) = used_blocks fs ∧
  num_files fs = live_files (file_table fs) ∧
  total_storage fs = live_bytes (file_table fs).
Proof.
  intros Hinv%reachable_inv.
  rewrite (inv_live_blocks _ Hinv), <- (inv_used _ Hinv).
  split; [done|]. split; [done|]. split; apply Hinv.
Qed.

Lemma C2_counters_agree_witness :
  live_blocks (file_table fs_fragmented) = count_occupied (block_map fs_fragmented) ∧
  count_occupied (block_map fs_fragmented) = used_blocks fs_fragmented ∧
  num_files fs_fragmented = live_files (file_table fs_fragmented) ∧
  total_storage fs_fragmented = live_bytes (file_table fs_fragmented).
Proof. apply (C2_counters_agree fs_fragmented). apply reachable_fs_fragmented. Defined.

(** ** Disjoint block lists *)

Lemma elem_of_all_owned ft p b :
  (p < length ft)%nat -> b ∈ owned_blocks (ft !!! p) -> b ∈ all_owned ft.
Proof.
  intros Hp Hb. apply list_elem_of_bind. exists (ft !!! p). split; [done|].
  apply list_elem_of_lookup. exists p. by apply list_lookup_lookup_total_lt.
Qed.

Lemma owned_disjoint_lt ft p q b :
  NoDup (all_owned ft) -> (p < q)%nat -> (q < length ft)%nat ->
  b ∈ owned_blocks (ft !!! p) -> b ∉ owned_blocks (ft !!! q).
Proof.
  intros Hnd Hpq Hq Hp Hb.
  rewrite (all_owned_split ft p) in Hnd by lia.
  apply NoDup_app in Hnd as (_ & _ & Hnd). apply NoDup_app in Hnd as (_ & Hdisj & _).
  apply (Hdisj b Hp).
  replace (ft !!! q) with (drop (S p) ft !!! (q - S p)%nat) in Hb
    by (rewrite lookup_total_drop; f_equal; lia).
  apply (elem_of_all_owned _ (q - S p)); [|done]. rewrite length_drop. lia.
Qed.

Lemma inv_blocks_disjoint fs : fs_inv fs -> blocks_disjoint fs ∧ blocks_occupied fs.
Proof.
  intros Hinv. split.
  - intros p q b Hp Hq Hne Hb Hb'. pose proof (inv_owned_nodup _ Hinv) as Hnd.
    destruct (decide (p < q)%nat).
    + by apply (owned_disjoint_lt _ p q b Hnd).
    + apply (owned_disjoint_lt _ q p b Hnd); [lia|done..].
  - intros p b Hp Hb. pose proof (inv_owned_occupied _ Hinv) as Hocc.
    rewrite Forall_forall in Hocc. apply Hocc. by apply (elem_of_all_owned _ p).
Qed.

(** C3: in every reachable state no block index is in the block lists of two
    distinct live entries, every listed block is marked occupied, and every
    call leads to a state where this holds again. *)
Theorem C3_blocks_disjoint fs :
  reachable fs ->
  (blocks_disjoint fs ∧ blocks_occupied fs) ∧
  ∀ c, call_ok c -> blocks_disjoint (step fs c) ∧ blocks_occupied (step fs c).
Proof.
  intros Hreach. split.
  - by apply inv_blocks_disjoint, reachable_inv.
  - intros c Hc. apply inv_blocks_disjoint, reachable_inv. by apply reach_step.
Qed.

Lemma C3_blocks_disjoint_witness :
  (blocks_disjoint fs_fragmented ∧ blocks_occupied fs_fragmented) ∧
  ∀ c, call_ok c ->
    blocks_disjoint (step fs_fragmented c) ∧ blocks_occupied (step fs_fragmented c).
Proof. apply (C3_blocks_disjoint fs_fragmented). apply reachable_fs_fragmented. Defined.

(** ** What allocate_blocks returns *)

(** C4: when the counter agrees with the block map and at least [n] blocks
    are free, [allocate_blocks] returns [n] and fills the first [n] cells of
    the list with the first run of [n] consecutive free blocks if there is
    one, and with the first [n] free blocks in ascending order otherwise; it
    marks exactly these blocks occupied. *)
Theorem C4_allocate_blocks fs n block_list :
  length (block_map fs) = Z.to_nat MAX_BLOCKS ->
  used_blocks fs = count_occupied (block_map fs) ->
  0 < n <= MAX_BLOCKS ->
  n <= MAX_BLOCKS - used_blocks fs ->
  (Z.to_nat n <= length block_list)%nat ->
  ∃ l,
    (allocate_blocks fs n block_list).1.1 = n ∧
    take (Z.to_nat n) (allocate_blocks fs n block_list).2 = l ∧
    Z.of_nat (length l) = n ∧
    alloc_choice (block_map fs) n l ∧
    block_map (allocate_blocks fs n block_list).1.2 = mark (block_map fs) l true ∧
    used_blocks (allocate_blocks fs n block_list).1.2 = used_blocks fs + n.
Proof.
  intros Hlen Hused Hn Hfree Hroom.
  destruct (allocate_blocks_ok fs n block_list Hlen Hused Hn ltac:(lia))
    as (l & -> & Hl & Hchoice).
  exists l. cbn [fst snd set_alloc block_map used_blocks].
  repeat (split; [done|]). split; [|done].
  rewrite <- (take_drop (length l) block_list) at 1.
  rewrite list_inserts_0_r by (rewrite length_take; lia).
  apply take_app_length'. lia.
Qed.

Lemma C4_allocate_blocks_witness :
  ∃ l,
    (allocate_blocks fs_fragmented 2 [9; 9; 9]).1.1 = 2 ∧
    take 2 (allocate_blocks fs_fragmented 2 [9; 9; 9]).2 = l ∧
    Z.of_nat (length l) = 2 ∧
    alloc_choice (block_map fs_fragmented) 2 l ∧
    block_map (allocate_blocks fs_fragmented 2 [9; 9; 9]).1.2
    = mark (block_map fs_fragmented) l true ∧
    used_blocks (allocate_blocks fs_fragmented 2 [9; 9; 9]).1.2
    = used_blocks fs_fragmented + 2.
Proof.
  apply (C4_allocate_blocks fs_fragmented 2 [9; 9; 9]).
  - vm_compute. reflexivity.
  - vm_compute. reflexivity.
  - rewrite MAX_BLOCKS_eq. lia.
  - apply Z.leb_le. vm_compute. reflexivity.
  - cbn. lia.
Defined.

(** The scenario of the fragmented pool: the two blocks come from the
    scattered fallback. *)
Example allocate_fragmented :
  (allocate_blocks fs_fragmented 2 [9; 9; 9]).1.1 = 2 ∧
  (allocate_blocks fs_fragmented 2 [9; 9; 9]).2 = [0; 2; 9] ∧
  search_sequence (block_map fs_fragmented) 2 0 (Z.to_nat MAX_BLOCKS) = None.
Proof. split; [|split]; vm_compute; reflexivity. Qed.

(** ** The boundary checks of write_file and read_file *)

(** C5 (amended): for an existing file of size [S], [write_file] with data
    fails with [InvalidArgument] exactly when [O > S], and a write of the
    empty string at [O = S] succeeds and changes nothing; [read_file] with a
    buffer and a size other than zero fails with [InvalidArgument] exactly
    when [O >= S]; a read of size zero fails with it at every offset. *)
Theorem C5_boundary_checks fs name p :
  reachable fs -> find_file fs name = Some p ->
  let size_f := fe_size (file_table fs !!! p) in
  (∀ O data,
     fails_with InvalidArgument (write_file fs (Some name) O (Some data)).1 ↔ O > size_f) ∧
  write_file fs (Some name) size_f (Some []) = (0, [MsgWritten 0 name size_f], fs) ∧
  (∀ O size buffer, size ≠ 0 ->
     fails_with InvalidArgument (read_file fs (Some name) O size (Some buffer)).1
     ↔ O >= size_f) ∧
  (∀ O buffer, fails_with InvalidArgument (read_file fs (Some name) O 0 (Some buffer)).1).
Proof.
  intros Hreach Hfind size_f. pose proof (reachable_inv _ Hreach) as Hinv.
  pose proof (find_file_Some _ _ _ Hfind) as (Hp & Hu & _).
  destruct (inv_file_stored fs p Hinv Hp Hu) as (_ & Hs & _). fold size_f in Hs.
  split; [|split; [|split]].
  - intros O data. unfold write_file, fails_with. rewrite Hfind. fold size_f.
    destruct (Z.gtb_spec O size_f) as [Hgt|Hle]; cbn [fst snd].
    + split; [lia|done].
    + split; [|lia]. destruct (wadd O (strlen data) >? size_f); cbn [fst snd].
      * by intros [_ ?].
      * destruct (write_loop _ _ _ _ _ _ _ _). by intros [? _].
  - unfold write_file. rewrite Hfind. fold size_f.
    destruct (Z.gtb_spec size_f size_f); [lia|]. cbn [strlen].
    rewrite wadd_small by zlia. rewrite Z.add_0_r.
    destruct (Z.gtb_spec size_f size_f); [lia|].
    destruct (Z.to_nat _); cbn [write_loop Z.ltb andb]; by destruct fs.
  - intros O size buffer Hsize. unfold read_file, fails_with. rewrite Hfind. fold size_f.
    destruct (Z.eqb_spec size 0); [done|].
    destruct (Z.geb_spec O size_f) as [Hge|Hlt]; cbn [fst snd].
    + split; [lia|done].
    + split; [|lia]. destruct (read_loop _ _ _ _ _ _ _ _). by intros [? _].
  - intros O buffer. by unfold read_file, fails_with.
Qed.

Lemma C5_boundary_checks_witness :
  let size_f := fe_size (file_table fs_f10 !!! 0%nat) in
  (∀ O data,
     fails_with InvalidArgument (write_file fs_f10 (Some name_f) O (Some data)).1
     ↔ O > size_f) ∧
  write_file fs_f10 (Some name_f) size_f (Some []) = (0, [MsgWritten 0 name_f size_f], fs_f10) ∧
  (∀ O size buffer, size ≠ 0 ->
     fails_with InvalidArgument (read_file fs_f10 (Some name_f) O size (Some buffer)).1
     ↔ O >= size_f) ∧
  (∀ O buffer, fails_with InvalidArgument (read_file fs_f10 (Some name_f) O 0 (Some buffer)).1).
Proof.
  apply (C5_boundary_checks fs_f10 name_f 0); [apply reachable_fs_f10|].
  vm_compute. reflexivity.
Defined.

(** C5 as stated fails for a read of size zero and for a write without
    data: both fail with [InvalidArgument] at offset 0 of a file of ten
    bytes, inside the file. *)
Lemma C5_counterexample :
  find_file fs_f10 name_f = Some 0%nat ∧
  fe_size (file_table fs_f10 !!! 0%nat) = 10 ∧
  fails_with InvalidArgument (read_file fs_f10 (Some name_f) 0 0 (Some [7; 7; 7; 7])).1 ∧
  fails_with InvalidArgument (write_file fs_f10 (Some name_f) 0 None).1 ∧
  ¬ 0 >= 10.
Proof.
  split; [vm_compute; reflexivity|]. split; [vm_compute; reflexivity|].
  split; [split; vm_compute; reflexivity|]. split; [split; vm_compute; reflexivity|lia].
Qed.

(** ** What write_file and read_file return *)

Lemma write_file_success fs filename offset data :
  (write_file fs filename offset (Some data)).1.1 = 0 ->
  ∃ name p, filename = Some name ∧ find_file fs name = Some p ∧
    offset <= fe_size (file_table fs !!! p) ∧
    wadd offset (strlen data) <= fe_size (file_table fs !!! p).
Proof.
  unfold write_file. destruct filename as [name|]; [|done].
  destruct (find_file fs name) as [p|] eqn:Hfind; [|done].
  destruct (Z.gtb_spec offset (fe_size (file_table fs !!! p))); [done|].
  destruct (Z.gtb_spec (wadd offset (strlen data)) (fe_size (file_table fs !!! p))); [done|].
  intros _. by exists name, p.
Qed.

(** C7 (amended): a successful [write_file] returns the status [0]; the
    number of bytes written is reported in the line it prints, not in the
    returned value, and equals [strlen(data)]. *)
Theorem C7_write_result fs filename offset data :
  reachable fs -> is_size_t offset -> strlen data <= PTRDIFF_MAX ->
  (write_file fs filename offset (Some data)).1.1 = 0 ->
  ∃ name, filename = Some name ∧
    (write_file fs filename offset (Some data)).1 =
    (0, [MsgWritten (strlen data) name offset]).
Proof.
  intros Hinv%reachable_inv Hoff Hdata Hret.
  destruct (write_file_success _ _ _ _ Hret) as (name & p & -> & Hfind & Hle & Hfit).
  exists name. split; [done|].
  pose proof (strlen_bounds data).
  pose proof (find_file_Some _ _ _ Hfind) as (Hp & Hu & _).
  destruct (inv_file_stored fs p Hinv Hp Hu) as (_ & Hs & _).
  rewrite wadd_small in Hfit by (unfold PTRDIFF_MAX in *; zlia).
  destruct (write_file_ok fs name p offset data Hinv Hfind ltac:(zlia) Hfit)
    as (blocks' & -> & _). done.
Qed.

Lemma C7_write_result_witness :
  ∃ name, Some name_f = Some name ∧
    (write_file fs_f10 (Some name_f) 0 (Some [97; 98; 99])).1 =
    (0, [MsgWritten (strlen [97; 98; 99]) name 0]).
Proof.
  apply (C7_write_result fs_f10 (Some name_f) 0 [97; 98; 99]).
  - apply reachable_fs_f10.
  - unfold is_size_t, SIZE_MAX1. lia.
  - apply Z.leb_le. vm_compute. reflexivity.
  - vm_compute. reflexivity.
Defined.

(** C7 as stated fails: writing the three bytes ["abc"] succeeds and the
    value returned is [0], not [3]. *)
Lemma C7_counterexample :
  (write_file fs_f10 (Some name_f) 0 (Some [97; 98; 99])).1 =
    (0, [MsgWritten 3 name_f 0]) ∧
  strlen [97; 98; 99] = 3 ∧
  (write_file fs_f10 (Some name_f) 0 (Some [97; 98; 99])).1.1 ≠ strlen [97; 98; 99].
Proof.
  split; [vm_compute; reflexivity|]. split; [vm_compute; reflexivity|].
  vm_compute. discriminate.
Qed.

(** C8 (amended): a read at [O < S] that asks for more than [S - O] bytes,
    with [O + size] below [2^64], returns the status [0], copies exactly the
    [S - O] bytes of the file from [O] on to the front of the buffer and
    stores a zero byte behind them; the count [S - O] is reported in the lines
    printed, not in the returned value. *)
Theorem C8_clamped_read fs name p offset size buffer :
  reachable fs -> find_file fs name = Some p ->
  let file := file_table fs !!! p in
  0 <= offset < fe_size file ->
  fe_size file - offset < size -> offset + size < SIZE_MAX1 ->
  fe_size file - offset < Z.of_nat (length buffer) ->
  read_file fs (Some name) offset size (Some buffer) =
  (0,
   [WarnClamped (fe_size file - offset) size; MsgRead (fe_size file - offset) name offset],
   Some (file_bytes (fs_blocks fs) file offset (fe_size file - offset)
         ++ 0 :: drop (S (Z.to_nat (fe_size file - offset))) buffer)).
Proof.
  intros Hinv%reachable_inv Hfind file Hoff Hsize Hwrap Hbuf.
  rewrite (read_file_ok fs name p offset size buffer Hinv Hfind); fold file;
    [|done|lia|done|lia].
  replace (size `min` (fe_size file - offset)) with (fe_size file - offset) by lia.
  destruct (Z.gtb_spec (offset + size) (fe_size file)); [done|lia].
Qed.

Lemma C8_clamped_read_witness :
  let file := file_table fs_f10 !!! 0%nat in
  read_file fs_f10 (Some name_f) 5 100 (Some [7; 7; 7; 7; 7; 7; 7; 7]) =
  (0,
   [WarnClamped (fe_size file - 5) 100; MsgRead (fe_size file - 5) name_f 5],
   Some (file_bytes (fs_blocks fs_f10) file 5 (fe_size file - 5)
         ++ 0 :: drop (S (Z.to_nat (fe_size file - 5))) [7; 7; 7; 7; 7; 7; 7; 7])).
Proof.
  apply (C8_clamped_read fs_f10 name_f 0 5 100 [7; 7; 7; 7; 7; 7; 7; 7]).
  - apply reachable_fs_f10.
  - vm_compute. reflexivity.
  - split; [lia|]. apply Z.ltb_lt. vm_compute. reflexivity.
  - apply Z.ltb_lt. vm_compute. reflexivity.
  - unfold SIZE_MAX1. lia.
  - apply Z.ltb_lt. vm_compute. reflexivity.
Defined.

(** C8 as stated fails.  Two clamped reads of a fresh file that produce five
    and three bytes return the same value and leave the same buffer, so the
    result does not tell the count; the end of the data in the buffer is the
    zero byte stored behind it; and a request whose [offset + size] wraps is
    not clamped: 424 bytes are produced where [S - O] is 400. *)
Lemma C8_counterexample :
  let r5 := read_file fs_f10 (Some name_f) 5 100 (Some [0; 0; 0; 0; 0; 0; 0; 0]) in
  let r3 := read_file fs_f10 (Some name_f) 7 100 (Some [0; 0; 0; 0; 0; 0; 0; 0]) in
  (r5.1.1 = r3.1.1 ∧ r5.2 = r3.2 ∧
   r5.1.2 = [WarnClamped 5 100; MsgRead 5 name_f 5] ∧
   r3.1.2 = [WarnClamped 3 100; MsgRead 3 name_f 7])
  ∧ (read_file fs_f10 (Some name_f) 5 100 (Some [7; 7; 7; 7; 7; 7; 7; 7])).2
    = Some [0; 0; 0; 0; 0; 0; 7; 7]
  ∧ (read_file fs_g1000 (Some name_g) 600 (SIZE_MAX1 - 600) (Some (replicate 500 7))).1
    = (0, [MsgRead 424 name_g 600]).
Proof.
  split; [|split].
  - split; [vm_compute; reflexivity|]. split; [vm_compute; reflexivity|].
    split; vm_compute; reflexivity.
  - vm_compute. reflexivity.
  - vm_compute. reflexivity.
Qed.

(** ** Failing calls *)

Lemma mark_undo (bm : list bool) l :
  Forall (fun b => 0 <= b ∧ (Z.to_nat b < length bm)%nat ∧ bm.[b] = false) l ->
  mark (mark bm l true) l false = bm.
Proof.
  intros Hl. apply list_eq_aget; [by rewrite !length_mark|]. intros j Hj.
  destruct (decide (j ∈ l)) as [Hin|Hnin].
  - rewrite aget_mark_in; [|eapply Forall_impl; [exact Hl|]; cbn; intros x (? & ? & _);
                             by rewrite length_mark|done].
    rewrite Forall_forall in Hl. by destruct (Hl j Hin) as (_ & _ & ->).
  - assert (Forall (fun x => 0 <= x) l) as Hpos
      by (eapply Forall_impl; [exact Hl|]; cbn; tauto).
    rewrite !aget_mark_notin by (done || lia). done.
Qed.

(** When [create_file] gives up after a partial allocation, the blocks the
    allocator had marked are free again and the counters are as before. *)
Lemma create_file_rollback fs filename size :
  under_counted fs -> is_size_t size ->
  (create_file fs filename size).1.2 = [ErrAllocation] ->
  let fs' := (create_file fs filename size).2 in
  block_map fs' = block_map fs ∧ used_blocks fs' = used_blocks fs ∧
  num_files fs' = num_files fs ∧ total_storage fs' = total_storage fs.
Proof.
  intros (Hlen & Hused & Hshape) Hsize. unfold create_file.
  destruct filename as [name|]; [|done].
  destruct (Z.eqb_spec (strlen name) 0); [done|].
  destruct (Z.eqb_spec size 0); [done|].
  destruct (Z.gtb_spec size MAX_FILE_SIZE); [done|].
  destruct (find_file fs name); [done|].
  destruct (Z.geb_spec (num_files fs) MAX_FILES); [done|].
  assert (0 < size <= MAX_FILE_SIZE) as Hs by zlia.
  replace (wsub (wadd size BLOCK_SIZE) 1 / BLOCK_SIZE) with (blocks_for size)
    by (unfold blocks_for; zlia).
  pose proof (blocks_for_bounds _ Hs) as Hn.
  pose proof (count_occupied_bounds (block_map fs)) as Hc. rewrite Hlen in Hc.
  destruct (wadd (used_blocks fs) (blocks_for size) >? MAX_BLOCKS) eqn:Hroom; [done|].
  destruct (free_slot_from (file_table fs) 0) as [p|] eqn:Hslot; [|done].
  apply free_slot_from_Some in Hslot as [Hp _].
  assert (length (fe_blocks (file_table fs !!! p)) = Z.to_nat MAX_BLOCKS) as Hbl.
  { rewrite Forall_forall in Hshape. apply Hshape. apply list_elem_of_lookup.
    exists p. apply list_lookup_lookup_total_lt. lia. }
  unfold allocate_into, allocate_blocks. rewrite Hroom.
  destruct (Z.eqb_spec (blocks_for size) 0); [lia|].
  destruct (Z.gtb_spec (blocks_for size) MAX_BLOCKS); [lia|]. cbn [orb].
  destruct (search_sequence _ _ _ _).
  { rewrite assign_sequence_eq by done. by rewrite Z.ltb_irrefl. }
  rewrite scatter_eq by zlia. cbn zeta.
  set (l := take _ (free_list _ _ _)).
  assert (NoDup l ∧ Forall (fun b => 0 <= b < MAX_BLOCKS ∧ (block_map fs).[b] = false) l)
    as [Hnd Hfree].
  { subst l. split.
    - eapply sublist_NoDup; [|apply sublist_take]. apply NoDup_filter, NoDup_seqZ.
    - apply Forall_take, Forall_forall. intros b Hb.
      apply list_elem_of_filter in Hb as [? Hb%elem_of_seqZ]. split; [zlia|done]. }
  assert (Z.of_nat (length l) <= blocks_for size) as Hll
    by (subst l; rewrite length_take; lia).
  clearbody l. rewrite Z.add_0_l. change (Z.to_nat 0) with 0%nat.
  cbn [set_file_table set_alloc fs_blocks block_map file_table num_files
       used_blocks total_storage].
  rewrite list_lookup_total_insert_eq by lia. cbn [set_entry_blocks fe_blocks].
  destruct (Z.ltb_spec (Z.of_nat (length l)) (blocks_for size)); [|done].
  intros _. cbn [snd].
  destruct (Z.gtb_spec (Z.of_nat (length l)) 0) as [Hpos|Hzero].
  - unfold free_blocks.
    cbn [set_file_table set_alloc fs_blocks block_map file_table num_files
         used_blocks total_storage].
    assert (take (Z.to_nat (Z.of_nat (length l)))
                 (list_inserts 0 l (fe_blocks (file_table fs !!! p))) = l) as Htake.
    { rewrite Nat2Z.id.
      rewrite <- (take_drop (length l) (fe_blocks (file_table fs !!! p))).
      rewrite list_inserts_0_r by (rewrite length_take; lia).
      apply take_app_length. }
    rewrite free_loop_eq; change (Z.to_nat 0) with 0%nat; rewrite ?drop_0, ?Htake;
      [|lia|rewrite length_inserts; lia|done| |zlia].
    + cbn [fs_blocks block_map file_table num_files used_blocks total_storage].
      split; [|split; [lia|done]]. apply mark_undo.
      eapply Forall_impl; [exact Hfree|]. cbn. intros b [? ?]. split; [lia|].
      split; [lia|done].
    + apply Forall_forall. intros b Hb. rewrite Forall_forall in Hfree.
      destruct (Hfree b Hb) as [? ?]. rewrite length_mark. split; [done|]. split; [lia|].
      apply aget_mark_in; [|done]. apply Forall_forall. intros x Hx.
      destruct (Hfree x Hx). lia.
  - destruct l; [|cbn in Hzero; lia].
    cbn [set_file_table set_alloc fs_blocks block_map file_table num_files
         used_blocks total_storage mark foldl length].
    split; [done|]. split; [lia|done].
Qed.

Lemma write_file_failure fs filename offset data :
  (write_file fs filename offset data).1.1 = -1 ->
  (write_file fs filename offset data).2 = fs.
Proof.
  unfold write_file. destruct filename as [name|]; [|done].
  destruct data as [data|]; [|done].
  destruct (find_file fs name); [|done].
  destruct (offset >? _); [done|]. destruct (wadd _ _ >? _); [done|].
  by destruct (write_loop _ _ _ _ _ _ _ _).
Qed.

Lemma read_file_failure fs filename offset size buffer :
  (read_file fs filename offset size buffer).1.1 = -1 ->
  (read_file fs filename offset size buffer).2 = buffer.
Proof.
  unfold read_file. destruct filename as [name|]; [|done].
  destruct buffer as [buf|]; [|done].
  destruct (size =? 0); [done|]. destruct (find_file fs name); [|done].
  destruct (offset >=? _); [done|].
  by destruct (read_loop _ _ _ _ _ _ _ _).
Qed.

Lemma delete_file_failure fs filename :
  (delete_file fs filename).1.1 = -1 -> (delete_file fs filename).2 = fs.
Proof.
  unfold delete_file. destruct filename as [name|]; [|done].
  by destruct (find_file fs name).
Qed.

Lemma create_file_failure fs filename size :
  fs_inv fs -> is_size_t size ->
  (create_file fs filename size).1.1 = -1 -> (create_file fs filename size).2 = fs.
Proof.
  intros Hinv Hsize. destruct filename as [name|]; [|done].
  destruct (create_file_cases fs name size Hinv Hsize)
    as [[_ ->]|(p & l & _ & _ & _ & _ & _ & _ & ->)]; done.
Qed.

(** C6: in a reachable state a call that fails leaves the state exactly as
    it was ([read_file], which does not write to the state, leaves the
    buffer as it was); and in any state whose counter under-counts, a
    [create_file] that gives up after a partial allocation has returned the
    blocks it had marked and restored the counters. *)
Theorem C6_failure_leaves_state fs :
  reachable fs ->
  (∀ filename size, is_size_t size ->
     (create_file fs filename size).1.1 = -1 -> (create_file fs filename size).2 = fs) ∧
  (∀ filename offset data,
     (write_file fs filename offset data).1.1 = -1 ->
     (write_file fs filename offset data).2 = fs) ∧
  (∀ filename offset size buffer,
     (read_file fs filename offset size buffer).1.1 = -1 ->
     (read_file fs filename offset size buffer).2 = buffer) ∧
  (∀ filename,
     (delete_file fs filename).1.1 = -1 -> (delete_file fs filename).2 = fs) ∧
  (∀ fs0 filename size, under_counted fs0 -> is_size_t size ->
     (create_file fs0 filename size).1.2 = [ErrAllocation] ->
     block_map (create_file fs0 filename size).2 = block_map fs0 ∧
     used_blocks (create_file fs0 filename size).2 = used_blocks fs0 ∧
     num_files (create_file fs0 filename size).2 = num_files fs0 ∧
     total_storage (create_file fs0 filename size).2 = total_storage fs0).
Proof.
  intros Hinv%reachable_inv.
  split; [|split; [|split; [|split]]].
  - intros filename size. by apply create_file_failure.
  - apply write_file_failure.
  - apply read_file_failure.
  - apply delete_file_failure.
  - intros fs0 filename size. apply create_file_rollback.
Qed.

Lemma file_table_set_alloc fs bm used : file_table (set_alloc fs bm used) = file_table fs.
Proof. done. Qed.

Lemma C6_failure_leaves_state_witness :
  (create_file fs_f10 (Some name_f) 20).2 = fs_f10 ∧
  (write_file fs_f10 (Some name_f) 11 (Some [97])).2 = fs_f10 ∧
  (delete_file fs_f10 (Some name_g)).2 = fs_f10 ∧
  block_map (create_file fs_under (Some name_g) 2000).2 = block_map fs_under.
Proof.
  destruct (C6_failure_leaves_state fs_f10 reachable_fs_f10)
    as (Hcreate & Hwrite & _ & Hdelete & Hrollback).
  split; [|split; [|split]].
  - apply Hcreate; [unfold is_size_t, SIZE_MAX1; lia|]. vm_compute. reflexivity.
  - apply Hwrite. vm_compute. reflexivity.
  - apply Hdelete. vm_compute. reflexivity.
  - apply Hrollback.
    + split; [vm_compute; reflexivity|]. split.
      * split; [vm_compute; discriminate|]. apply Z.leb_le. vm_compute. reflexivity.
      * unfold fs_under. rewrite file_table_set_alloc.
        apply Forall_forall. intros e He.
        pose proof (inv_entries _ (reachable_inv _ reachable_fs_fragmented)) as Hok.
        rewrite Forall_forall in Hok. by destruct (Hok e He) as (_ & ? & _).
    + unfold is_size_t, SIZE_MAX1. lia.
    + vm_compute. reflexivity.
Defined.

(** ** Blocks that are free hold zeros *)

Lemma free_blocks_clears fs n block_list b :
  (Z.to_nat MAX_BLOCKS <= length (block_map fs))%nat ->
  (Z.to_nat MAX_BLOCKS <= length (fs_blocks fs))%nat ->
  Forall (fun x => 0 <= x) block_list ->
  (Z.to_nat n <= length block_list)%nat ->
  b ∈ take (Z.to_nat n) block_list -> b < MAX_BLOCKS -> (block_map fs).[b] = true ->
  (fs_blocks (free_blocks fs n block_list)).[b] = zero_block ∧
  (block_map (free_blocks fs n block_list)).[b] = false.
Proof.
  intros Hbm Hblocks Hpos Hn Hin Hb Ht. unfold free_blocks.
  pose proof (free_loop_clears (fs_blocks fs) (block_map fs) (used_blocks fs) block_list
                0 (Z.to_nat n) b) as Hloop.
  destruct (free_loop _ _ _ _ _ _) as [[blocks' bm'] used'].
  cbn [fs_blocks block_map]. destruct Hloop; [lia|cbn; lia|done..|]. done.
Qed.

Lemma created_file_zero fs p name size l o :
  fs_inv fs -> 0 < size <= MAX_FILE_SIZE ->
  free_slot_from (file_table fs) 0 = Some p ->
  Z.of_nat (length l) = blocks_for size ->
  alloc_choice (block_map fs) (blocks_for size) l ->
  0 <= o < blocks_for size * BLOCK_SIZE ->
  file_byte (fs_blocks (created fs p name size l))
            (file_table (created fs p name size l) !!! p) o = 0.
Proof.
  intros Hinv Hs Hslot Hl Hchoice Ho.
  pose proof (blocks_for_bounds _ Hs) as Hn.
  apply free_slot_from_Some in Hslot as [Hp _].
  destruct (alloc_choice_free _ _ _ (proj1 Hn) Hchoice) as [_ Hfree].
  assert (entry_ok (file_table fs !!! p)) as (_ & Hblocks & _).
  { pose proof (inv_entries _ Hinv) as Hok. rewrite Forall_forall in Hok. apply Hok.
    apply list_elem_of_lookup. exists p. apply list_lookup_lookup_total_lt. lia. }
  unfold created. cbv zeta. cbn [file_table fs_blocks].
  rewrite list_lookup_total_insert_eq by lia.
  set (e' := create_entry _ _ _ _).
  pose proof (owned_blocks_create_entry (file_table fs !!! p) name size l Hblocks Hs Hl)
    as Howned. fold e' in Howned.
  unfold owned_blocks in Howned. cbn [e' create_entry fe_in_use fe_num_blocks] in Howned.
  unfold file_byte.
  assert ((fe_blocks e').[o / BLOCK_SIZE] ∈ l) as Hin.
  { rewrite <- Howned. apply elem_of_take_aget; [zlia|].
    cbn [e' create_entry set_entry_blocks fe_blocks]. rewrite length_inserts. lia. }
  rewrite Forall_forall in Hfree. destruct (Hfree _ Hin) as [Hrange Hf].
  rewrite (inv_free_zero _ Hinv) by done.
  apply aget_replicate. zlia.
Qed.

(** ** write_file and the zero byte *)

Lemma write_chunk_bounds data_len bw cp :
  data_len < SIZE_MAX1 -> 0 <= bw <= data_len -> 0 <= cp < BLOCK_SIZE ->
  let n := if wadd cp (wsub data_len bw) >? BLOCK_SIZE
           then wsub BLOCK_SIZE cp else wsub data_len bw in
  0 <= n <= data_len - bw ∧ wadd bw n = bw + n.
Proof.
  intros Hmax Hbw Hcp. cbn zeta.
  destruct (Z.gtb_spec (wadd cp (wsub data_len bw)) BLOCK_SIZE); zlia.
Qed.

Lemma memcpy_prefix dst pos pre z from n :
  0 <= from -> 0 <= n -> from + n <= Z.of_nat (length pre) ->
  memcpy dst pos (pre ++ z) from n = memcpy dst pos pre from n.
Proof.
  intros Hfrom Hn Hfit. unfold memcpy. f_equal.
  rewrite drop_app_le by lia. rewrite take_app_le by (rewrite length_drop; lia). done.
Qed.

(** The loop reads [data] only below [data_len]. *)
Lemma write_loop_prefix file pre z k : ∀ blocks bw cb cp,
  Z.of_nat (length pre) < SIZE_MAX1 -> 0 <= bw <= Z.of_nat (length pre) ->
  0 <= cp < BLOCK_SIZE ->
  write_loop blocks file (pre ++ z) (Z.of_nat (length pre)) bw cb cp k =
  write_loop blocks file pre (Z.of_nat (length pre)) bw cb cp k.
Proof.
  induction k as [|k IH]; intros blocks bw cb cp Hmax Hbw Hcp; [done|].
  cbn [write_loop]. cbn zeta.
  destruct ((bw <? _) && (cb <? _)); [|done].
  destruct (write_chunk_bounds _ bw cp Hmax Hbw Hcp) as [Hn Hadd]. cbn zeta in Hn, Hadd.
  set (n := if wadd cp _ >? _ then _ else _) in *. clearbody n.
  rewrite memcpy_prefix by lia. rewrite Hadd. apply IH; [done|lia|zlia].
Qed.

Lemma memcpy_cases dst pos src from n j :
  0 <= from ->
  (memcpy dst pos src from n).[j] = dst.[j] ∨
  ∃ t, from <= t < from + n ∧ (memcpy dst pos src from n).[j] = src.[t].
Proof.
  intros Hfrom. unfold memcpy, aget.
  set (chunk := take (Z.to_nat n) (drop (Z.to_nat from) src)).
  assert (length chunk <= Z.to_nat n ∧ length chunk <= length src - Z.to_nat from)%nat
    as [Hc1 Hc2] by (subst chunk; rewrite length_take, length_drop; lia).
  destruct (decide (Z.to_nat j < Z.to_nat pos)%nat).
  { left. by apply list_lookup_total_inserts_lt. }
  destruct (decide (Z.to_nat pos + length chunk <= Z.to_nat j)%nat).
  { left. by apply list_lookup_total_inserts_ge. }
  destruct (decide (Z.to_nat j < length dst)%nat).
  - right. exists (from + Z.of_nat (Z.to_nat j - Z.to_nat pos)). split; [lia|].
    rewrite list_lookup_total_inserts by lia.
    subst chunk. rewrite lookup_total_take, lookup_total_drop.
    case_decide; [|lia]. f_equal. lia.
  - left. rewrite !list_lookup_total_alt.
    rewrite !lookup_ge_None_2; [done|lia|rewrite length_inserts; lia].
Qed.

Lemma aget_aset_cases {A} `{Inhabited A} (l : list A) i j v :
  l.[i <- v].[j] = l.[j] ∨ (l.[i <- v].[j] = v ∧ l.[j] = l.[i]).
Proof.
  unfold aget, aset. rewrite list_lookup_total_insert.
  case_decide as Hd; [|by left]. right. destruct Hd as [-> _]. done.
Qed.

(** Every byte the loop changes becomes a byte other than zero. *)
Lemma write_loop_nonzero file data k b i : ∀ blocks bw cb cp,
  strlen data < SIZE_MAX1 -> 0 <= bw <= strlen data -> 0 <= cp < BLOCK_SIZE ->
  let blocks' := (write_loop blocks file data (strlen data) bw cb cp k).1 in
  blocks'.[b].[i] = blocks.[b].[i] ∨ blocks'.[b].[i] ≠ 0.
Proof.
  induction k as [|k IH]; intros blocks bw cb cp Hmax Hbw Hcp; cbn zeta; [by left|].
  cbn [write_loop]. cbn zeta.
  destruct ((bw <? _) && (cb <? _)); [|by left].
  destruct (write_chunk_bounds _ bw cp Hmax Hbw Hcp) as [Hn Hadd]. cbn zeta in Hn, Hadd.
  set (n := if wadd cp _ >? _ then _ else _) in *. clearbody n.
  rewrite Hadd. set (bi := (fe_blocks file).[cb]).
  set (row := memcpy _ _ _ _ _).
  destruct (IH (blocks.[bi <- row]) (bw + n) (wadd cb 1) 0 Hmax ltac:(lia) ltac:(zlia))
    as [Heq|Hnz]; [|by right].
  rewrite Heq.
  destruct (aget_aset_cases blocks bi b row) as [->|[-> ->]]; [by left|].
  subst row.
  destruct (memcpy_cases blocks.[bi] cp data bw n i) as [->|(t & Ht & ->)];
    [lia|by left|]. right. apply strlen_nonzero. lia.
Qed.

Lemma write_file_nonzero fs filename offset data b i :
  strlen data < SIZE_MAX1 ->
  (fs_blocks (write_file fs filename offset (Some data)).2).[b].[i] ≠ (fs_blocks fs).[b].[i] ->
  (fs_blocks (write_file fs filename offset (Some data)).2).[b].[i] ≠ 0.
Proof.
  intros Hmax. unfold write_file. destruct filename as [name|]; [|done].
  destruct (find_file fs name) as [p|]; [|done].
  destruct (offset >? _); [done|]. destruct (wadd _ _ >? _); [done|].
  pose proof (strlen_bounds data) as Hdl.
  pose proof (write_loop_nonzero (file_table fs !!! p) data
                (Z.to_nat (fe_num_blocks (file_table fs !!! p))) b i (fs_blocks fs) 0
                (offset / BLOCK_SIZE) (offset mod BLOCK_SIZE) Hmax ltac:(lia) ltac:(zlia))
    as Hloop.
  destruct (write_loop _ _ _ _ _ _ _ _) as [blocks' bw'].
  cbn zeta in Hloop. cbn [fst snd set_blocks fs_blocks] in *.
  destruct Hloop as [->|?]; done.
Qed.

(** C10: [write_file] takes the length of its data from [strlen].  When the
    data holds a zero byte, its length is the number of bytes before the
    first zero, and the call does exactly what it does on those bytes alone.
    When they fit an existing file, in a reachable state, the call succeeds
    and prints that number; the bytes before the zero are stored from
    [offset] on, and every other byte position of the file keeps its byte:
    the zero byte and what follows it in the data are not stored.  Whatever
    the data, every byte of the store that a call changes becomes a byte
    other than zero. *)
Theorem C10_write_stops_at_zero fs filename offset pre rest :
  Forall (fun c => c ≠ 0) pre -> Z.of_nat (length pre) < SIZE_MAX1 ->
  strlen (pre ++ 0 :: rest) = Z.of_nat (length pre) ∧
  write_file fs filename offset (Some (pre ++ 0 :: rest)) =
  write_file fs filename offset (Some pre) ∧
  (∀ name p,
     reachable fs -> filename = Some name -> find_file fs name = Some p ->
     0 <= offset -> offset + Z.of_nat (length pre) <= fe_size (file_table fs !!! p) ->
     let file := file_table fs !!! p in
     let w := write_file fs filename offset (Some (pre ++ 0 :: rest)) in
     w.1 = (0, [MsgWritten (Z.of_nat (length pre)) name offset]) ∧
     ∀ o, 0 <= o < fe_num_blocks file * BLOCK_SIZE ->
          file_byte (fs_blocks w.2) file o =
          if decide (offset <= o < offset + Z.of_nat (length pre))
          then pre.[o - offset] else file_byte (fs_blocks fs) file o) ∧
  ∀ data b i, strlen data < SIZE_MAX1 ->
    (fs_blocks (write_file fs filename offset (Some data)).2).[b].[i] ≠ (fs_blocks fs).[b].[i] ->
    (fs_blocks (write_file fs filename offset (Some data)).2).[b].[i] ≠ 0.
Proof.
  intros Hpre Hmax.
  assert (strlen (pre ++ 0 :: rest) = Z.of_nat (length pre)) as Hlen
    by (rewrite strlen_app by done; cbn [strlen Z.eqb]; lia).
  assert (write_file fs filename offset (Some (pre ++ 0 :: rest)) =
          write_file fs filename offset (Some pre)) as Hsame.
  { unfold write_file. destruct filename as [name|]; [|done].
    destruct (find_file fs name) as [p|]; [|done].
    rewrite Hlen, (strlen_no_zero pre Hpre).
    destruct (offset >? _); [done|]. destruct (wadd _ _ >? _); [done|].
    rewrite write_loop_prefix; [done|done|lia|zlia]. }
  split; [done|]. split; [done|]. split; [|intros data b i; apply write_file_nonzero].
  intros name p Hreach -> Hfind Hoff Hfit. cbv zeta. rewrite Hsame.
  pose proof (reachable_inv _ Hreach) as Hinv.
  pose proof (strlen_no_zero pre Hpre) as Hlen'.
  destruct (write_file_ok fs name p offset pre Hinv Hfind Hoff) as (blocks' & Hw & _ & Hbytes).
  { by rewrite Hlen'. }
  rewrite Hw, Hlen'. cbn [fst snd set_blocks fs_blocks]. split; [done|].
  intros o Ho. rewrite Hbytes by done. by rewrite Hlen'.
Qed.

Lemma C10_write_stops_at_zero_witness :
  let file := file_table fs_f10_written !!! 0%nat in
  let w := write_file fs_f10_written (Some name_f) 0 (Some ([97] ++ 0 :: [98])) in
  strlen ([97] ++ 0 :: [98]) = Z.of_nat (length [97]) ∧
  w = write_file fs_f10_written (Some name_f) 0 (Some [97]) ∧
  w.1 = (0, [MsgWritten (Z.of_nat (length [97])) name_f 0]) ∧
  (∀ o, 0 <= o < fe_num_blocks file * BLOCK_SIZE ->
        file_byte (fs_blocks w.2) file o =
        if decide (0 <= o < 0 + Z.of_nat (length [97]))
        then [97].[o - 0] else file_byte (fs_blocks fs_f10_written) file o) ∧
  file_bytes (fs_blocks fs_f10_written) file 0 3 = [104; 105; 0] ∧
  file_bytes (fs_blocks w.2) file 0 3 = [97; 105; 0].
Proof.
  cbv zeta.
  destruct (C10_write_stops_at_zero fs_f10_written (Some name_f) 0 [97] [98])
    as (Hlen & Hsame & Hfit & _).
  - repeat constructor. discriminate.
  - unfold SIZE_MAX1. cbn. lia.
  - destruct (Hfit name_f 0%nat) as [Hres Hbytes].
    + apply reachable_fs_f10_written.
    + reflexivity.
    + vm_compute. reflexivity.
    + lia.
    + apply Z.leb_le. vm_compute. reflexivity.
    + split; [done|]. split; [done|]. split; [done|]. split; [done|].
      split; vm_compute; reflexivity.
Defined.

(** ** The bound on the iterations of the two [while] loops is enough *)

Lemma write_loop_fuel file data data_len k : ∀ k' blocks bw cb cp,
  0 <= cb -> fe_num_blocks file < SIZE_MAX1 ->
  (Z.to_nat (fe_num_blocks file - cb) <= k)%nat -> (k <= k')%nat ->
  write_loop blocks file data data_len bw cb cp k' =
  write_loop blocks file data data_len bw cb cp k.
Proof.
  induction k as [|k IH]; intros k' blocks bw cb cp Hcb Hnb Hk Hk'.
  - destruct k' as [|k']; [done|]. cbn [write_loop].
    destruct (Z.ltb_spec cb (fe_num_blocks file)); [lia|]. by rewrite andb_false_r.
  - destruct k' as [|k']; [lia|]. cbn [write_loop]. cbn zeta.
    destruct (Z.ltb_spec cb (fe_num_blocks file)); [|by rewrite andb_false_r].
    destruct (bw <? data_len); [|done]. cbn [andb].
    rewrite (wadd_small cb 1) by zlia. apply IH; lia.
Qed.

Lemma read_loop_fuel blocks file total k : ∀ k' buffer br cb cp,
  0 <= cb -> fe_num_blocks file < SIZE_MAX1 ->
  (Z.to_nat (fe_num_blocks file - cb) <= k)%nat -> (k <= k')%nat ->
  read_loop blocks file buffer total br cb cp k' =
  read_loop blocks file buffer total br cb cp k.
Proof.
  induction k as [|k IH]; intros k' buffer br cb cp Hcb Hnb Hk Hk'.
  - destruct k' as [|k']; [done|]. cbn [read_loop].
    destruct (Z.ltb_spec cb (fe_num_blocks file)); [lia|]. by rewrite andb_false_r.
  - destruct k' as [|k']; [lia|]. cbn [read_loop]. cbn zeta.
    destruct (Z.ltb_spec cb (fe_num_blocks file)); [|by rewrite andb_false_r].
    destruct (br <? total); [|done]. cbn [andb].
    rewrite (wadd_small cb 1) by zlia. apply IH; lia.
Qed.

(** * Further properties *)

(** ** find_file returns the first match *)

Lemma find_file_from_first ft filename : ∀ i,
  match find_file_from ft i filename with
  | Some p =>
      (i <= p < i + length ft)%nat ∧ matches ft filename (p - i) ∧
      ∀ q, (q < p - i)%nat -> ¬ matches ft filename q
  | None => ∀ q, (q < length ft)%nat -> ¬ matches ft filename q
  end.
Proof.
  unfold matches. induction ft as [|e ft IH]; intros i; cbn [find_file_from length].
  - intros q Hq. lia.
  - destruct (fe_in_use e && streq (fe_filename e) filename) eqn:Ht.
    + apply andb_true_iff in Ht as [Hu Hs]. apply bool_decide_eq_true in Hs.
      replace (i - i)%nat with 0%nat by lia. cbn.
      split; [lia|]. split; [done|]. intros q Hq. lia.
    + assert (Hno : ¬ (fe_in_use e = true ∧ cstr (fe_filename e) = cstr filename)).
      { intros [Hu Hs]. rewrite Hu in Ht. cbn in Ht.
        unfold streq in Ht. apply bool_decide_eq_false in Ht. done. }
      specialize (IH (S i)). destruct (find_file_from ft (S i) filename) as [p|].
      * destruct IH as (Hp & Hm & Hfirst).
        replace (p - i)%nat with (S (p - S i)) by lia. cbn.
        split; [lia|]. split; [done|].
        intros [|q] Hq; cbn; [done|]. apply Hfirst. lia.
      * intros [|q] Hq; cbn; [done|]. apply IH. lia.
Qed.

(** X1 ([find_file]).  The slot returned is the first one, in table order,
    that holds a live entry whose stored name equals the name looked up as a
    C string; the result is [NULL] exactly when no slot of the table holds
    such an entry. *)
Theorem X1_find_file_first fs filename :
  match find_file fs filename with
  | Some p =>
      (p < length (file_table fs))%nat ∧ matches (file_table fs) filename p ∧
      ∀ q, (q < p)%nat -> ¬ matches (file_table fs) filename q
  | None =>
      ∀ q, (q < length (file_table fs))%nat -> ¬ matches (file_table fs) filename q
  end.
Proof.
  unfold find_file. pose proof (find_file_from_first (file_table fs) filename 0%nat) as H.
  destruct (find_file_from (file_table fs) 0 filename) as [p|]; [|done].
  rewrite Nat.sub_0_r in H. destruct H as (Hp & Hm & Hfirst). split; [lia|]. done.
Qed.

Lemma X1_find_file_first_witness :
  match find_file fs_fragmented [100] with
  | Some p =>
      (p < length (file_table fs_fragmented))%nat ∧
      matches (file_table fs_fragmented) [100] p ∧
      ∀ q, (q < p)%nat -> ¬ matches (file_table fs_fragmented) [100] q
  | None =>
      ∀ q, (q < length (file_table fs_fragmented))%nat ->
           ¬ matches (file_table fs_fragmented) [100] q
  end.
Proof. apply (X1_find_file_first fs_fragmented [100]). Defined.

(** ** The slot create_file takes *)

Lemma free_slot_from_first ft : ∀ i,
  match free_slot_from ft i with
  | Some p =>
      (i <= p < i + length ft)%nat ∧ fe_in_use (ft !!! (p - i)%nat) = false ∧
      ∀ q, (q < p - i)%nat -> fe_in_use (ft !!! q) = true
  | None => live_files ft = Z.of_nat (length ft)
  end.
Proof.
  unfold live_files.
  induction ft as [|e ft IH]; intros i; cbn [free_slot_from length sum_in_use]; [done|].
  destruct (fe_in_use e) eqn:Hu; cbn [negb].
  - specialize (IH (S i)). destruct (free_slot_from ft (S i)) as [p|]; [|lia].
    destruct IH as (Hp & Hfree & Hfirst).
    replace (p - i)%nat with (S (p - S i)) by lia. cbn.
    split; [lia|]. split; [done|]. intros [|q] Hq; cbn; [done|]. apply Hfirst. lia.
  - replace (i - i)%nat with 0%nat by lia. cbn. split; [lia|]. split; [done|]. lia.
Qed.

Lemma free_slot_lowest fs p :
  free_slot_from (file_table fs) 0 = Some p ->
  (p < length (file_table fs))%nat ∧ fe_in_use (file_table fs !!! p) = false ∧
  ∀ q, (q < p)%nat -> fe_in_use (file_table fs !!! q) = true.
Proof.
  intros Hslot. pose proof (free_slot_from_first (file_table fs) 0) as H.
  rewrite Hslot, Nat.sub_0_r in H. destruct H as (? & ? & ?). split; [lia|done].
Qed.

(** ** The name create_file stores *)

Lemma stored_name_take old name :
  length old = Z.to_nat MAX_FILENAME ->
  cstr ((strncpy old name (MAX_FILENAME - 1)).[MAX_FILENAME - 1 <- 0]) =
  take (Z.to_nat (MAX_FILENAME - 1)) (cstr name).
Proof.
  intros Hold. set (m := Z.to_nat (MAX_FILENAME - 1)).
  set (c := take m (cstr name)).
  assert (length old = S m) as Hold' by (subst m; zlia).
  assert (length c <= m)%nat as Hcm by (subst c; rewrite length_take; lia).
  assert (Forall (fun x => x ≠ 0) c) as Hnz by (apply Forall_take, cstr_no_zero).
  assert (take m (cstr name ++ replicate m 0) = c ++ replicate (m - length c) 0) as Htake.
  { subst c. destruct (decide (length (cstr name) <= m)%nat) as [Hle|Hgt].
    - rewrite take_app_ge by done. rewrite take_replicate, (take_ge (cstr name)) by done.
      do 2 f_equal. lia.
    - rewrite take_app_le by lia. rewrite length_take.
      replace (m - m `min` length (cstr name))%nat with 0%nat by lia.
      cbn. by rewrite app_nil_r. }
  unfold strncpy. fold m. rewrite Htake.
  rewrite <- (take_drop m old) at 1.
  rewrite list_inserts_0_r
    by (rewrite length_app, length_replicate, length_take; lia).
  unfold aset. fold m.
  replace m with (length (c ++ replicate (m - length c) 0%Z) + 0)%nat at 1
    by (rewrite length_app, length_replicate; lia).
  rewrite insert_app_r.
  destruct (drop m old) as [|x [|y r]] eqn:Hd;
    apply (f_equal length) in Hd; rewrite length_drop in Hd; cbn in Hd; try lia.
  cbn [insert list_insert]. rewrite <- app_assoc.
  destruct (m - length c)%nat; cbn [replicate app]; by apply cstr_app_zero.
Qed.

(** ** find_file after one slot of the table changed *)

Lemma find_file_from_insert_other ft name e' : ∀ i p,
  fe_in_use (ft !!! p) = false ->
  ¬ (fe_in_use e' = true ∧ cstr (fe_filename e') = cstr name) ->
  find_file_from (<[p := e']> ft) i name = find_file_from ft i name.
Proof.
  induction ft as [|e ft IH]; intros i p Hfree Hno; [done|].
  destruct p as [|p]; cbn [insert list_insert find_file_from].
  - cbn in Hfree. rewrite Hfree. cbn [andb].
    destruct (fe_in_use e' && streq (fe_filename e') name) eqn:Ht; [|done].
    apply andb_true_iff in Ht as [Hu Hs]. apply bool_decide_eq_true in Hs. by destruct Hno.
  - cbn in Hfree. by rewrite IH.
Qed.

Lemma find_file_from_insert_free ft name e' : ∀ i p,
  fe_in_use e' = false ->
  find_file_from ft i name ≠ Some (i + p)%nat ->
  find_file_from (<[p := e']> ft) i name = find_file_from ft i name.
Proof.
  induction ft as [|e ft IH]; intros i p Hfree Hne; [done|].
  destruct p as [|p]; cbn [insert list_insert find_file_from] in *.
  - rewrite Hfree. cbn [andb].
    destruct (fe_in_use e && streq (fe_filename e) name); [|done].
    by rewrite Nat.add_0_r in Hne.
  - destruct (fe_in_use e && streq (fe_filename e) name); [done|].
    apply IH; [done|]. by replace (S i + p)%nat with (i + S p)%nat by lia.
Qed.

Lemma entry_lengths fs p :
  fs_inv fs -> (p < length (file_table fs))%nat ->
  length (fe_filename (file_table fs !!! p)) = Z.to_nat MAX_FILENAME ∧
  length (fe_blocks (file_table fs !!! p)) = Z.to_nat MAX_BLOCKS ∧
  Forall (fun b => 0 <= b) (fe_blocks (file_table fs !!! p)).
Proof.
  intros Hinv Hp. pose proof (inv_entries _ Hinv) as Hok. rewrite Forall_forall in Hok.
  destruct (Hok (file_table fs !!! p)) as (? & ? & ? & _); [|done].
  apply list_elem_of_lookup. exists p. by apply list_lookup_lookup_total_lt.
Qed.

(** ** When create_file succeeds *)

Lemma create_file_succeeds fs name size :
  fs_inv fs -> is_size_t size ->
  ((create_file fs (Some name) size).1.1 = 0 ↔
   strlen name ≠ 0 ∧ 0 < size <= MAX_FILE_SIZE ∧ find_file fs name = None ∧
   num_files fs < MAX_FILES ∧ used_blocks fs + blocks_for size <= MAX_BLOCKS) ∧
  (create_file fs (Some name) size).1.2 ≠ [ErrTableFull] ∧
  (create_file fs (Some name) size).1.2 ≠ [ErrAllocation].
Proof.
  intros Hinv Hsize. unfold create_file.
  destruct (Z.eqb_spec (strlen name) 0);
    [cbn [fst snd]; split; [split; [lia|tauto]|done]|].
  destruct (Z.eqb_spec size 0);
    [cbn [fst snd]; split; [split; [lia|intros (? & ? & _); lia]|done]|].
  destruct (Z.gtb_spec size MAX_FILE_SIZE);
    [cbn [fst snd]; split; [split; [lia|intros (? & ? & _); lia]|done]|].
  destruct (find_file fs name) eqn:Hfind;
    [cbn [fst snd]; split; [split; [lia|intros (? & ? & ? & _); done]|done]|].
  destruct (Z.geb_spec (num_files fs) MAX_FILES);
    [cbn [fst snd]; split; [split; [lia|intros (? & ? & ? & ? & _); lia]|done]|].
  assert (0 < size <= MAX_FILE_SIZE) as Hs by zlia.
  replace (wsub (wadd size BLOCK_SIZE) 1 / BLOCK_SIZE) with (blocks_for size)
    by (unfold blocks_for; zlia).
  pose proof (blocks_for_bounds _ Hs) as Hn.
  pose proof (count_occupied_bounds (block_map fs)) as Hc.
  rewrite <- (inv_used _ Hinv), (inv_map_len _ Hinv) in Hc.
  rewrite wadd_small by zlia.
  destruct (Z.gtb_spec (used_blocks fs + blocks_for size) MAX_BLOCKS);
    [cbn [fst snd]; split; [split; [lia|intros (? & ? & ? & ? & ?); lia]|done]|].
  pose proof (free_slot_from_first (file_table fs) 0) as Hslot.
  destruct (free_slot_from (file_table fs) 0) as [p|].
  2: { rewrite <- (inv_num_files _ Hinv), (inv_table_len _ Hinv) in Hslot. zlia. }
  unfold allocate_into.
  destruct (allocate_blocks_ok fs (blocks_for size) (fe_blocks (file_table fs !!! p)))
    as (l & -> & Hl & Hchoice);
    [apply Hinv | apply Hinv | lia | lia |].
  rewrite Z.ltb_irrefl. cbn [fst snd]. split; [|done]. split; [|done].
  intros _. repeat split; try done; lia.
Qed.

(** X2 ([create_file]).  In every reachable state a call with a non-NULL
    name succeeds exactly when the name is not empty, the size is between
    1 and MAX_FILE_SIZE, no live entry has the name, fewer than MAX_FILES
    files exist and the blocks of the file fit beside the used ones; the two
    later failures of the function, no free slot and an allocation that comes
    up short, do not occur. *)
Theorem X2_create_file_succeeds_iff fs name size :
  reachable fs -> is_size_t size ->
  ((create_file fs (Some name) size).1.1 = 0 ↔
   strlen name ≠ 0 ∧ 0 < size <= MAX_FILE_SIZE ∧ find_file fs name = None ∧
   num_files fs < MAX_FILES ∧ used_blocks fs + blocks_for size <= MAX_BLOCKS) ∧
  (create_file fs (Some name) size).1.2 ≠ [ErrTableFull] ∧
  (create_file fs (Some name) size).1.2 ≠ [ErrAllocation].
Proof.
  intros Hreach Hsize. apply create_file_succeeds; [by apply reachable_inv|done].
Qed.

Lemma X2_create_file_succeeds_iff_witness :
  ((create_file fs_f10 (Some name_g) 1000).1.1 = 0 ↔
   strlen name_g ≠ 0 ∧ 0 < 1000 <= MAX_FILE_SIZE ∧ find_file fs_f10 name_g = None ∧
   num_files fs_f10 < MAX_FILES ∧ used_blocks fs_f10 + blocks_for 1000 <= MAX_BLOCKS) ∧
  (create_file fs_f10 (Some name_g) 1000).1.2 ≠ [ErrTableFull] ∧
  (create_file fs_f10 (Some name_g) 1000).1.2 ≠ [ErrAllocation].
Proof. apply X2_create_file_succeeds_iff; [apply reachable_fs_f10|zlia]. Defined.

(** ** The state after a successful create_file *)

Lemma create_file_created fs name size :
  fs_inv fs -> is_size_t size -> (create_file fs (Some name) size).1.1 = 0 ->
  ∃ p l,
    strlen name ≠ 0 ∧ 0 < size <= MAX_FILE_SIZE ∧ find_file fs name = None ∧
    free_slot_from (file_table fs) 0 = Some p ∧
    Z.of_nat (length l) = blocks_for size ∧
    alloc_choice (block_map fs) (blocks_for size) l ∧
    (create_file fs (Some name) size).2 = created fs p name size l.
Proof.
  intros Hinv Hsize Hret.
  destruct (create_file_cases fs name size Hinv Hsize)
    as [[Hfail _]|(p & l & H1 & H2 & H3 & H4 & H5 & H6 & Heq)]; [lia|].
  exists p, l. rewrite Heq. done.
Qed.

Lemma owned_blocks_created fs p name size l :
  fs_inv fs -> (p < length (file_table fs))%nat ->
  Z.of_nat (length l) = blocks_for size -> 0 < size <= MAX_FILE_SIZE ->
  owned_blocks (file_table (created fs p name size l) !!! p) = l.
Proof.
  intros Hinv Hp Hl Hs. unfold created. cbv zeta. cbn [file_table].
  rewrite list_lookup_total_insert_eq by done.
  unfold owned_blocks. cbn [create_entry set_entry_blocks fe_in_use fe_num_blocks fe_blocks].
  destruct (entry_lengths fs p Hinv Hp) as (_ & Hlen & _).
  pose proof (blocks_for_bounds _ Hs) as Hn.
  rewrite <- (take_drop (length l) (fe_blocks (file_table fs !!! p))).
  rewrite list_inserts_0_r by (rewrite length_take; zlia).
  rewrite <- Hl, Nat2Z.id. by rewrite take_app_length.
Qed.

(** X3 ([create_file]).  A successful call in a reachable state takes the
    lowest free slot of the table.  The new entry is live and holds the size,
    the block count ceil(size / BLOCK_SIZE) and the first MAX_FILENAME - 1
    characters of the name; its blocks were free before the call and are the
    only entries of the block map that change; no other entry and no stored
    byte changes, and the three counters grow by one file, the blocks of the
    file and its size. *)
Theorem X3_create_file_entry fs name size :
  reachable fs -> is_size_t size ->
  (create_file fs (Some name) size).1.1 = 0 ->
  let fs' := (create_file fs (Some name) size).2 in
  ∃ p, (p < length (file_table fs))%nat ∧
    fe_in_use (file_table fs !!! p) = false ∧
    (∀ q, (q < p)%nat -> fe_in_use (file_table fs !!! q) = true) ∧
    fe_in_use (file_table fs' !!! p) = true ∧
    cstr (fe_filename (file_table fs' !!! p)) =
      take (Z.to_nat (MAX_FILENAME - 1)) (cstr name) ∧
    fe_size (file_table fs' !!! p) = size ∧
    fe_num_blocks (file_table fs' !!! p) = blocks_for size ∧
    (∀ q, q ≠ p -> file_table fs' !!! q = file_table fs !!! q) ∧
    (∀ b, b ∈ owned_blocks (file_table fs' !!! p) ->
          0 <= b < MAX_BLOCKS ∧ (block_map fs).[b] = false) ∧
    (∀ b, 0 <= b -> b ∉ owned_blocks (file_table fs' !!! p) ->
          (block_map fs').[b] = (block_map fs).[b]) ∧
    fs_blocks fs' = fs_blocks fs ∧
    num_files fs' = num_files fs + 1 ∧
    used_blocks fs' = used_blocks fs + blocks_for size ∧
    total_storage fs' = total_storage fs + size.
Proof.
  intros Hreach Hsize Hret. pose proof (reachable_inv _ Hreach) as Hinv. cbv zeta.
  destruct (create_file_created fs name size Hinv Hsize Hret)
    as (p & l & Hname & Hs & Hnone & Hslot & Hl & Hchoice & ->).
  destruct (free_slot_lowest fs p Hslot) as (Hp & Hfree & Hfirst).
  pose proof (blocks_for_bounds _ Hs) as Hn.
  destruct (alloc_choice_free _ _ _ (proj1 Hn) Hchoice) as [Hnodup Hlfree].
  exists p. rewrite owned_blocks_created by done.
  split; [done|]. split; [done|]. split; [done|].
  unfold created. cbv zeta.
  cbn [file_table fs_blocks block_map num_files used_blocks total_storage].
  rewrite list_lookup_total_insert_eq by done.
  cbn [create_entry set_entry_blocks fe_in_use fe_filename fe_size fe_num_blocks].
  split; [done|]. split.
  { apply stored_name_take. by destruct (entry_lengths fs p Hinv Hp). }
  split; [done|]. split; [done|]. split.
  { intros q Hq. by rewrite list_lookup_total_insert_ne. }
  split.
  { intros b Hb. rewrite Forall_forall in Hlfree. by apply Hlfree. }
  split; [|done].
  intros b Hb Hnotin. apply aget_mark_notin; [done| |done].
  eapply Forall_impl; [apply Hlfree|]. cbn. intros; lia.
Qed.

Lemma X3_create_file_entry_witness :
  let fs' := (create_file fs_f10 (Some name_g) 1000).2 in
  ∃ p, (p < length (file_table fs_f10))%nat ∧
    fe_in_use (file_table fs_f10 !!! p) = false ∧
    (∀ q, (q < p)%nat -> fe_in_use (file_table fs_f10 !!! q) = true) ∧
    fe_in_use (file_table fs' !!! p) = true ∧
    cstr (fe_filename (file_table fs' !!! p)) =
      take (Z.to_nat (MAX_FILENAME - 1)) (cstr name_g) ∧
    fe_size (file_table fs' !!! p) = 1000 ∧
    fe_num_blocks (file_table fs' !!! p) = blocks_for 1000 ∧
    (∀ q, q ≠ p -> file_table fs' !!! q = file_table fs_f10 !!! q) ∧
    (∀ b, b ∈ owned_blocks (file_table fs' !!! p) ->
          0 <= b < MAX_BLOCKS ∧ (block_map fs_f10).[b] = false) ∧
    (∀ b, 0 <= b -> b ∉ owned_blocks (file_table fs' !!! p) ->
          (block_map fs').[b] = (block_map fs_f10).[b]) ∧
    fs_blocks fs' = fs_blocks fs_f10 ∧
    num_files fs' = num_files fs_f10 + 1 ∧
    used_blocks fs' = used_blocks fs_f10 + blocks_for 1000 ∧
    total_storage fs' = total_storage fs_f10 + 1000.
Proof.
  apply X3_create_file_entry; [apply reachable_fs_f10|zlia|vm_compute; reflexivity].
Defined.

(** ** Looking names up after create_file *)

(** X4 ([create_file], [find_file]).  After a successful call in a reachable
    state, a name other than the stored one (the first MAX_FILENAME - 1
    characters of the name created) is looked up with the same result as
    before.  The name created is found in the slot taken when it is shorter
    than MAX_FILENAME characters, and is not found at all when it is
    longer, since the stored name is the truncated one. *)
Theorem X4_create_file_lookup fs name size :
  reachable fs -> is_size_t size ->
  (create_file fs (Some name) size).1.1 = 0 ->
  let fs' := (create_file fs (Some name) size).2 in
  (∀ name', cstr name' ≠ take (Z.to_nat (MAX_FILENAME - 1)) (cstr name) ->
            find_file fs' name' = find_file fs name') ∧
  (strlen name < MAX_FILENAME ->
   find_file fs' name = free_slot_from (file_table fs) 0) ∧
  (MAX_FILENAME <= strlen name -> find_file fs' name = None).
Proof.
  intros Hreach Hsize Hret. pose proof (reachable_inv _ Hreach) as Hinv. cbv zeta.
  destruct (create_file_created fs name size Hinv Hsize Hret)
    as (p & l & Hname & Hs & Hnone & Hslot & Hl & Hchoice & ->).
  destruct (free_slot_lowest fs p Hslot) as (Hp & Hfree & Hfirst).
  destruct (entry_lengths fs p Hinv Hp) as (Hflen & _).
  assert (Hother : ∀ name',
    cstr name' ≠ take (Z.to_nat (MAX_FILENAME - 1)) (cstr name) ->
    find_file (created fs p name size l) name' = find_file fs name').
  { intros name' Hne. unfold find_file, created. cbv zeta. cbn [file_table].
    apply find_file_from_insert_other; [done|].
    cbn [create_entry set_entry_blocks fe_filename]. rewrite stored_name_take by done.
    intros [_ Heq]. by rewrite Heq in Hne. }
  split; [done|]. split.
  - intros Hshort. rewrite Hslot. by apply find_file_created.
  - intros Hlong. rewrite Hother; [done|].
    intros Heq. apply (f_equal length) in Heq. rewrite length_take in Heq.
    pose proof (length_cstr name). zlia.
Qed.

Lemma X4_create_file_lookup_witness :
  let fs' := (create_file fs_f10 (Some name_g) 1000).2 in
  (∀ name', cstr name' ≠ take (Z.to_nat (MAX_FILENAME - 1)) (cstr name_g) ->
            find_file fs' name' = find_file fs_f10 name') ∧
  (strlen name_g < MAX_FILENAME ->
   find_file fs' name_g = free_slot_from (file_table fs_f10) 0) ∧
  (MAX_FILENAME <= strlen name_g -> find_file fs' name_g = None).
Proof.
  apply X4_create_file_lookup; [apply reachable_fs_f10|zlia|vm_compute; reflexivity].
Defined.

(** ** delete_file and the other files *)

Lemma file_block_owned fs q o :
  fs_inv fs -> (q < length (file_table fs))%nat ->
  fe_in_use (file_table fs !!! q) = true ->
  0 <= o < fe_num_blocks (file_table fs !!! q) * BLOCK_SIZE ->
  0 <= (fe_blocks (file_table fs !!! q)).[o / BLOCK_SIZE] ∧
  (fe_blocks (file_table fs !!! q)).[o / BLOCK_SIZE] ∈ owned_blocks (file_table fs !!! q).
Proof.
  intros Hinv Hq Hu Ho.
  pose proof (live_entry_facts fs q Hinv Hq Hu) as Hfacts. cbv zeta in Hfacts.
  destruct Hfacts as (_ & _ & Hnb & Hlen & Hown & _ & _ & Hocc & _).
  assert ((fe_blocks (file_table fs !!! q)).[o / BLOCK_SIZE] ∈
          take (Z.to_nat (fe_num_blocks (file_table fs !!! q)))
               (fe_blocks (file_table fs !!! q))) as Hin
    by (apply elem_of_take_aget; zlia).
  rewrite Hown. split; [|done].
  rewrite Forall_forall in Hocc. apply Hocc in Hin. lia.
Qed.

Lemma other_file_byte fs p q o blocks' :
  fs_inv fs -> (p < length (file_table fs))%nat -> (q < length (file_table fs))%nat ->
  q ≠ p -> fe_in_use (file_table fs !!! q) = true ->
  0 <= o < fe_num_blocks (file_table fs !!! q) * BLOCK_SIZE ->
  (∀ b, 0 <= b -> b ∉ owned_blocks (file_table fs !!! p) ->
        blocks'.[b] = (fs_blocks fs).[b]) ->
  file_byte blocks' (file_table fs !!! q) o =
  file_byte (fs_blocks fs) (file_table fs !!! q) o.
Proof.
  intros Hinv Hp Hq Hne Hu Ho Hframe.
  destruct (file_block_owned fs q o Hinv Hq Hu Ho) as [Hb Hin].
  destruct (inv_blocks_disjoint fs Hinv) as [Hdisj _].
  unfold file_byte. rewrite Hframe; [done|done|]. by apply (Hdisj q p).
Qed.

(** X5 ([delete_file]).  Deleting an existing file in a reachable state
    succeeds and clears its slot.  Every other entry is left as it was; a
    block outside the block list of the file keeps its map entry and its
    content, so every byte of every other file is unchanged; a name that
    resolved to another slot still resolves to it; and the three counters
    drop by one file, the blocks of the file and its size. *)
Theorem X5_delete_file_effect fs name p :
  reachable fs -> find_file fs name = Some p ->
  let file := file_table fs !!! p in
  let fs' := (delete_file fs (Some name)).2 in
  (delete_file fs (Some name)).1 = (0, [MsgDeleted name]) ∧
  fe_in_use (file_table fs' !!! p) = false ∧
  (∀ q, q ≠ p -> file_table fs' !!! q = file_table fs !!! q) ∧
  (∀ b, 0 <= b -> b ∉ owned_blocks file ->
        (block_map fs').[b] = (block_map fs).[b] ∧ (fs_blocks fs').[b] = (fs_blocks fs).[b]) ∧
  (∀ q o, q ≠ p -> (q < length (file_table fs))%nat ->
          fe_in_use (file_table fs !!! q) = true ->
          0 <= o < fe_num_blocks (file_table fs !!! q) * BLOCK_SIZE ->
          file_byte (fs_blocks fs') (file_table fs' !!! q) o =
          file_byte (fs_blocks fs) (file_table fs !!! q) o) ∧
  (∀ name' q, find_file fs name' = Some q -> q ≠ p -> find_file fs' name' = Some q) ∧
  find_file fs' name ≠ Some p ∧
  num_files fs' = num_files fs - 1 ∧
  used_blocks fs' = used_blocks fs - fe_num_blocks file ∧
  total_storage fs' = total_storage fs - fe_size file.
Proof.
  intros Hreach Hfind. pose proof (reachable_inv _ Hreach) as Hinv. cbv zeta.
  rewrite (delete_file_found fs name p Hinv Hfind). cbn [fst snd].
  pose proof (find_file_Some _ _ _ Hfind) as (Hp & Hu & _).
  pose proof (live_entry_facts fs p Hinv Hp Hu) as Hfacts. cbv zeta in Hfacts.
  destruct Hfacts as (_ & _ & _ & _ & Hown & _ & _ & Hocc & _).
  rewrite <- Hown in Hocc.
  assert (Forall (fun x => 0 <= x) (owned_blocks (file_table fs !!! p))) as Hpos
    by (eapply Forall_impl; [apply Hocc|]; cbn; intros; lia).
  assert (Hframe : ∀ b, 0 <= b -> b ∉ owned_blocks (file_table fs !!! p) ->
    (block_map (deleted fs p)).[b] = (block_map fs).[b] ∧
    (fs_blocks (deleted fs p)).[b] = (fs_blocks fs).[b]).
  { intros b Hb Hnotin. unfold deleted. cbv zeta. cbn [block_map fs_blocks].
    by rewrite !aget_mark_notin. }
  assert (Hentry : ∀ q, q ≠ p -> file_table (deleted fs p) !!! q = file_table fs !!! q).
  { intros q Hq. unfold deleted. cbv zeta. cbn [file_table].
    by rewrite list_lookup_total_insert_ne. }
  assert (Hfree : fe_in_use (file_table (deleted fs p) !!! p) = false).
  { unfold deleted. cbv zeta. cbn [file_table].
    by rewrite list_lookup_total_insert_eq. }
  split; [done|]. split; [done|]. split; [done|]. split; [done|]. split.
  { intros q o Hq Hlt Huq Ho. rewrite Hentry by done.
    apply (other_file_byte fs p q); try done. intros b Hb Hnotin. by apply Hframe. }
  split.
  { intros name' q Hq Hne. unfold find_file, deleted in *. cbv zeta. cbn [file_table].
    rewrite find_file_from_insert_free; [done|done|]. rewrite Hq. intros [= ->]. done. }
  split.
  { intros Hagain. apply find_file_Some in Hagain as (_ & Hu' & _). congruence. }
  done.
Qed.

Lemma X5_delete_file_effect_witness :
  let file := file_table fs_f10 !!! 0%nat in
  let fs' := (delete_file fs_f10 (Some name_f)).2 in
  (delete_file fs_f10 (Some name_f)).1 = (0, [MsgDeleted name_f]) ∧
  fe_in_use (file_table fs' !!! 0%nat) = false ∧
  (∀ q, q ≠ 0%nat -> file_table fs' !!! q = file_table fs_f10 !!! q) ∧
  (∀ b, 0 <= b -> b ∉ owned_blocks file ->
        (block_map fs').[b] = (block_map fs_f10).[b] ∧
        (fs_blocks fs').[b] = (fs_blocks fs_f10).[b]) ∧
  (∀ q o, q ≠ 0%nat -> (q < length (file_table fs_f10))%nat ->
          fe_in_use (file_table fs_f10 !!! q) = true ->
          0 <= o < fe_num_blocks (file_table fs_f10 !!! q) * BLOCK_SIZE ->
          file_byte (fs_blocks fs') (file_table fs' !!! q) o =
          file_byte (fs_blocks fs_f10) (file_table fs_f10 !!! q) o) ∧
  (∀ name' q, find_file fs_f10 name' = Some q -> q ≠ 0%nat ->
              find_file fs' name' = Some q) ∧
  find_file fs' name_f ≠ Some 0%nat ∧
  num_files fs' = num_files fs_f10 - 1 ∧
  used_blocks fs' = used_blocks fs_f10 - fe_num_blocks file ∧
  total_storage fs' = total_storage fs_f10 - fe_size file.
Proof.
  apply (X5_delete_file_effect fs_f10 name_f 0); [apply reachable_fs_f10|].
  vm_compute. reflexivity.
Defined.

(** ** create_file followed by delete_file *)

Lemma mark_same {A} `{Inhabited A} (a : list A) l v :
  Forall (fun b => 0 <= b ∧ (Z.to_nat b < length a)%nat ∧ a.[b] = v) l ->
  mark a l v = a.
Proof.
  unfold mark. induction l as [|b l IH]; intros Hl; [done|].
  apply Forall_cons in Hl as [(Hb & Hlt & Hv) Hl]. cbn [foldl].
  replace (a.[b <- v]) with a; [by apply IH|].
  unfold aset. symmetry. apply list_insert_id. rewrite <- Hv. unfold aget.
  by apply list_lookup_lookup_total_lt.
Qed.

Lemma listing_insert_free ft e' : ∀ p,
  fe_in_use (ft !!! p) = false -> fe_in_use e' = false ->
  listing (<[p := e']> ft) = listing ft.
Proof.
  unfold listing. induction ft as [|e ft IH]; intros p Hfree Hfree'; [done|].
  destruct p as [|p]; cbn [insert list_insert].
  - cbn in Hfree. rewrite !filter_cons.
    destruct (decide (fe_in_use e' = true)); [congruence|].
    destruct (decide (fe_in_use e = true)); [congruence|]. done.
  - cbn in Hfree. rewrite !filter_cons.
    destruct (decide (fe_in_use e = true)); cbn [fmap list_fmap]; rewrite IH; done.
Qed.

(** X6 ([create_file], [delete_file]).  In a reachable state, creating a
    file under a name shorter than MAX_FILENAME characters and deleting
    it again succeeds and restores the block store, the block map, the three
    counters and the set of live slots; every name is looked up as before
    the two calls and [list_files] prints what it printed before. *)
Theorem X6_create_then_delete fs name size :
  reachable fs -> is_size_t size -> strlen name < MAX_FILENAME ->
  (create_file fs (Some name) size).1.1 = 0 ->
  let fs1 := (create_file fs (Some name) size).2 in
  let fs2 := (delete_file fs1 (Some name)).2 in
  (delete_file fs1 (Some name)).1 = (0, [MsgDeleted name]) ∧
  fs_blocks fs2 = fs_blocks fs ∧
  block_map fs2 = block_map fs ∧
  num_files fs2 = num_files fs ∧
  used_blocks fs2 = used_blocks fs ∧
  total_storage fs2 = total_storage fs ∧
  fe_in_use <$> file_table fs2 = fe_in_use <$> file_table fs ∧
  (∀ name', find_file fs2 name' = find_file fs name') ∧
  list_files fs2 = list_files fs.
Proof.
  intros Hreach Hsize Hshort Hret. pose proof (reachable_inv _ Hreach) as Hinv. cbv zeta.
  destruct (create_file_created fs name size Hinv Hsize Hret)
    as (p & l & Hname & Hs & Hnone & Hslot & Hl & Hchoice & ->).
  destruct (free_slot_lowest fs p Hslot) as (Hp & Hfree & Hfirst).
  pose proof (blocks_for_bounds _ Hs) as Hn.
  destruct (alloc_choice_free _ _ _ (proj1 Hn) Hchoice) as [Hnodup Hlfree].
  pose proof (created_inv fs p name size l Hinv Hs Hslot Hl Hchoice) as Hinv1.
  pose proof (find_file_created fs p name size l Hinv Hnone Hslot Hshort) as Hfind1.
  rewrite (delete_file_found _ name p Hinv1 Hfind1). cbn [fst snd].
  unfold deleted. cbv zeta. rewrite owned_blocks_created by done.
  assert (file_table (created fs p name size l) !!! p =
          create_entry (set_entry_blocks (file_table fs !!! p)
                          (list_inserts 0 l (fe_blocks (file_table fs !!! p))))
                       name size (blocks_for size)) as Hentry.
  { unfold created. cbv zeta. cbn [file_table]. by rewrite list_lookup_total_insert_eq. }
  rewrite Hentry. cbn [create_entry fe_num_blocks fe_size].
  change (fs_blocks (created fs p name size l)) with (fs_blocks fs).
  change (block_map (created fs p name size l)) with (mark (block_map fs) l true).
  change (num_files (created fs p name size l)) with (num_files fs + 1).
  change (used_blocks (created fs p name size l)) with (used_blocks fs + blocks_for size).
  change (total_storage (created fs p name size l)) with (total_storage fs + size).
  unfold created. cbv zeta. cbn [file_table].
  rewrite list_insert_insert_eq.
  assert (mark (fs_blocks fs) l zero_block = fs_blocks fs) as Hblocks.
  { apply mark_same. eapply Forall_impl; [apply Hlfree|]. cbn. intros b [Hb Hbfree].
    split; [lia|]. split; [rewrite (inv_blocks_len _ Hinv); lia|].
    by apply (inv_free_zero _ Hinv). }
  assert (mark (mark (block_map fs) l true) l false = block_map fs) as Hmap.
  { apply mark_undo. eapply Forall_impl; [apply Hlfree|]. cbn. intros b [Hb Hbfree].
    split; [lia|]. split; [rewrite (inv_map_len _ Hinv); lia|done]. }
  cbn [fs_blocks block_map file_table num_files used_blocks total_storage].
  split; [done|]. split; [done|]. split; [done|].
  split; [lia|]. split; [lia|]. split; [lia|]. split.
  { rewrite list_fmap_insert. apply list_insert_id.
    rewrite list_lookup_fmap, (list_lookup_lookup_total_lt _ _ Hp). cbn. by rewrite Hfree. }
  split.
  { intros name'. unfold find_file. cbn [file_table].
    apply find_file_from_insert_other; [done|]. cbn. by intros [? _]. }
  unfold list_files.
  cbn [fs_blocks block_map file_table num_files used_blocks total_storage].
  rewrite listing_insert_free by done.
  replace (num_files fs + 1 - 1) with (num_files fs) by lia.
  replace (used_blocks fs + blocks_for size - blocks_for size) with (used_blocks fs) by lia.
  replace (total_storage fs + size - size) with (total_storage fs) by lia.
  done.
Qed.

Lemma X6_create_then_delete_witness :
  let fs1 := (create_file fs_f10 (Some name_g) 1000).2 in
  let fs2 := (delete_file fs1 (Some name_g)).2 in
  (delete_file fs1 (Some name_g)).1 = (0, [MsgDeleted name_g]) ∧
  fs_blocks fs2 = fs_blocks fs_f10 ∧
  block_map fs2 = block_map fs_f10 ∧
  num_files fs2 = num_files fs_f10 ∧
  used_blocks fs2 = used_blocks fs_f10 ∧
  total_storage fs2 = total_storage fs_f10 ∧
  fe_in_use <$> file_table fs2 = fe_in_use <$> file_table fs_f10 ∧
  (∀ name', find_file fs2 name' = find_file fs_f10 name') ∧
  list_files fs2 = list_files fs_f10.
Proof.
  apply X6_create_then_delete;
    [apply reachable_fs_f10|zlia|vm_compute; reflexivity|vm_compute; reflexivity].
Defined.

(** ** write_file and the other files *)

(** X7 ([write_file]).  Whatever its arguments and its result, a call in a
    reachable state leaves the block map, the file table and the three
    counters as they were, and changes no byte of a live file other than the
    one the name resolves to. *)
Theorem X7_write_file_frame fs filename offset data :
  reachable fs -> 0 <= offset ->
  let fs' := (write_file fs filename offset data).2 in
  block_map fs' = block_map fs ∧
  file_table fs' = file_table fs ∧
  num_files fs' = num_files fs ∧
  used_blocks fs' = used_blocks fs ∧
  total_storage fs' = total_storage fs ∧
  ∀ q o, (q < length (file_table fs))%nat -> fe_in_use (file_table fs !!! q) = true ->
         (∀ name, filename = Some name -> find_file fs name ≠ Some q) ->
         0 <= o < fe_num_blocks (file_table fs !!! q) * BLOCK_SIZE ->
         file_byte (fs_blocks fs') (file_table fs !!! q) o =
         file_byte (fs_blocks fs) (file_table fs !!! q) o.
Proof.
  intros Hreach Hoff. pose proof (reachable_inv _ Hreach) as Hinv. cbv zeta.
  unfold write_file.
  destruct filename as [name|]; [|done]. destruct data as [data|]; [|done].
  destruct (find_file fs name) as [p|] eqn:Hfind; [|done]. cbv zeta.
  destruct (offset >? fe_size (file_table fs !!! p)); [done|].
  destruct (wadd offset (strlen data) >? fe_size (file_table fs !!! p)); [done|].
  pose proof (find_file_Some _ _ _ Hfind) as (Hp & Hu & _).
  pose proof (live_entry_facts fs p Hinv Hp Hu) as Hfacts. cbv zeta in Hfacts.
  destruct Hfacts as (_ & _ & Hnb & Hlen & Hown & _).
  destruct (entry_lengths fs p Hinv Hp) as (_ & _ & Hpos).
  pose proof (write_loop_frame (fs_blocks fs) (file_table fs !!! p) data (strlen data) 0
                (offset / BLOCK_SIZE) (offset mod BLOCK_SIZE)
                (Z.to_nat (fe_num_blocks (file_table fs !!! p)))) as Hframe.
  cbv zeta in Hframe.
  destruct Hframe as (_ & _ & Hframe);
    [zlia | lia | rewrite Hlen; zlia | done | apply Hinv |].
  destruct (write_loop _ _ _ _ _ _ _ _) as [blocks' bw]. cbn [fst snd] in *.
  cbn [set_blocks fs_blocks block_map file_table num_files used_blocks total_storage].
  do 5 (split; [done|]).
  intros q o Hq Huq Hother Ho.
  apply (other_file_byte fs p q); try done.
  - intros ->. by apply (Hother name).
  - intros b Hb Hnotin. apply Hframe; [done|]. by rewrite <- Hown.
Qed.

Lemma X7_write_file_frame_witness :
  let fs' := (write_file fs_fragmented (Some [98]) 3 (Some [120; 121])).2 in
  block_map fs' = block_map fs_fragmented ∧
  file_table fs' = file_table fs_fragmented ∧
  num_files fs' = num_files fs_fragmented ∧
  used_blocks fs' = used_blocks fs_fragmented ∧
  total_storage fs' = total_storage fs_fragmented ∧
  ∀ q o, (q < length (file_table fs_fragmented))%nat ->
         fe_in_use (file_table fs_fragmented !!! q) = true ->
         (∀ name, Some [98] = Some name -> find_file fs_fragmented name ≠ Some q) ->
         0 <= o < fe_num_blocks (file_table fs_fragmented !!! q) * BLOCK_SIZE ->
         file_byte (fs_blocks fs') (file_table fs_fragmented !!! q) o =
         file_byte (fs_blocks fs_fragmented) (file_table fs_fragmented !!! q) o.
Proof.
  apply (X7_write_file_frame fs_fragmented (Some [98]) 3 (Some [120; 121]));
    [apply reachable_fs_fragmented|lia].
Defined.

(** ** The bytes of the file after write_file *)

(** X8 ([write_file]).  A write of [data] at [offset] that fits the size of
    an existing file succeeds and prints the length of [data]; afterwards
    every byte position of the blocks of the file holds the byte of [data]
    if it lies in the range written and the byte it held before otherwise,
    also beyond the declared size. *)
Theorem X8_write_file_bytes fs name p offset data :
  reachable fs -> find_file fs name = Some p ->
  let file := file_table fs !!! p in
  0 <= offset -> offset + strlen data <= fe_size file ->
  let w := write_file fs (Some name) offset (Some data) in
  w.1 = (0, [MsgWritten (strlen data) name offset]) ∧
  ∀ o, 0 <= o < fe_num_blocks file * BLOCK_SIZE ->
       file_byte (fs_blocks w.2) file o = overlay (fs_blocks fs) file offset data o.
Proof.
  intros Hreach Hfind file Hoff Hfit. pose proof (reachable_inv _ Hreach) as Hinv.
  destruct (write_file_ok fs name p offset data Hinv Hfind Hoff Hfit)
    as (blocks' & Hw & _ & Hbytes).
  cbv zeta. rewrite Hw. cbn [fst snd set_blocks fs_blocks]. split; [done|].
  intros o Ho. unfold overlay. by apply Hbytes.
Qed.

Lemma X8_write_file_bytes_witness :
  let file := file_table fs_f10 !!! 0%nat in
  let w := write_file fs_f10 (Some name_f) 3 (Some [120; 121]) in
  w.1 = (0, [MsgWritten (strlen [120; 121]) name_f 3]) ∧
  ∀ o, 0 <= o < fe_num_blocks file * BLOCK_SIZE ->
       file_byte (fs_blocks w.2) file o = overlay (fs_blocks fs_f10) file 3 [120; 121] o.
Proof.
  apply (X8_write_file_bytes fs_f10 name_f 0 3 [120; 121]).
  - apply reachable_fs_f10.
  - vm_compute. reflexivity.
  - lia.
  - apply Z.leb_le. vm_compute. reflexivity.
Defined.

(** ** Reading any window after a write *)

(** X9 ([write_file], [read_file]).  After a write that fits an existing
    file, a read of any window inside the file, into a buffer longer than
    the window, succeeds and delivers for each position of the window the
    byte of [data] if the position lies in the range written and the byte
    stored before the write otherwise, followed by a zero byte; the rest of
    the buffer is not touched. *)
Theorem X9_read_window_after_write fs name p offset data offset' size buffer :
  reachable fs -> find_file fs name = Some p ->
  let file := file_table fs !!! p in
  0 <= offset -> offset + strlen data <= fe_size file ->
  0 <= offset' -> 0 < size -> offset' + size <= fe_size file ->
  size < Z.of_nat (length buffer) ->
  read_file (write_file fs (Some name) offset (Some data)).2
            (Some name) offset' size (Some buffer) =
  (0, [MsgRead size name offset'],
   Some ((overlay (fs_blocks fs) file offset data <$> seqZ offset' size)
         ++ 0 :: drop (S (Z.to_nat size)) buffer)).
Proof.
  intros Hreach Hfind file. subst file. intros Hoff Hfit Hoff' Hsize Hwin Hbuf.
  pose proof (reachable_inv _ Hreach) as Hinv.
  pose proof (find_file_Some _ _ _ Hfind) as (Hp & Hu & _).
  destruct (write_file_ok fs name p offset data Hinv Hfind Hoff Hfit)
    as (blocks' & Hw & _ & Hbytes).
  destruct (inv_file_stored fs p Hinv Hp Hu) as (_ & Hs & Hcap).
  assert (fs_inv (set_blocks fs blocks')) as Hinv'.
  { pose proof (strlen_bounds data) as Hlen.
    assert (is_size_t offset) as Hoff_t by zlia.
    pose proof (write_file_inv fs (Some name) offset (Some data) Hinv Hoff_t) as H.
    by rewrite Hw in H. }
  rewrite Hw. cbn [snd].
  rewrite (read_file_ok _ name p); [| done | done | cbn; lia | lia | cbn; zlia | cbn; lia].
  cbn [set_blocks file_table fs_blocks].
  replace (size `min` (fe_size (file_table fs !!! p) - offset')) with size by lia.
  destruct (Z.gtb_spec (offset' + size) (fe_size (file_table fs !!! p))); [lia|].
  cbn [app]. do 3 f_equal.
  apply list_eq_aget; [by rewrite length_file_bytes, length_fmap, length_seqZ|].
  intros j Hj. rewrite length_file_bytes in Hj. rewrite aget_file_bytes by lia.
  rewrite Hbytes by lia. unfold aget at 2.
  symmetry. apply list_lookup_total_correct.
  rewrite list_lookup_fmap, lookup_seqZ_lt by lia. cbn. unfold overlay.
  by rewrite Z2Nat.id by lia.
Qed.

Lemma X9_read_window_after_write_witness :
  let file := file_table fs_f10 !!! 0%nat in
  read_file (write_file fs_f10 (Some name_f) 3 (Some [120; 121])).2
            (Some name_f) 2 5 (Some [7; 7; 7; 7; 7; 7; 7; 7]) =
  (0, [MsgRead 5 name_f 2],
   Some ((overlay (fs_blocks fs_f10) file 3 [120; 121] <$> seqZ 2 5)
         ++ 0 :: drop (S (Z.to_nat 5)) [7; 7; 7; 7; 7; 7; 7; 7])).
Proof.
  apply (X9_read_window_after_write fs_f10 name_f 0 3 [120; 121] 2 5
           [7; 7; 7; 7; 7; 7; 7; 7]).
  - apply reachable_fs_f10.
  - vm_compute. reflexivity.
  - lia.
  - apply Z.leb_le. vm_compute. reflexivity.
  - lia.
  - lia.
  - apply Z.leb_le. vm_compute. reflexivity.
  - apply Z.ltb_lt. vm_compute. reflexivity.
Defined.

(** ** list_files *)

Lemma listing_totals ft :
  Forall entry_ok ft ->
  live_files ft = Z.of_nat (length (listing ft)) ∧
  live_bytes ft = sumZ (listing ft).*2 ∧
  live_blocks ft = sumZ (blocks_for <$> (listing ft).*2).
Proof.
  unfold live_files, live_bytes, live_blocks, listing, sumZ.
  induction ft as [|e ft IH]; intros Hok; [done|].
  apply Forall_cons in Hok as [(_ & _ & _ & He) Hok].
  destruct (IH Hok) as (IH1 & IH2 & IH3).
  cbn [sum_in_use]. rewrite filter_cons.
  destruct (decide (fe_in_use e = true)) as [Hu|Hu].
  - rewrite Hu. destruct (He Hu) as [_ Hnb].
    cbn [fmap list_fmap length foldr snd]. cbn [fmap] in IH1, IH2, IH3. lia.
  - destruct (fe_in_use e); [done|]. cbn [fmap] in *. lia.
Qed.

Lemma listing_elem ft name size :
  (name, size) ∈ listing ft ->
  ∃ q, (q < length ft)%nat ∧ fe_in_use (ft !!! q) = true ∧
       cstr (fe_filename (ft !!! q)) = name.
Proof.
  unfold listing. intros Hin.
  apply list_elem_of_fmap in Hin as (e & [= -> ->] & He).
  apply list_elem_of_filter in He as [Hu He].
  apply list_elem_of_lookup in He as [q Hq].
  exists q. split; [by eapply lookup_lt_Some|].
  by rewrite (list_lookup_total_correct _ _ _ Hq).
Qed.

(** X10 ([list_files]).  In a reachable state the function prints the line
    for an empty system exactly when no entry is live.  Otherwise it prints
    one row, name and size, for each live entry in slot order, and the
    totals it prints agree with the rows: the number of rows, the sum of
    their sizes, and the sum of the block counts of their sizes.  Every
    name printed is one that [find_file] finds. *)
Theorem X10_list_files_totals fs :
  reachable fs ->
  let rows := listing (file_table fs) in
  (rows = [] -> list_files fs = [MsgNoFiles]) ∧
  (rows ≠ [] ->
   list_files fs =
   [MsgListing rows (Z.of_nat (length rows)) (sumZ rows.*2)
               (sumZ (blocks_for <$> rows.*2))]) ∧
  (∀ name size, (name, size) ∈ rows -> ∃ p, find_file fs name = Some p).
Proof.
  intros Hreach. pose proof (reachable_inv _ Hreach) as Hinv. cbv zeta.
  destruct (listing_totals _ (inv_entries _ Hinv)) as (Hfiles & Hbytes & Hblocks).
  rewrite <- (inv_num_files _ Hinv) in Hfiles.
  rewrite <- (inv_total _ Hinv) in Hbytes.
  rewrite (inv_live_blocks _ Hinv) in Hblocks.
  unfold list_files. split; [|split].
  - intros Hnil. rewrite Hnil in Hfiles. cbn in Hfiles. by rewrite Hfiles.
  - intros Hrows. rewrite <- Hfiles, <- Hbytes, <- Hblocks.
    destruct (Z.eqb_spec (num_files fs) 0) as [Hz|]; [|done].
    rewrite Hz in Hfiles. by destruct (listing (file_table fs)).
  - intros name size Hin.
    apply listing_elem in Hin as (q & Hq & Hu & Hname).
    pose proof (find_file_from_first (file_table fs) name 0) as Hfirst.
    unfold find_file. destruct (find_file_from (file_table fs) 0 name) as [p|]; [by exists p|].
    exfalso. apply (Hfirst q Hq). split; [done|].
    subst name. symmetry. apply cstr_id, cstr_no_zero.
Qed.

Lemma X10_list_files_totals_witness :
  let rows := listing (file_table fs_fragmented) in
  (rows = [] -> list_files fs_fragmented = [MsgNoFiles]) ∧
  (rows ≠ [] ->
   list_files fs_fragmented =
   [MsgListing rows (Z.of_nat (length rows)) (sumZ rows.*2)
               (sumZ (blocks_for <$> rows.*2))]) ∧
  (∀ name size, (name, size) ∈ rows -> ∃ p, find_file fs_fragmented name = Some p).
Proof. apply (X10_list_files_totals fs_fragmented). apply reachable_fs_fragmented. Defined.

(** ** init_filesystem from any state *)

Lemma find_file_from_free ft name : ∀ i,
  Forall (fun e => fe_in_use e = false) ft -> find_file_from ft i name = None.
Proof.
  induction ft as [|e ft IH]; intros i Hfree; [done|].
  apply Forall_cons in Hfree as [He Hfree]. cbn [find_file_from]. rewrite He. by apply IH.
Qed.

Lemma count_occupied_all_false (bm : list bool) :
  count_occupied ((fun _ => false) <$> bm) = 0.
Proof. induction bm; cbn [fmap list_fmap count_occupied] in *; lia. Qed.

(** X11 ([init_filesystem]).  Called in any state whose arrays have the
    lengths of their C types, the function leaves a state that satisfies the
    invariant of the system: every block is free and all zero, no name is
    found, the three counters are zero and [list_files] reports an empty
    system. *)
Theorem X11_init_filesystem_resets fs :
  well_sized fs ->
  let fs' := (init_filesystem fs).2 in
  fs_inv fs' ∧
  (∀ name, find_file fs' name = None) ∧
  (∀ b, 0 <= b < MAX_BLOCKS ->
        (block_map fs').[b] = false ∧ (fs_blocks fs').[b] = zero_block) ∧
  num_files fs' = 0 ∧ used_blocks fs' = 0 ∧ total_storage fs' = 0 ∧
  list_files fs' = [MsgNoFiles].
Proof.
  intros (Hblocks & Hmap & Htable & Hentries). cbv zeta.
  assert (Forall (fun e => fe_in_use e = false) (init_entry <$> file_table fs)) as Hfree.
  { apply Forall_fmap, Forall_true. done. }
  assert (Hcells : ∀ b, 0 <= b < MAX_BLOCKS ->
    ((fun _ => false) <$> block_map fs).[b] = false ∧
    ((fun _ : list Z => zero_block) <$> fs_blocks fs).[b] = zero_block).
  { intros b Hb. unfold aget. split.
    - apply list_lookup_total_correct. rewrite list_lookup_fmap.
      destruct (lookup_lt_is_Some_2 (block_map fs) (Z.to_nat b)) as [x ->]; [lia|done].
    - apply list_lookup_total_correct. rewrite list_lookup_fmap.
      destruct (lookup_lt_is_Some_2 (fs_blocks fs) (Z.to_nat b)) as [x ->]; [lia|done]. }
  cbn [init_filesystem snd]. split; [|split; [|split]].
  - split; cbn [fs_blocks block_map file_table num_files used_blocks total_storage].
    + by rewrite length_fmap.
    + apply Forall_fmap, Forall_true. intros ?. apply length_replicate.
    + by rewrite length_fmap.
    + by rewrite length_fmap.
    + apply Forall_fmap. eapply Forall_impl; [apply Hentries|].
      intros e (Hn & Hb & Hpos). unfold entry_ok. cbn.
      rewrite length_aset. done.
    + rewrite all_owned_free by done. constructor.
    + rewrite all_owned_free by done. constructor.
    + by rewrite count_occupied_all_false.
    + unfold live_blocks. by rewrite sum_in_use_free.
    + unfold live_files. by rewrite sum_in_use_free.
    + unfold live_bytes. by rewrite sum_in_use_free.
    + intros b Hb _. by apply Hcells.
  - intros name. unfold find_file. cbn [file_table]. by apply find_file_from_free.
  - done.
  - done.
Qed.

Lemma X11_init_filesystem_resets_witness :
  let fs' := (init_filesystem fs_f10).2 in
  fs_inv fs' ∧
  (∀ name, find_file fs' name = None) ∧
  (∀ b, 0 <= b < MAX_BLOCKS ->
        (block_map fs').[b] = false ∧ (fs_blocks fs').[b] = zero_block) ∧
  num_files fs' = 0 ∧ used_blocks fs' = 0 ∧ total_storage fs' = 0 ∧
  list_files fs' = [MsgNoFiles].
Proof.
  apply (X11_init_filesystem_resets fs_f10).
  pose proof (reachable_inv _ reachable_fs_f10) as Hinv.
  split; [apply Hinv|]. split; [apply Hinv|]. split; [apply Hinv|].
  eapply Forall_impl; [apply (inv_entries _ Hinv)|].
  intros e (? & ? & ? & _). done.
Defined.

(** ** free_blocks twice *)

Lemma free_loop_outside blocks bm used bl k b : ∀ i,
  0 <= i -> (Z.to_nat i + k <= length bl)%nat -> Forall (fun x => 0 <= x) bl ->
  0 <= b -> b ∉ take k (drop (Z.to_nat i) bl) ->
  let '(blocks', bm', _) := free_loop blocks bm used bl i k in
  bm'.[b] = bm.[b] ∧ blocks'.[b] = blocks.[b].
Proof.
  revert blocks bm used.
  induction k as [|k IH]; intros blocks bm used i Hi Hlen Hpos Hb Hnotin; [done|].
  cbn [free_loop]. cbn zeta.
  assert (bl !! Z.to_nat i = Some bl.[i]) as Hlook by (apply aget_lookup; lia).
  rewrite (drop_S _ _ _ Hlook) in Hnotin. cbn [take] in Hnotin.
  apply not_elem_of_cons in Hnotin as [Hne Hnotin].
  assert (0 <= bl.[i]) as Hbi.
  { rewrite Forall_forall in Hpos. apply Hpos. by eapply list_elem_of_lookup_2. }
  specialize (IH) with (i := i + 1).
  replace (Z.to_nat (i + 1)) with (S (Z.to_nat i)) in IH by lia.
  destruct ((bl.[i] <? MAX_BLOCKS) && bm.[bl.[i]]).
  - assert (0 <= i + 1) as Hi1 by lia.
    assert (S (Z.to_nat i) + k <= length bl)%nat as Hlen1 by lia.
    specialize (IH (blocks.[bl.[i] <- zero_block]) (bm.[bl.[i] <- false]) (wsub used 1)
                   Hi1 Hlen1 Hpos Hb Hnotin).
    destruct (free_loop _ _ _ _ _ _) as [[blocks' bm'] used'].
    destruct IH as [-> ->].
    rewrite !aget_aset_ne by (done || lia). done.
  - apply IH; [lia|lia|done|done|done].
Qed.

Lemma free_loop_map_false blocks bm used bl k b : ∀ i,
  bm.[b] = false ->
  let '(_, bm', _) := free_loop blocks bm used bl i k in bm'.[b] = false.
Proof.
  revert blocks bm used. induction k as [|k IH]; intros blocks bm used i Hb; [done|].
  cbn [free_loop]. cbn zeta.
  destruct ((bl.[i] <? MAX_BLOCKS) && bm.[bl.[i]]); [|by apply IH].
  apply IH. unfold aget, aset. rewrite list_lookup_total_insert. by case_decide.
Qed.

Lemma free_loop_listed_false blocks bm used bl k b : ∀ i,
  0 <= i -> (Z.to_nat i + k <= length bl)%nat -> Forall (fun x => 0 <= x) bl ->
  (Z.to_nat MAX_BLOCKS <= length bm)%nat ->
  b ∈ take k (drop (Z.to_nat i) bl) -> b < MAX_BLOCKS ->
  let '(_, bm', _) := free_loop blocks bm used bl i k in bm'.[b] = false.
Proof.
  revert blocks bm used.
  induction k as [|k IH]; intros blocks bm used i Hi Hlen Hpos Hbm Hin Hb.
  { cbn in Hin. by apply elem_of_nil in Hin. }
  cbn [free_loop]. cbn zeta.
  assert (bl !! Z.to_nat i = Some bl.[i]) as Hlook by (apply aget_lookup; lia).
  rewrite (drop_S _ _ _ Hlook) in Hin. cbn [take] in Hin.
  assert (0 <= bl.[i]) as Hbi.
  { rewrite Forall_forall in Hpos. apply Hpos. by eapply list_elem_of_lookup_2. }
  specialize (IH) with (i := i + 1).
  replace (Z.to_nat (i + 1)) with (S (Z.to_nat i)) in IH by lia.
  apply elem_of_cons in Hin as [->|Hin].
  - destruct (Z.ltb_spec (bl.[i]) MAX_BLOCKS); [|lia]. cbn [andb].
    destruct (bm.[bl.[i]]) eqn:Hocc.
    + apply free_loop_map_false. apply aget_aset_eq; [done|]. zlia.
    + by apply free_loop_map_false.
  - destruct ((bl.[i] <? MAX_BLOCKS) && bm.[bl.[i]]).
    + apply IH; [lia|lia|done|by rewrite length_aset|done|done].
    + apply IH; [lia|lia|done|done|done|done].
Qed.

Lemma free_loop_noop blocks bm used bl k : ∀ i,
  0 <= i -> (Z.to_nat i + k <= length bl)%nat ->
  Forall (fun b => b < MAX_BLOCKS -> bm.[b] = false) (take k (drop (Z.to_nat i) bl)) ->
  free_loop blocks bm used bl i k = (blocks, bm, used).
Proof.
  induction k as [|k IH]; intros i Hi Hlen Hfree; [done|].
  cbn [free_loop]. cbn zeta.
  assert (bl !! Z.to_nat i = Some bl.[i]) as Hlook by (apply aget_lookup; lia).
  rewrite (drop_S _ _ _ Hlook) in Hfree. cbn [take] in Hfree.
  apply Forall_cons in Hfree as [Hhead Hfree].
  replace ((bl.[i] <? MAX_BLOCKS) && bm.[bl.[i]]) with false.
  - apply IH; [lia|lia|]. by replace (Z.to_nat (i + 1)) with (S (Z.to_nat i)) by lia.
  - destruct (Z.ltb_spec (bl.[i]) MAX_BLOCKS); [|done]. by rewrite Hhead.
Qed.

(** X12 ([free_blocks]).  Releasing a list of blocks a second time changes
    nothing: the state after two calls with the same list is the state
    after one, so a block that is free, listed twice or outside the pool
    is skipped.  A block that the list does not name keeps its map entry and
    its content. *)
Theorem X12_free_blocks_idempotent fs n block_list :
  length (block_map fs) = Z.to_nat MAX_BLOCKS ->
  Forall (fun x => 0 <= x) block_list -> (Z.to_nat n <= length block_list)%nat ->
  free_blocks (free_blocks fs n block_list) n block_list = free_blocks fs n block_list ∧
  ∀ b, 0 <= b -> b ∉ take (Z.to_nat n) block_list ->
       (block_map (free_blocks fs n block_list)).[b] = (block_map fs).[b] ∧
       (fs_blocks (free_blocks fs n block_list)).[b] = (fs_blocks fs).[b].
Proof.
  intros Hmap Hpos Hn. unfold free_blocks.
  pose proof (λ b, free_loop_listed_false (fs_blocks fs) (block_map fs) (used_blocks fs)
                     block_list (Z.to_nat n) b 0) as Hfalse.
  pose proof (λ b, free_loop_outside (fs_blocks fs) (block_map fs) (used_blocks fs)
                     block_list (Z.to_nat n) b 0) as Hout.
  destruct (free_loop _ _ _ _ _ _) as [[blocks' bm'] used'].
  cbn [fs_blocks block_map file_table num_files used_blocks total_storage].
  change (Z.to_nat 0) with 0%nat in *. rewrite drop_0 in *. split.
  - rewrite free_loop_noop; [done|lia|cbn; lia|].
    change (Z.to_nat 0) with 0%nat. rewrite drop_0.
    apply Forall_forall. intros b Hin Hb. apply Hfalse; [lia|cbn; lia|done|lia|done|done].
  - intros b Hb Hnotin. apply Hout; [lia|cbn; lia|done|done|done].
Qed.

Lemma X12_free_blocks_idempotent_witness :
  free_blocks (free_blocks fs_f10 3 [0; 0; 5000]) 3 [0; 0; 5000] =
  free_blocks fs_f10 3 [0; 0; 5000] ∧
  ∀ b, 0 <= b -> b ∉ take (Z.to_nat 3) [0; 0; 5000] ->
       (block_map (free_blocks fs_f10 3 [0; 0; 5000])).[b] = (block_map fs_f10).[b] ∧
       (fs_blocks (free_blocks fs_f10 3 [0; 0; 5000])).[b] = (fs_blocks fs_f10).[b].
Proof.
  apply (X12_free_blocks_idempotent fs_f10 3 [0; 0; 5000]).
  - vm_compute. reflexivity.
  - repeat constructor; lia.
  - cbn. lia.
Defined.

(** ** allocate_blocks: all or nothing *)

(** X13 ([allocate_blocks]).  When the counter of used blocks equals the
    number of occupied entries of the map, a request is served in full or
    not at all.  It is served, with the counter still equal to the number of
    occupied entries afterwards, exactly when it asks for between 1 and
    MAX_BLOCKS blocks and that many are free; otherwise the function
    returns 0 and changes neither the state nor the caller's array. *)
Theorem X13_allocate_blocks_all_or_nothing fs n block_list :
  length (block_map fs) = Z.to_nat MAX_BLOCKS ->
  used_blocks fs = count_occupied (block_map fs) ->
  0 <= n ->
  let r := allocate_blocks fs n block_list in
  (0 < n <= MAX_BLOCKS ∧ used_blocks fs + n <= MAX_BLOCKS ∧
   r.1.1 = n ∧
   used_blocks r.1.2 = used_blocks fs + n ∧
   used_blocks r.1.2 = count_occupied (block_map r.1.2))
  ∨ ((n = 0 ∨ MAX_BLOCKS < n ∨ MAX_BLOCKS < used_blocks fs + n) ∧
     r = (0, fs, block_list)).
Proof.
  intros Hmap Hused Hn. cbv zeta.
  pose proof (count_occupied_bounds (block_map fs)) as Hc.
  rewrite <- Hused, Hmap in Hc.
  destruct (decide (n = 0)) as [->|Hn0]; [right; split; [by left|done]|].
  destruct (decide (MAX_BLOCKS < n)) as [Hbig|Hfit].
  { right. split; [by right; left|]. unfold allocate_blocks.
    destruct (Z.gtb_spec n MAX_BLOCKS); [|lia]. by rewrite orb_true_r. }
  destruct (decide (MAX_BLOCKS < used_blocks fs + n)) as [Hfull|Hroom].
  { right. split; [by right; right|]. unfold allocate_blocks.
    destruct (Z.eqb_spec n 0); [done|]. destruct (Z.gtb_spec n MAX_BLOCKS); [lia|].
    cbn [orb]. rewrite wadd_small by zlia.
    destruct (Z.gtb_spec (used_blocks fs + n) MAX_BLOCKS); [done|lia]. }
  left.
  destruct (allocate_blocks_ok fs n block_list Hmap Hused) as (l & -> & Hl & Hchoice);
    [lia|lia|].
  assert (0 < n) as Hn1 by lia.
  destruct (alloc_choice_free _ _ _ Hn1 Hchoice) as [Hnodup Hfree].
  cbn [fst snd set_alloc used_blocks block_map].
  split; [lia|]. split; [lia|]. split; [done|]. split; [done|].
  rewrite (count_occupied_mark _ _ true); [cbv iota; lia|done|].
  eapply Forall_impl; [apply Hfree|]. cbn. intros b [Hb Hbfree].
  split; [lia|]. split; [rewrite Hmap; lia|done].
Qed.

Lemma X13_allocate_blocks_all_or_nothing_witness :
  let r := allocate_blocks fs_fragmented 2 [9; 9; 9] in
  (0 < 2 <= MAX_BLOCKS ∧ used_blocks fs_fragmented + 2 <= MAX_BLOCKS ∧
   r.1.1 = 2 ∧
   used_blocks r.1.2 = used_blocks fs_fragmented + 2 ∧
   used_blocks r.1.2 = count_occupied (block_map r.1.2))
  ∨ ((2 = 0 ∨ MAX_BLOCKS < 2 ∨ MAX_BLOCKS < used_blocks fs_fragmented + 2) ∧
     r = (0, fs_fragmented, [9; 9; 9])).
Proof.
  apply (X13_allocate_blocks_all_or_nothing fs_fragmented 2 [9; 9; 9]).
  - vm_compute. reflexivity.
  - vm_compute. reflexivity.
  - lia.
Defined.

(** ** Bounds on the counters *)

Lemma live_sums ft :
  Forall entry_ok ft ->
  live_files ft <= live_blocks ft ∧
  live_bytes ft <= live_blocks ft * BLOCK_SIZE ∧
  live_blocks ft * BLOCK_SIZE <= live_bytes ft + (BLOCK_SIZE - 1) * live_files ft.
Proof.
  unfold live_files, live_bytes, live_blocks.
  induction ft as [|e ft IH]; intros Hok; cbn [sum_in_use]; [lia|].
  apply Forall_cons in Hok as [(_ & _ & _ & He) Hok].
  specialize (IH Hok). destruct (fe_in_use e); [|lia].
  destruct (He eq_refl) as [Hs Hnb]. unfold blocks_for in Hnb. zlia.
Qed.

(** X14 (the counters).  In every reachable state there are at most
    MAX_FILES files and at most MAX_BLOCKS used blocks, every file
    has at least one block, and the bytes declared fill the used blocks up
    to less than one block for each file. *)
Theorem X14_capacity_bounds fs :
  reachable fs ->
  0 <= num_files fs <= MAX_FILES ∧
  num_files fs <= used_blocks fs <= MAX_BLOCKS ∧
  total_storage fs <= used_blocks fs * BLOCK_SIZE ∧
  used_blocks fs * BLOCK_SIZE <= total_storage fs + (BLOCK_SIZE - 1) * num_files fs ∧
  total_storage fs <= MAX_STORAGE.
Proof.
  intros Hreach. pose proof (reachable_inv _ Hreach) as Hinv.
  pose proof (live_sums _ (inv_entries _ Hinv)) as (H1 & H2 & H3).
  pose proof (live_bounds _ (inv_entries _ Hinv)) as (Hf & _ & _).
  pose proof (count_occupied_bounds (block_map fs)) as Hc.
  rewrite <- (inv_used _ Hinv), (inv_map_len _ Hinv) in Hc.
  rewrite (inv_table_len _ Hinv) in Hf.
  rewrite <- (inv_num_files _ Hinv) in *. rewrite <- (inv_total _ Hinv) in *.
  rewrite (inv_live_blocks _ Hinv) in *. zlia.
Qed.

Lemma X14_capacity_bounds_witness :
  0 <= num_files fs_fragmented <= MAX_FILES ∧
  num_files fs_fragmented <= used_blocks fs_fragmented <= MAX_BLOCKS ∧
  total_storage fs_fragmented <= used_blocks fs_fragmented * BLOCK_SIZE ∧
  used_blocks fs_fragmented * BLOCK_SIZE <=
    total_storage fs_fragmented + (BLOCK_SIZE - 1) * num_files fs_fragmented ∧
  total_storage fs_fragmented <= MAX_STORAGE.
Proof. apply (X14_capacity_bounds fs_fragmented). apply reachable_fs_fragmented. Defined.

(** ** read_file inside the file *)

(** X15 ([read_file]).  A read of a window that lies inside an existing
    file, into a buffer longer than the window, succeeds without a warning
    and delivers exactly the bytes of the window, followed by a zero byte;
    the buffer behind that byte is not touched. *)
Theorem X15_read_file_window fs name p offset size buffer :
  reachable fs -> find_file fs name = Some p ->
  let file := file_table fs !!! p in
  0 <= offset -> 0 < size -> offset + size <= fe_size file ->
  size < Z.of_nat (length buffer) ->
  read_file fs (Some name) offset size (Some buffer) =
  (0, [MsgRead size name offset],
   Some (file_bytes (fs_blocks fs) file offset size
         ++ 0 :: drop (S (Z.to_nat size)) buffer)).
Proof.
  intros Hreach Hfind file. subst file. intros Hoff Hsize Hwin Hbuf.
  pose proof (reachable_inv _ Hreach) as Hinv.
  pose proof (find_file_Some _ _ _ Hfind) as (Hp & Hu & _).
  destruct (inv_file_stored fs p Hinv Hp Hu) as (_ & Hs & _).
  rewrite (read_file_ok _ name p); [| done | done | lia | lia | zlia | lia].
  replace (size `min` (fe_size (file_table fs !!! p) - offset)) with size by lia.
  destruct (Z.gtb_spec (offset + size) (fe_size (file_table fs !!! p))); [lia|done].
Qed.

Lemma X15_read_file_window_witness :
  let file := file_table fs_f10 !!! 0%nat in
  read_file fs_f10 (Some name_f) 2 5 (Some [7; 7; 7; 7; 7; 7; 7; 7]) =
  (0, [MsgRead 5 name_f 2],
   Some (file_bytes (fs_blocks fs_f10) file 2 5
         ++ 0 :: drop (S (Z.to_nat 5)) [7; 7; 7; 7; 7; 7; 7; 7])).
Proof.
  apply (X15_read_file_window fs_f10 name_f 0 2 5 [7; 7; 7; 7; 7; 7; 7; 7]).
  - apply reachable_fs_f10.
  - vm_compute. reflexivity.
  - lia.
  - lia.
  - apply Z.leb_le. vm_compute. reflexivity.
  - apply Z.ltb_lt. vm_compute. reflexivity.
Defined.

(** ** Two writes *)

(** The store after a successful write, row by row and byte by byte. *)
Lemma write_file_spec fs name p offset data :
  fs_inv fs -> find_file fs name = Some p ->
  0 <= offset -> offset + strlen data <= fe_size (file_table fs !!! p) ->
  ∃ blocks',
    write_file fs (Some name) offset (Some data) =
      (0, [MsgWritten (strlen data) name offset], set_blocks fs blocks') ∧
    fs_inv (set_blocks fs blocks') ∧
    (∀ b, 0 <= b -> b ∉ owned_blocks (file_table fs !!! p) ->
          blocks'.[b] = (fs_blocks fs).[b]) ∧
    ∀ q o, (q < length (file_table fs))%nat -> fe_in_use (file_table fs !!! q) = true ->
      0 <= o < fe_num_blocks (file_table fs !!! q) * BLOCK_SIZE ->
      file_byte blocks' (file_table fs !!! q) o =
      if decide (q = p) then overlay (fs_blocks fs) (file_table fs !!! q) offset data o
      else file_byte (fs_blocks fs) (file_table fs !!! q) o.
Proof.
  intros Hinv Hfind Hoff Hfit.
  pose proof (find_file_Some _ _ _ Hfind) as (Hp & Hu & _).
  destruct (write_file_ok fs name p offset data Hinv Hfind Hoff Hfit)
    as (blocks' & Hw & _ & Hbytes).
  destruct (inv_file_stored fs p Hinv Hp Hu) as (_ & Hs & _).
  pose proof (strlen_bounds data) as Hlen.
  assert (is_size_t offset) as Hoff_t by zlia.
  pose proof (write_file_inv fs (Some name) offset (Some data) Hinv Hoff_t) as Hinv'.
  rewrite Hw in Hinv'. cbn [snd] in Hinv'.
  assert (Hframe : ∀ b, 0 <= b -> b ∉ owned_blocks (file_table fs !!! p) ->
                        blocks'.[b] = (fs_blocks fs).[b]).
  { pose proof (live_entry_facts fs p Hinv Hp Hu) as Hfacts. cbv zeta in Hfacts.
    destruct Hfacts as (_ & _ & Hnb & Hblen & Hown & _).
    destruct (entry_lengths fs p Hinv Hp) as (_ & _ & Hpos).
    pose proof (write_loop_frame (fs_blocks fs) (file_table fs !!! p) data (strlen data) 0
                  (offset / BLOCK_SIZE) (offset mod BLOCK_SIZE)
                  (Z.to_nat (fe_num_blocks (file_table fs !!! p)))) as Hloop.
    cbv zeta in Hloop.
    destruct Hloop as (_ & _ & Hloop);
      [zlia | lia | rewrite Hblen; zlia | done | apply Hinv |].
    unfold write_file in Hw. rewrite Hfind in Hw. cbv zeta in Hw.
    destruct (offset >? fe_size (file_table fs !!! p)); [done|].
    destruct (wadd offset (strlen data) >? fe_size (file_table fs !!! p)); [done|].
    destruct (write_loop _ _ _ _ _ _ _ _) as [blocks1 bw]. cbn [fst] in Hloop.
    unfold set_blocks in Hw. assert (blocks1 = blocks') as -> by congruence.
    intros b Hb Hnotin. apply Hloop; [done|]. by rewrite <- Hown. }
  exists blocks'. split; [done|]. split; [done|]. split; [done|].
  intros q o Hq Huq Ho. case_decide as Hqp.
  - subst q. unfold overlay. by apply Hbytes.
  - by apply (other_file_byte fs p q).
Qed.

(** A row of the store that belongs to a file is determined by the bytes of
    the file. *)
Lemma row_of_bytes blocks1 blocks2 file j :
  0 <= fe_num_blocks file ->
  j ∈ take (Z.to_nat (fe_num_blocks file)) (fe_blocks file) ->
  length blocks1.[j] = Z.to_nat BLOCK_SIZE -> length blocks2.[j] = Z.to_nat BLOCK_SIZE ->
  (∀ o, 0 <= o < fe_num_blocks file * BLOCK_SIZE ->
        file_byte blocks1 file o = file_byte blocks2 file o) ->
  blocks1.[j] = blocks2.[j].
Proof.
  intros Hnb Hin Hlen1 Hlen2 Hbytes.
  apply list_elem_of_lookup in Hin as [c Hc].
  pose proof (lookup_lt_Some _ _ _ Hc) as Hlt. rewrite length_take in Hlt.
  rewrite lookup_take_lt in Hc by lia.
  assert ((fe_blocks file).[Z.of_nat c] = j) as Hj.
  { unfold aget. rewrite Nat2Z.id. by apply list_lookup_total_correct. }
  apply list_eq_aget; [lia|]. intros m Hm. rewrite Hlen1 in Hm.
  specialize (Hbytes (Z.of_nat c * BLOCK_SIZE + m)).
  rewrite !file_byte_in_block, Hj in Hbytes by zlia. apply Hbytes. zlia.
Qed.

Lemma row_length fs b :
  fs_inv fs -> 0 <= b < MAX_BLOCKS -> length (fs_blocks fs).[b] = Z.to_nat BLOCK_SIZE.
Proof.
  intros Hinv Hb. pose proof (inv_block_len _ Hinv) as Hrows.
  rewrite Forall_forall in Hrows. apply Hrows. unfold aget.
  apply list_elem_of_lookup. exists (Z.to_nat b). apply list_lookup_lookup_total_lt.
  rewrite (inv_blocks_len _ Hinv). lia.
Qed.

(** Two stores over the same table are equal when they agree on the bytes of
    every live file and on the rows that belong to none of [p1] and [p2]. *)
Lemma store_ext fs blocks1 blocks2 p1 p2 :
  fs_inv (set_blocks fs blocks1) -> fs_inv (set_blocks fs blocks2) ->
  (p1 < length (file_table fs))%nat -> (p2 < length (file_table fs))%nat ->
  fe_in_use (file_table fs !!! p1) = true -> fe_in_use (file_table fs !!! p2) = true ->
  (∀ b, 0 <= b -> b ∉ owned_blocks (file_table fs !!! p1) ->
        b ∉ owned_blocks (file_table fs !!! p2) -> blocks1.[b] = blocks2.[b]) ->
  (∀ q o, (q < length (file_table fs))%nat -> fe_in_use (file_table fs !!! q) = true ->
          0 <= o < fe_num_blocks (file_table fs !!! q) * BLOCK_SIZE ->
          file_byte blocks1 (file_table fs !!! q) o =
          file_byte blocks2 (file_table fs !!! q) o) ->
  blocks1 = blocks2.
Proof.
  intros Hinv1 Hinv2 Hp1 Hp2 Hu1 Hu2 Hrest Hbytes.
  pose proof (inv_blocks_len _ Hinv1) as Hlen1.
  pose proof (inv_blocks_len _ Hinv2) as Hlen2. cbn in Hlen1, Hlen2.
  apply list_eq_aget; [congruence|]. intros j Hj.
  assert (Hrow : ∀ p, (p < length (file_table fs))%nat ->
    fe_in_use (file_table fs !!! p) = true ->
    j ∈ owned_blocks (file_table fs !!! p) -> blocks1.[j] = blocks2.[j]).
  { intros p Hp Hu Hin.
    pose proof (live_entry_facts _ p Hinv1 Hp Hu) as Hfacts. cbv zeta in Hfacts.
    cbn [set_blocks file_table] in Hfacts.
    destruct Hfacts as (_ & _ & Hnb & _ & Hown & _).
    rewrite Hown in Hin.
    apply (row_of_bytes _ _ (file_table fs !!! p)); [lia|done| | |].
    - apply (row_length _ j Hinv1). zlia.
    - apply (row_length _ j Hinv2). zlia.
    - intros o Ho. by apply Hbytes. }
  destruct (decide (j ∈ owned_blocks (file_table fs !!! p1))) as [Hin1|Hout1];
    [by apply (Hrow p1)|].
  destruct (decide (j ∈ owned_blocks (file_table fs !!! p2))) as [Hin2|Hout2];
    [by apply (Hrow p2)|].
  apply Hrest; [lia|done|done].
Qed.

(** X16 ([write_file]).  Two writes that fit their files, to different files
    or to ranges of one file that do not overlap, can be made in either
    order: both orders succeed and leave the same state. *)
Theorem X16_writes_commute fs name1 p1 offset1 data1 name2 p2 offset2 data2 :
  reachable fs ->
  find_file fs name1 = Some p1 -> find_file fs name2 = Some p2 ->
  0 <= offset1 -> offset1 + strlen data1 <= fe_size (file_table fs !!! p1) ->
  0 <= offset2 -> offset2 + strlen data2 <= fe_size (file_table fs !!! p2) ->
  p1 ≠ p2 ∨ offset1 + strlen data1 <= offset2 ∨ offset2 + strlen data2 <= offset1 ->
  let w1 := write_file fs (Some name1) offset1 (Some data1) in
  let w12 := write_file w1.2 (Some name2) offset2 (Some data2) in
  let w2 := write_file fs (Some name2) offset2 (Some data2) in
  let w21 := write_file w2.2 (Some name1) offset1 (Some data1) in
  w1.1.1 = 0 ∧ w12.1.1 = 0 ∧ w2.1.1 = 0 ∧ w21.1.1 = 0 ∧ w12.2 = w21.2.
Proof.
  intros Hreach Hfind1 Hfind2 Hoff1 Hfit1 Hoff2 Hfit2 Hsep.
  pose proof (reachable_inv _ Hreach) as Hinv.
  pose proof (find_file_Some _ _ _ Hfind1) as (Hp1 & Hu1 & _).
  pose proof (find_file_Some _ _ _ Hfind2) as (Hp2 & Hu2 & _).
  destruct (write_file_spec fs name1 p1 offset1 data1 Hinv Hfind1 Hoff1 Hfit1)
    as (A & HwA & HinvA & HframeA & HbytesA).
  destruct (write_file_spec fs name2 p2 offset2 data2 Hinv Hfind2 Hoff2 Hfit2)
    as (B & HwB & HinvB & HframeB & HbytesB).
  destruct (write_file_spec (set_blocks fs A) name2 p2 offset2 data2 HinvA Hfind2 Hoff2 Hfit2)
    as (AB & HwAB & HinvAB & HframeAB & HbytesAB).
  destruct (write_file_spec (set_blocks fs B) name1 p1 offset1 data1 HinvB Hfind1 Hoff1 Hfit1)
    as (BA & HwBA & HinvBA & HframeBA & HbytesBA).
  cbn [set_blocks file_table fs_blocks] in HframeAB, HbytesAB, HframeBA, HbytesBA.
  cbv zeta. rewrite HwA. cbn [fst snd]. rewrite HwAB. rewrite HwB. cbn [fst snd].
  rewrite HwBA. cbn [fst snd].
  do 4 (split; [done|]).
  unfold set_blocks. cbn [fs_blocks block_map file_table num_files used_blocks total_storage].
  f_equal.
  apply (store_ext fs AB BA p1 p2); try done.
  - intros b Hb Hout1 Hout2.
    rewrite HframeAB, HframeA, HframeBA, HframeB by done. done.
  - intros q o Hq Hu Ho.
    rewrite HbytesAB, HbytesBA by done. unfold overlay.
    rewrite HbytesA, HbytesB by done. unfold overlay.
    repeat case_decide; try done; subst; lia.
Qed.

Lemma X16_writes_commute_witness :
  let w1 := write_file fs_fragmented (Some [98]) 3 (Some [120; 121]) in
  let w12 := write_file w1.2 (Some [100]) 600 (Some [122]) in
  let w2 := write_file fs_fragmented (Some [100]) 600 (Some [122]) in
  let w21 := write_file w2.2 (Some [98]) 3 (Some [120; 121]) in
  w1.1.1 = 0 ∧ w12.1.1 = 0 ∧ w2.1.1 = 0 ∧ w21.1.1 = 0 ∧ w12.2 = w21.2.
Proof.
  apply (X16_writes_commute fs_fragmented [98] 1 3 [120; 121] [100] 3 600 [122]).
  - apply reachable_fs_fragmented.
  - vm_compute. reflexivity.
  - vm_compute. reflexivity.
  - lia.
  - apply Z.leb_le. vm_compute. reflexivity.
  - lia.
  - apply Z.leb_le. vm_compute. reflexivity.
  - left. lia.
Defined.

(** X17 ([write_file]).  A write to a range of a file that covers the range
    of an earlier write to that file leaves the state that the later write
    alone leaves; in particular a write repeated leaves the state as the
    first one left it. *)
Theorem X17_write_covers_earlier fs name p offset1 data1 offset2 data2 :
  reachable fs -> find_file fs name = Some p ->
  0 <= offset1 -> 0 <= offset2 ->
  offset2 + strlen data2 <= fe_size (file_table fs !!! p) ->
  offset2 <= offset1 -> offset1 + strlen data1 <= offset2 + strlen data2 ->
  let w1 := write_file fs (Some name) offset1 (Some data1) in
  let w12 := write_file w1.2 (Some name) offset2 (Some data2) in
  let w2 := write_file fs (Some name) offset2 (Some data2) in
  w1.1.1 = 0 ∧ w12.1.1 = 0 ∧ w2.1.1 = 0 ∧ w12.2 = w2.2.
Proof.
  intros Hreach Hfind Hoff1 Hoff2 Hfit2 Hle Hcover.
  pose proof (reachable_inv _ Hreach) as Hinv.
  pose proof (find_file_Some _ _ _ Hfind) as (Hp & Hu & _).
  assert (offset1 + strlen data1 <= fe_size (file_table fs !!! p)) as Hfit1 by lia.
  destruct (write_file_spec fs name p offset1 data1 Hinv Hfind Hoff1 Hfit1)
    as (A & HwA & HinvA & HframeA & HbytesA).
  destruct (write_file_spec fs name p offset2 data2 Hinv Hfind Hoff2 Hfit2)
    as (B & HwB & HinvB & HframeB & HbytesB).
  destruct (write_file_spec (set_blocks fs A) name p offset2 data2 HinvA Hfind Hoff2 Hfit2)
    as (AB & HwAB & HinvAB & HframeAB & HbytesAB).
  cbn [set_blocks file_table fs_blocks] in HframeAB, HbytesAB.
  cbv zeta. rewrite HwA. cbn [fst snd]. rewrite HwAB. rewrite HwB. cbn [fst snd].
  do 3 (split; [done|]).
  unfold set_blocks. cbn [fs_blocks block_map file_table num_files used_blocks total_storage].
  f_equal.
  apply (store_ext fs AB B p p); try done.
  - intros b Hb Hout _. rewrite HframeAB, HframeA, HframeB by done. done.
  - intros q o Hq Huq Ho.
    rewrite HbytesAB, HbytesB by done. unfold overlay.
    rewrite HbytesA by done. unfold overlay.
    repeat case_decide; try done; subst; lia.
Qed.

Lemma X17_write_covers_earlier_witness :
  let w1 := write_file fs_f10 (Some name_f) 3 (Some [120; 121]) in
  let w12 := write_file w1.2 (Some name_f) 2 (Some [97; 98; 99; 100]) in
  let w2 := write_file fs_f10 (Some name_f) 2 (Some [97; 98; 99; 100]) in
  w1.1.1 = 0 ∧ w12.1.1 = 0 ∧ w2.1.1 = 0 ∧ w12.2 = w2.2.
Proof.
  apply (X17_write_covers_earlier fs_f10 name_f 0 3 [120; 121] 2 [97; 98; 99; 100]).
  - apply reachable_fs_f10.
  - vm_compute. reflexivity.
  - lia.
  - lia.
  - apply Z.leb_le. vm_compute. reflexivity.
  - lia.
  - apply Z.leb_le. vm_compute. reflexivity.
Defined.

(** ** delete_file makes room *)

(** X18 ([delete_file], [create_file]).  After an existing file was deleted
    in a reachable state, a file that is not larger than the deleted one
    can be created under any non-empty name that is not found then: the
    call succeeds whatever the fill of the system was, and the slot it
    takes is the freed one or a lower one. *)
Theorem X18_delete_makes_room fs name p name2 size2 :
  reachable fs -> find_file fs name = Some p ->
  let fs' := (delete_file fs (Some name)).2 in
  strlen name2 ≠ 0 -> 0 < size2 <= fe_size (file_table fs !!! p) ->
  find_file fs' name2 = None ->
  (create_file fs' (Some name2) size2).1.1 = 0 ∧
  ∃ p', free_slot_from (file_table fs') 0 = Some p' ∧ (p' <= p)%nat.
Proof.
  intros Hreach Hfind. pose proof (reachable_inv _ Hreach) as Hinv. cbv zeta.
  rewrite (delete_file_found fs name p Hinv Hfind). cbn [snd].
  intros Hname2 Hsize2 Hnone.
  pose proof (find_file_Some _ _ _ Hfind) as (Hp & Hu & _).
  pose proof (deleted_inv fs p Hinv Hp Hu) as Hinv'.
  pose proof (live_entry_facts fs p Hinv Hp Hu) as Hfacts. cbv zeta in Hfacts.
  destruct Hfacts as (Hs & Hnb & _).
  pose proof (live_bounds _ (inv_entries _ Hinv)) as (Hf & _ & _).
  rewrite <- (inv_num_files _ Hinv), (inv_table_len _ Hinv) in Hf.
  pose proof (count_occupied_bounds (block_map fs)) as Hc.
  rewrite <- (inv_used _ Hinv), (inv_map_len _ Hinv) in Hc.
  assert (is_size_t size2) as Hsize_t by zlia.
  assert ((create_file (deleted fs p) (Some name2) size2).1.1 = 0) as Hret.
  { apply (create_file_succeeds (deleted fs p) name2 size2 Hinv' Hsize_t).
    unfold deleted. cbv zeta. cbn [num_files used_blocks].
    split; [done|]. split; [zlia|]. split; [done|]. split; [zlia|].
    rewrite Hnb. unfold blocks_for. zlia. }
  split; [done|].
  destruct (create_file_created _ _ _ Hinv' Hsize_t Hret) as (p' & _ & _ & _ & _ & Hslot & _).
  exists p'. split; [done|].
  destruct (free_slot_lowest _ _ Hslot) as (_ & _ & Hfirst).
  destruct (decide (p' <= p)%nat) as [|Hgt]; [done|].
  specialize (Hfirst p ltac:(lia)). unfold deleted in Hfirst. cbv zeta in Hfirst.
  cbn [file_table] in Hfirst. rewrite list_lookup_total_insert_eq in Hfirst by done.
  done.
Qed.

Lemma X18_delete_makes_room_witness :
  let fs' := (delete_file fs_fragmented (Some [98])).2 in
  (create_file fs' (Some [101]) 512).1.1 = 0 ∧
  ∃ p', free_slot_from (file_table fs') 0 = Some p' ∧ (p' <= 1)%nat.
Proof.
  apply (X18_delete_makes_room fs_fragmented [98] 1 [101] 512).
  - apply reachable_fs_fragmented.
  - vm_compute. reflexivity.
  - cbn. lia.
  - split; [lia|]. apply Z.leb_le. vm_compute. reflexivity.
  - vm_compute. reflexivity.
Defined.

(** ** allocate_blocks followed by free_blocks *)

(** X19 ([allocate_blocks], [free_blocks]).  When the counter of used blocks
    equals the number of occupied entries of the map and a request can be
    served, releasing the blocks just allocated restores the block map and
    the counter; the blocks handed out are left all zero and no other block
    is written. *)
Theorem X19_allocate_then_free fs n block_list :
  length (fs_blocks fs) = Z.to_nat MAX_BLOCKS ->
  length (block_map fs) = Z.to_nat MAX_BLOCKS ->
  used_blocks fs = count_occupied (block_map fs) ->
  0 < n <= MAX_BLOCKS -> used_blocks fs + n <= MAX_BLOCKS ->
  (Z.to_nat n <= length block_list)%nat ->
  let r := allocate_blocks fs n block_list in
  let fs2 := free_blocks r.1.2 r.1.1 r.2 in
  block_map fs2 = block_map fs ∧
  used_blocks fs2 = used_blocks fs ∧
  (∀ b, b ∈ take (Z.to_nat n) r.2 -> (fs_blocks fs2).[b] = zero_block) ∧
  (∀ b, 0 <= b -> b ∉ take (Z.to_nat n) r.2 -> (fs_blocks fs2).[b] = (fs_blocks fs).[b]) ∧
  file_table fs2 = file_table fs ∧
  num_files fs2 = num_files fs ∧
  total_storage fs2 = total_storage fs.
Proof.
  intros Hblocks Hmap Hused Hn Hroom Hlist. cbv zeta.
  destruct (allocate_blocks_ok fs n block_list Hmap Hused Hn Hroom) as (l & -> & Hl & Hchoice).
  destruct (alloc_choice_free _ _ _ (proj1 Hn) Hchoice) as [Hnodup Hfree].
  cbn [fst snd].
  assert (take (Z.to_nat n) (list_inserts 0 l block_list) = l) as Htake.
  { rewrite <- (take_drop (length l) block_list).
    rewrite list_inserts_0_r by (rewrite length_take; lia).
    rewrite <- Hl, Nat2Z.id. by rewrite take_app_length. }
  rewrite Htake.
  pose proof (count_occupied_bounds (block_map fs)) as Hc.
  rewrite <- Hused, Hmap in Hc.
  assert (Forall (fun b => 0 <= b ∧ (Z.to_nat b < length (block_map fs))%nat ∧
                           (block_map fs).[b] = false) l) as Hfree'.
  { eapply Forall_impl; [apply Hfree|]. cbn. intros b [Hb Hbfree].
    split; [lia|]. split; [rewrite Hmap; lia|done]. }
  unfold free_blocks. cbn [set_alloc fs_blocks block_map used_blocks file_table
                           num_files total_storage].
  rewrite free_loop_eq.
  - change (Z.to_nat 0) with 0%nat. rewrite drop_0, Htake.
    cbn [fs_blocks block_map used_blocks file_table num_files total_storage].
    split; [by apply mark_undo|]. split; [lia|]. split; [|split; [|done]].
    + intros b Hin. apply aget_mark_in; [|done].
      eapply Forall_impl; [apply Hfree|]. cbn. intros x [Hx _].
      split; [lia|]. rewrite Hblocks. lia.
    + intros b Hb Hnotin. apply aget_mark_notin; [done| |done].
      eapply Forall_impl; [apply Hfree|]. cbn. intros; lia.
  - lia.
  - rewrite length_inserts. cbn. lia.
  - change (Z.to_nat 0) with 0%nat. by rewrite drop_0, Htake.
  - change (Z.to_nat 0) with 0%nat. rewrite drop_0, Htake.
    apply Forall_forall. intros b Hin. rewrite Forall_forall in Hfree'.
    destruct (Hfree' b Hin) as (Hb & Hlt & _).
    rewrite Forall_forall in Hfree. destruct (Hfree b Hin) as [Hb' _].
    split; [done|]. split; [by rewrite length_mark|].
    apply aget_mark_in; [|done]. apply Forall_forall. intros x Hx.
    destruct (Hfree' x Hx) as (? & ? & _). done.
  - zlia.
Qed.

Lemma X19_allocate_then_free_witness :
  let r := allocate_blocks fs_fragmented 2 [9; 9; 9] in
  let fs2 := free_blocks r.1.2 r.1.1 r.2 in
  block_map fs2 = block_map fs_fragmented ∧
  used_blocks fs2 = used_blocks fs_fragmented ∧
  (∀ b, b ∈ take (Z.to_nat 2) r.2 -> (fs_blocks fs2).[b] = zero_block) ∧
  (∀ b, 0 <= b -> b ∉ take (Z.to_nat 2) r.2 ->
        (fs_blocks fs2).[b] = (fs_blocks fs_fragmented).[b]) ∧
  file_table fs2 = file_table fs_fragmented ∧
  num_files fs2 = num_files fs_fragmented ∧
  total_storage fs2 = total_storage fs_fragmented.
Proof.
  apply (X19_allocate_then_free fs_fragmented 2 [9; 9; 9]).
  - vm_compute. reflexivity.
  - vm_compute. reflexivity.
  - vm_compute. reflexivity.
  - unfold_consts. lia.
  - apply Z.leb_le. vm_compute. reflexivity.
  - cbn. lia.
Defined.

(** ** Names of live entries *)

Lemma write_file_table fs filename offset data :
  file_table (write_file fs filename offset data).2 = file_table fs.
Proof.
  unfold write_file.
  destruct filename as [name|]; [|done]. destruct data as [data|]; [|done].
  destruct (find_file fs name) as [p|]; [|done]. cbv zeta.
  destruct (offset >? fe_size (file_table fs !!! p)); [done|].
  destruct (wadd offset (strlen data) >? fe_size (file_table fs !!! p)); [done|].
  by destruct (write_loop _ _ _ _ _ _ _ _).
Qed.

Lemma names_unique_table fs fs' :
  file_table fs' = file_table fs -> names_unique fs -> names_unique fs'.
Proof. unfold names_unique. intros ->. done. Qed.

Lemma names_unique_created fs p0 name size l :
  fs_inv fs -> find_file fs name = None ->
  free_slot_from (file_table fs) 0 = Some p0 -> strlen name < MAX_FILENAME ->
  names_unique fs -> names_unique (created fs p0 name size l).
Proof.
  intros Hinv Hnone Hslot Hshort Huniq.
  destruct (free_slot_lowest fs p0 Hslot) as (Hp0 & _ & _).
  destruct (entry_lengths fs p0 Hinv Hp0) as (Hflen & _).
  pose proof (find_file_from_first (file_table fs) name 0) as Hfirst.
  unfold find_file in Hnone. rewrite Hnone in Hfirst.
  assert (Hnew : cstr (fe_filename (file_table (created fs p0 name size l) !!! p0)) =
                 cstr name).
  { unfold created. cbv zeta. cbn [file_table].
    rewrite list_lookup_total_insert_eq by done.
    cbn [create_entry set_entry_blocks fe_filename]. by apply stored_name. }
  assert (Hold : ∀ q, q ≠ p0 ->
    file_table (created fs p0 name size l) !!! q = file_table fs !!! q).
  { intros q Hq. unfold created. cbv zeta. cbn [file_table].
    by rewrite list_lookup_total_insert_ne. }
  assert (length (file_table (created fs p0 name size l)) = length (file_table fs)) as Hlen.
  { unfold created. cbv zeta. cbn [file_table]. apply length_insert. }
  intros p q Hp Hq Hup Huq Heq. rewrite Hlen in Hp, Hq.
  destruct (decide (p = p0)) as [->|Hpne]; destruct (decide (q = p0)) as [->|Hqne];
    [done| | |].
  - rewrite Hnew, (Hold q) in Heq by done. rewrite (Hold q) in Huq by done.
    exfalso. apply (Hfirst q Hq). by split.
  - rewrite Hnew, (Hold p) in Heq by done. rewrite (Hold p) in Hup by done.
    exfalso. apply (Hfirst p Hp). by split.
  - rewrite (Hold p), (Hold q) in Heq by done.
    rewrite (Hold p) in Hup by done. rewrite (Hold q) in Huq by done. by apply Huniq.
Qed.

Lemma names_unique_deleted fs p0 :
  (p0 < length (file_table fs))%nat -> names_unique fs -> names_unique (deleted fs p0).
Proof.
  intros Hp0 Huniq p q. unfold deleted. cbv zeta. cbn [file_table].
  rewrite length_insert. intros Hp Hq Hup Huq Heq.
  destruct (decide (p = p0)) as [->|Hpne].
  { by rewrite list_lookup_total_insert_eq in Hup. }
  destruct (decide (q = p0)) as [->|Hqne].
  { by rewrite list_lookup_total_insert_eq in Huq. }
  rewrite (list_lookup_total_insert_ne _ p0 p), (list_lookup_total_insert_ne _ p0 q)
    in Heq by done.
  rewrite (list_lookup_total_insert_ne _ p0 p) in Hup by done.
  rewrite (list_lookup_total_insert_ne _ p0 q) in Huq by done. by apply Huniq.
Qed.

Lemma names_unique_init fs : names_unique (init_filesystem fs).2.
Proof.
  intros p q Hp _ Hup _ _. cbn [init_filesystem snd file_table] in Hp, Hup.
  rewrite length_fmap in Hp.
  rewrite (list_lookup_total_fmap init_entry (file_table fs) p) in Hup by done. done.
Qed.

Lemma names_unique_step fs c :
  fs_inv fs -> call_ok c -> short_name c -> names_unique fs -> names_unique (step fs c).
Proof.
  intros Hinv Hok Hshort Huniq. destruct c as [[name|] size| | |[name|]|]; cbn [step]; try done.
  - cbn in Hok, Hshort.
    destruct (create_file_cases fs name size Hinv Hok)
      as [[_ ->]|(p & l & _ & _ & Hnone & Hslot & _ & _ & ->)]; [done|].
    by apply names_unique_created.
  - apply (names_unique_table fs); [apply write_file_table|done].
  - unfold delete_file. destruct (find_file fs name) as [p|] eqn:Hfind; [|done].
    pose proof (delete_file_found fs name p Hinv Hfind) as Hdel.
    unfold delete_file in Hdel. rewrite Hfind in Hdel. rewrite Hdel. cbn [snd].
    apply names_unique_deleted; [|done]. by apply find_file_Some in Hfind as (? & _).
Qed.

(** X20 (names).  The state [init_filesystem] leaves has no two live entries
    with the same name, and a call in a reachable state keeps that so,
    provided that a call of [create_file] is given a name shorter than
    MAX_FILENAME characters. *)
Theorem X20_names_stay_unique fs c :
  reachable fs -> call_ok c -> short_name c -> names_unique fs ->
  names_unique (init_filesystem fs_static).2 ∧ names_unique (step fs c).
Proof.
  intros Hreach Hok Hshort Huniq. split; [apply names_unique_init|].
  apply names_unique_step; [by apply reachable_inv|done..].
Qed.

Lemma X20_names_stay_unique_witness :
  names_unique (init_filesystem fs_static).2 ∧
  names_unique (step fs_init (Create (Some name_f) 10)).
Proof.
  apply (X20_names_stay_unique fs_init (Create (Some name_f) 10)).
  - apply reach_init.
  - cbn. zlia.
  - cbn. zlia.
  - apply names_unique_init.
Defined.

(** X21 ([delete_file], [find_file]).  In a reachable state in which no two
    live entries have the same name, a file that was deleted is gone: its
    name is not found afterwards, and a second [delete_file] of the name
    fails and leaves the state as it is. *)
Theorem X21_deleted_name_not_found fs name p :
  reachable fs -> names_unique fs -> find_file fs name = Some p ->
  let fs' := (delete_file fs (Some name)).2 in
  find_file fs' name = None ∧
  delete_file fs' (Some name) = (-1, [ErrNotFound name], fs').
Proof.
  intros Hreach Huniq Hfind. pose proof (reachable_inv _ Hreach) as Hinv. cbv zeta.
  rewrite (delete_file_found fs name p Hinv Hfind). cbn [snd].
  pose proof (find_file_Some _ _ _ Hfind) as (Hp & Hu & Hs).
  apply bool_decide_eq_true in Hs.
  assert (find_file (deleted fs p) name = None) as Hnone.
  { destruct (find_file (deleted fs p) name) as [q|] eqn:Hagain; [|done]. exfalso.
    apply find_file_Some in Hagain as (Hq & Huq & Hsq).
    apply bool_decide_eq_true in Hsq.
    unfold deleted in Hq, Huq, Hsq. cbv zeta in Hq, Huq, Hsq.
    cbn [file_table] in Hq, Huq, Hsq. rewrite length_insert in Hq.
    destruct (decide (q = p)) as [->|Hne].
    - by rewrite list_lookup_total_insert_eq in Huq.
    - rewrite list_lookup_total_insert_ne in Huq, Hsq by done.
      apply Hne, Huniq; [done..|]. by rewrite Hs, Hsq. }
  split; [done|]. unfold delete_file. by rewrite Hnone.
Qed.

Lemma X21_deleted_name_not_found_witness :
  let fs' := (delete_file fs_f10 (Some name_f)).2 in
  find_file fs' name_f = None ∧
  delete_file fs' (Some name_f) = (-1, [ErrNotFound name_f], fs').
Proof.
  apply (X21_deleted_name_not_found fs_f10 name_f 0).
  - apply reachable_fs_f10.
  - apply (names_unique_step fs_init (Create (Some name_f) 10)).
    + apply reachable_inv, reach_init.
    + cbn. zlia.
    + cbn. zlia.
    + apply names_unique_init.
  - vm_compute. reflexivity.
Defined.

(** * Files and the calls that do not name them *)

(** ** Calls that do not name a file leave it alone *)

(** The rows of the store that [write_file] leaves alone. *)
Lemma write_file_rows fs filename offset data b :
  fs_inv fs -> 0 <= offset -> 0 <= b ->
  (∀ n q, filename = Some n -> find_file fs n = Some q ->
          b ∉ owned_blocks (file_table fs !!! q)) ->
  (fs_blocks (write_file fs filename offset data).2).[b] = (fs_blocks fs).[b].
Proof.
  intros Hinv Hoff Hb Hother. unfold write_file.
  destruct filename as [n|]; [|done]. destruct data as [data|]; [|done].
  destruct (find_file fs n) as [q|] eqn:Hfind; [|done]. cbv zeta.
  destruct (offset >? fe_size (file_table fs !!! q)); [done|].
  destruct (wadd offset (strlen data) >? fe_size (file_table fs !!! q)); [done|].
  pose proof (find_file_Some _ _ _ Hfind) as (Hq & Hu & _).
  pose proof (live_entry_facts fs q Hinv Hq Hu) as Hfacts. cbv zeta in Hfacts.
  destruct Hfacts as (_ & _ & Hnb & Hlen & Hown & _).
  destruct (entry_lengths fs q Hinv Hq) as (_ & _ & Hpos).
  pose proof (write_loop_frame (fs_blocks fs) (file_table fs !!! q) data (strlen data) 0
                (offset / BLOCK_SIZE) (offset mod BLOCK_SIZE)
                (Z.to_nat (fe_num_blocks (file_table fs !!! q)))) as Hframe.
  cbv zeta in Hframe.
  destruct Hframe as (_ & _ & Hframe);
    [zlia | lia | rewrite Hlen; zlia | done | apply Hinv |].
  destruct (write_loop _ _ _ _ _ _ _ _) as [blocks' bw]. cbn [fst snd] in *.
  cbn [set_blocks fs_blocks]. apply Hframe; [done|]. rewrite <- Hown. by apply (Hother n).
Qed.

(** Two names that resolve to the same slot are the same string. *)
Lemma find_file_same_slot fs n name p :
  find_file fs n = Some p -> find_file fs name = Some p -> cstr n = cstr name.
Proof.
  intros Hn Hname.
  apply find_file_Some in Hn as (_ & _ & Hn). apply find_file_Some in Hname as (_ & _ & Hname).
  apply bool_decide_eq_true in Hn, Hname. congruence.
Qed.

Lemma owned_block_facts fs p b :
  fs_inv fs -> (p < length (file_table fs))%nat -> fe_in_use (file_table fs !!! p) = true ->
  b ∈ owned_blocks (file_table fs !!! p) -> 0 <= b < MAX_BLOCKS.
Proof.
  intros Hinv Hp Hu Hin. destruct (inv_blocks_disjoint fs Hinv) as [_ Hocc].
  by destruct (Hocc p b Hp Hin).
Qed.

(** One call that does not name the file in slot [p]: the name still
    resolves to [p], the entry is the same, and so is every block of the
    file. *)
Lemma other_call_keeps fs name p c :
  fs_inv fs -> find_file fs name = Some p -> call_ok c -> ¬ names_file name c ->
  find_file (step fs c) name = Some p ∧
  file_table (step fs c) !!! p = file_table fs !!! p ∧
  ∀ b, b ∈ owned_blocks (file_table fs !!! p) ->
       (fs_blocks (step fs c)).[b] = (fs_blocks fs).[b].
Proof.
  intros Hinv Hfind Hok Hother.
  pose proof (find_file_Some _ _ _ Hfind) as (Hp & Hu & Hs).
  apply bool_decide_eq_true in Hs.
  destruct (inv_blocks_disjoint fs Hinv) as [Hdisj _].
  destruct c as [[n|] size|filename offset data| |[n|]|]; cbn [step]; try done.
  - (* create_file *)
    cbn in Hok, Hother.
    destruct (create_file_cases fs n size Hinv Hok)
      as [[_ ->]|(p' & l & _ & _ & Hnone & Hslot & _ & _ & ->)]; [done|]. cbn [snd].
    destruct (free_slot_lowest fs p' Hslot) as (Hp' & Hfree & _).
    destruct (entry_lengths fs p' Hinv Hp') as (Hflen & _).
    assert (p' ≠ p) as Hne by (intros ->; congruence).
    unfold find_file, created. cbv zeta. cbn [file_table fs_blocks].
    split; [|split; [|done]].
    + rewrite find_file_from_insert_other; [done|done|].
      cbn [create_entry set_entry_blocks fe_filename].
      rewrite stored_name_take by done. by intros [_ Heq].
    + by rewrite list_lookup_total_insert_ne.
  - (* write_file *)
    cbn in Hok. unfold find_file. rewrite write_file_table.
    split; [done|]. split; [done|].
    intros b Hin. pose proof (owned_block_facts fs p b Hinv Hp Hu Hin) as Hb.
    apply write_file_rows; [done|zlia|lia|].
    intros n q -> Hq.
    assert (q ≠ p) as Hne.
    { intros ->. apply Hother. cbn. by apply (find_file_same_slot fs n name p). }
    pose proof (find_file_Some _ _ _ Hq) as (Hq' & _).
    by apply (Hdisj p q).
  - (* delete_file *)
    cbn in Hother. unfold delete_file.
    destruct (find_file fs n) as [q|] eqn:Hq; [|done].
    pose proof (delete_file_found fs n q Hinv Hq) as Hdel.
    unfold delete_file in Hdel. rewrite Hq in Hdel. rewrite Hdel. cbn [snd].
    assert (q ≠ p) as Hne.
    { intros ->. apply Hother. by apply (find_file_same_slot fs n name p). }
    pose proof (find_file_Some _ _ _ Hq) as (Hq' & Huq & _).
    pose proof (live_entry_facts fs q Hinv Hq' Huq) as Hfacts. cbv zeta in Hfacts.
    destruct Hfacts as (_ & _ & _ & _ & Hown & _ & _ & Hocc & _).
    rewrite <- Hown in Hocc.
    unfold find_file, deleted in *. cbv zeta. cbn [file_table fs_blocks].
    split; [|split].
    + rewrite find_file_from_insert_free; [done|done|]. rewrite Hfind. intros [= ->]. done.
    + by rewrite list_lookup_total_insert_ne.
    + intros b Hin. pose proof (owned_block_facts fs p b Hinv Hp Hu Hin) as Hb.
      apply aget_mark_notin; [lia| |by apply (Hdisj p q)].
      eapply Forall_impl; [apply Hocc|]. cbn. intros; lia.
Qed.

(** The same for a list of calls. *)
Lemma other_calls_keep name p calls : ∀ fs,
  fs_inv fs -> find_file fs name = Some p -> other_calls name calls ->
  fs_inv (run fs calls) ∧
  find_file (run fs calls) name = Some p ∧
  file_table (run fs calls) !!! p = file_table fs !!! p ∧
  ∀ b, b ∈ owned_blocks (file_table fs !!! p) ->
       (fs_blocks (run fs calls)).[b] = (fs_blocks fs).[b].
Proof.
  unfold run.
  induction calls as [|c calls IH]; intros fs Hinv Hfind Hcalls; [done|].
  apply Forall_cons in Hcalls as [[Hok Hother] Hcalls]. cbn [foldl].
  destruct (other_call_keeps fs name p c Hinv Hfind Hok Hother) as (Hfind1 & Hentry1 & Hrows1).
  pose proof (step_inv fs c Hinv Hok) as Hinv1.
  destruct (IH (step fs c) Hinv1 Hfind1 Hcalls) as (Hinv2 & Hfind2 & Hentry2 & Hrows2).
  split; [done|]. split; [done|]. split; [congruence|].
  intros b Hin. rewrite Hrows2 by (by rewrite Hentry1). by apply Hrows1.
Qed.

Lemma reachable_run fs calls :
  reachable fs -> Forall call_ok calls -> reachable (run fs calls).
Proof.
  unfold run. revert fs. induction calls as [|c calls IH]; intros fs Hreach Hcalls; [done|].
  apply Forall_cons in Hcalls as [Hok Hcalls]. cbn [foldl].
  apply IH; [by apply reach_step|done].
Qed.

(** The bytes of a file in two stores that agree on its blocks. *)
Lemma file_bytes_rows fs p blocks' offset n :
  fs_inv fs -> (p < length (file_table fs))%nat -> fe_in_use (file_table fs !!! p) = true ->
  0 <= offset -> offset + n <= fe_num_blocks (file_table fs !!! p) * BLOCK_SIZE ->
  (∀ b, b ∈ owned_blocks (file_table fs !!! p) -> blocks'.[b] = (fs_blocks fs).[b]) ->
  file_bytes blocks' (file_table fs !!! p) offset n =
  file_bytes (fs_blocks fs) (file_table fs !!! p) offset n.
Proof.
  intros Hinv Hp Hu Hoff Hfit Hrows. unfold file_bytes.
  apply list_fmap_ext. intros i o Ho. apply lookup_seqZ in Ho as [-> Hi].
  unfold file_byte. rewrite Hrows; [done|].
  apply (file_block_owned fs p); [done..|lia].
Qed.

(** ** Reading back what was written, with calls in between *)

Lemma read_after_write_calls fs name p offset data calls buffer :
  fs_inv fs -> find_file fs name = Some p ->
  Forall (fun c => c ≠ 0) data -> data ≠ [] ->
  0 <= offset -> offset + Z.of_nat (length data) <= fe_size (file_table fs !!! p) ->
  other_calls name calls ->
  Z.of_nat (length data) < Z.of_nat (length buffer) ->
  let w := write_file fs (Some name) offset (Some data) in
  w.1 = (0, [MsgWritten (Z.of_nat (length data)) name offset]) ∧
  read_file (run w.2 calls) (Some name) offset (Z.of_nat (length data)) (Some buffer) =
  (0, [MsgRead (Z.of_nat (length data)) name offset],
   Some (data ++ 0 :: drop (S (length data)) buffer)).
Proof.
  intros Hinv Hfind Hnz Hne Hoff Hfit Hcalls Hbuf.
  pose proof (strlen_no_zero _ Hnz) as Hlen.
  assert (0 < Z.of_nat (length data)) as Hpos by (destruct data; [done|cbn; lia]).
  pose proof (find_file_Some _ _ _ Hfind) as (Hp & Hu & _).
  destruct (write_file_ok fs name p offset data Hinv Hfind Hoff ltac:(lia))
    as (blocks' & Hw & Hst' & Hbytes).
  cbn zeta. rewrite Hw, Hlen. cbn [fst snd]. split; [done|].
  destruct (inv_file_stored fs p Hinv Hp Hu) as (_ & Hs & Hcap).
  assert (fs_inv (set_blocks fs blocks')) as Hinv'.
  { assert (is_size_t offset) as Hoff' by zlia.
    pose proof (write_file_inv fs (Some name) offset (Some data) Hinv Hoff') as H.
    by rewrite Hw in H. }
  destruct (other_calls_keep name p calls (set_blocks fs blocks') Hinv' Hfind Hcalls)
    as (Hinv2 & Hfind2 & Hentry2 & Hrows2).
  cbn [set_blocks file_table fs_blocks] in Hentry2, Hrows2.
  rewrite (read_file_ok _ name p); rewrite ?Hentry2; [| done | done | lia | lia | zlia | lia].
  replace (Z.of_nat (length data) `min` (fe_size (file_table fs !!! p) - offset))
    with (Z.of_nat (length data)) by lia.
  destruct (Z.gtb_spec (offset + Z.of_nat (length data)) (fe_size (file_table fs !!! p)));
    [lia|].
  rewrite Nat2Z.id. cbn [app]. do 3 f_equal.
  rewrite (file_bytes_rows (set_blocks fs blocks') p); [|done|done|done|done|cbn; lia|done].
  cbn [set_blocks file_table fs_blocks].
  apply list_eq_aget; [rewrite length_file_bytes; lia|]. intros j Hj.
  rewrite length_file_bytes in Hj. rewrite aget_file_bytes by lia.
  rewrite Hbytes by lia. rewrite Hlen. case_decide; [|lia]. f_equal. lia.
Qed.

(** C1 (amended): a file created with size [S] under a name that fits the
    entry, then written at offset [O] with a non-empty string [data] of
    length [L] that holds no zero byte, [O + L <= S], reads back at [O] for
    [L] bytes as exactly [data], followed in the buffer by the terminator.
    Calls may come between the create and the write and between the write
    and the read, as long as none of them names the file: none is a write or
    a delete under its name or a create whose name is stored as its name. *)
Theorem C1_round_trip fs name size offset data calls1 calls2 buffer :
  reachable fs -> is_size_t size ->
  (create_file fs (Some name) size).1.1 = 0 ->
  strlen name < MAX_FILENAME ->
  Forall (fun c => c ≠ 0) data -> data ≠ [] ->
  0 <= offset -> offset + Z.of_nat (length data) <= size ->
  Z.of_nat (length data) < Z.of_nat (length buffer) ->
  other_calls name calls1 -> other_calls name calls2 ->
  let fs1 := run (create_file fs (Some name) size).2 calls1 in
  let w := write_file fs1 (Some name) offset (Some data) in
  w.1.1 = 0 ∧
  read_file (run w.2 calls2) (Some name) offset (Z.of_nat (length data)) (Some buffer) =
  (0, [MsgRead (Z.of_nat (length data)) name offset],
   Some (data ++ 0 :: drop (S (length data)) buffer)).
Proof.
  intros Hreach Hsize Hc Hname Hnz Hne Hoff Hfit Hbuf Hcalls1 Hcalls2.
  pose proof (reachable_inv _ Hreach) as Hinv.
  destruct (create_file_cases fs name size Hinv Hsize)
    as [[Hfail _]|(p & l & _ & Hs & Hnone & Hslot & Hl & Hchoice & Hcreate)].
  { rewrite Hfail in Hc. done. }
  rewrite Hcreate. cbn [snd]. cbn zeta.
  pose proof (created_inv fs p name size l Hinv Hs Hslot Hl Hchoice) as Hinv1.
  pose proof (find_file_created fs p name size l Hinv Hnone Hslot Hname) as Hfind1.
  destruct (other_calls_keep name p calls1 _ Hinv1 Hfind1 Hcalls1)
    as (Hinv2 & Hfind2 & Hentry2 & _).
  assert (fe_size (file_table (run (created fs p name size l) calls1) !!! p) = size) as Hsz.
  { rewrite Hentry2. apply free_slot_from_Some in Hslot as [Hp _].
    unfold created. cbv zeta. cbn [file_table].
    rewrite list_lookup_total_insert_eq by lia. done. }
  destruct (read_after_write_calls (run (created fs p name size l) calls1)
              name p offset data calls2 buffer) as [Hw Hr]; try done.
  { by rewrite Hsz. }
  split; [by rewrite Hw|done].
Qed.

Lemma C1_round_trip_witness :
  let fs1 := run fs_f10 [Create (Some name_g) 600; List] in
  let w := write_file fs1 (Some name_f) 2 (Some [104; 105]) in
  w.1.1 = 0 ∧
  read_file (run w.2 [Write (Some name_g) 510 (Some [120; 121; 122]); Delete (Some name_g);
                      Create (Some [104]) 1000])
            (Some name_f) 2 2 (Some [7; 7; 7; 7]) =
  (0, [MsgRead 2 name_f 2], Some [104; 105; 0; 7]).
Proof.
  apply (C1_round_trip fs_init name_f 10 2 [104; 105]
           [Create (Some name_g) 600; List]
           [Write (Some name_g) 510 (Some [120; 121; 122]); Delete (Some name_g);
            Create (Some [104]) 1000]
           [7; 7; 7; 7]).
  - apply reach_init.
  - unfold is_size_t, SIZE_MAX1. lia.
  - vm_compute. reflexivity.
  - vm_compute. reflexivity.
  - repeat constructor; discriminate.
  - discriminate.
  - lia.
  - cbn. lia.
  - cbn. lia.
  - unfold other_calls.
    repeat (apply Forall_cons; split;
            [split; [cbn [call_ok]; first [done|zlia]
                    |cbn [names_file]; first [tauto|intros H; vm_compute in H; discriminate H]]|]).
    constructor.
  - unfold other_calls.
    repeat (apply Forall_cons; split;
            [split; [cbn [call_ok]; first [done|zlia]
                    |cbn [names_file]; first [tauto|intros H; vm_compute in H; discriminate H]]|]).
    constructor.
Defined.

(** C1 as stated fails in four ways: a zero-length write succeeds but the
    read of zero bytes is refused; data with a zero byte is cut at that byte,
    so the three bytes read back are not the three bytes given; a name of
    256 characters is stored truncated, so the file just created is not
    found; and a file whose name has 255 characters is hidden by a file
    created later under a longer name with the same first 255 characters,
    when that one takes a lower slot: the read then returns the zeros of the
    new file, although no call in between was made on the file written. *)
Lemma C1_counterexample :
  ((write_file fs_f10 (Some name_f) 0 (Some [])).1.1 = 0 ∧
   (read_file (write_file fs_f10 (Some name_f) 0 (Some [])).2
              (Some name_f) 0 0 (Some [7; 7; 7; 7])).1 = (-1, [ErrParams]))
  ∧ ((write_file fs_f10 (Some name_f) 0 (Some [97; 0; 98])).1.1 = 0 ∧
     (read_file (write_file fs_f10 (Some name_f) 0 (Some [97; 0; 98])).2
                (Some name_f) 0 3 (Some [7; 7; 7; 7])).2 = Some [97; 0; 0; 0] ∧
     [97; 0; 0] ≠ [97; 0; 98])
  ∧ (let long := replicate 256 97 in
     (create_file fs_init (Some long) 10).1.1 = 0 ∧
     (write_file (create_file fs_init (Some long) 10).2 (Some long) 0 (Some [104])).1
     = (-1, [ErrNotFound long]))
  ∧ (let name := replicate 255 97 in
     let long := replicate 256 97 in
     let fs0 := run fs_init [Create (Some [98]) 10; Create (Some name) 10;
                             Delete (Some [98])] in
     let w := write_file fs0 (Some name) 0 (Some [104; 105]) in
     let c := create_file w.2 (Some long) 10 in
     find_file fs0 name = Some 1%nat ∧
     w.1 = (0, [MsgWritten 2 name 0]) ∧
     c.1.1 = 0 ∧
     find_file c.2 name = Some 0%nat ∧
     read_file c.2 (Some name) 0 2 (Some [7; 7; 7; 7]) =
     (0, [MsgRead 2 name 0], Some [0; 0; 0; 7])).
Proof.
  split; [|split; [|split]].
  - split; vm_compute; reflexivity.
  - split; [vm_compute; reflexivity|]. split; [vm_compute; reflexivity|discriminate].
  - split; vm_compute; reflexivity.
  - cbv zeta. split; [vm_compute; reflexivity|]. split; [vm_compute; reflexivity|].
    split; [vm_compute; reflexivity|]. split; vm_compute; reflexivity.
Qed.

(** ** Freed blocks are cleared, and new files read as zeros *)

(** C9 (amended): [free_blocks] leaves every listed block that was occupied
    free and all zero, so does [delete_file] with the blocks of the file; in
    every reachable state every free block is all zero; every byte of a file
    just created is zero; and when the name of the new file is shorter than
    MAX_FILENAME characters, [read_file] reads the file back as zero
    bytes, also after calls that do not name the file. *)
Theorem C9_freed_blocks_cleared fs :
  reachable fs ->
  (∀ n block_list b,
     Forall (fun x => 0 <= x) block_list -> (Z.to_nat n <= length block_list)%nat ->
     b ∈ take (Z.to_nat n) block_list -> b < MAX_BLOCKS -> (block_map fs).[b] = true ->
     (fs_blocks (free_blocks fs n block_list)).[b] = replicate (Z.to_nat BLOCK_SIZE) 0 ∧
     (block_map (free_blocks fs n block_list)).[b] = false) ∧
  (∀ name p b,
     find_file fs name = Some p -> b ∈ owned_blocks (file_table fs !!! p) ->
     (fs_blocks (delete_file fs (Some name)).2).[b] = replicate (Z.to_nat BLOCK_SIZE) 0 ∧
     (block_map (delete_file fs (Some name)).2).[b] = false) ∧
  (∀ b, 0 <= b < MAX_BLOCKS -> (block_map fs).[b] = false ->
        (fs_blocks fs).[b] = replicate (Z.to_nat BLOCK_SIZE) 0) ∧
  (∀ name size,
     is_size_t size -> (create_file fs (Some name) size).1.1 = 0 ->
     ∃ p, free_slot_from (file_table fs) 0 = Some p ∧
       let fs1 := (create_file fs (Some name) size).2 in
       fe_in_use (file_table fs1 !!! p) = true ∧
       fe_size (file_table fs1 !!! p) = size ∧
       ∀ o, 0 <= o < size -> file_byte (fs_blocks fs1) (file_table fs1 !!! p) o = 0) ∧
  (∀ name size calls buffer,
     is_size_t size -> (create_file fs (Some name) size).1.1 = 0 ->
     strlen name < MAX_FILENAME -> other_calls name calls ->
     size < Z.of_nat (length buffer) ->
     read_file (run (create_file fs (Some name) size).2 calls)
               (Some name) 0 size (Some buffer) =
     (0, [MsgRead size name 0],
      Some (replicate (Z.to_nat size) 0 ++ 0 :: drop (S (Z.to_nat size)) buffer))).
Proof.
  intros Hinv%reachable_inv. fold zero_block.
  split; [|split; [|split; [|split]]].
  - intros n block_list b Hpos Hn Hin Hb Ht.
    apply free_blocks_clears; try done.
    + by rewrite (inv_map_len _ Hinv).
    + by rewrite (inv_blocks_len _ Hinv).
  - intros name p b Hfind Hin. rewrite (delete_file_found _ _ _ Hinv Hfind).
    pose proof (find_file_Some _ _ _ Hfind) as (Hp & Hu & _).
    destruct (live_entry_facts fs p Hinv Hp Hu)
      as (_ & _ & _ & _ & Ho & _ & _ & Hocc & _ & _).
    cbn [snd deleted fs_blocks block_map]. rewrite Ho in Hin |- *.
    split; (apply aget_mark_in; [|done]); (eapply Forall_impl; [exact Hocc|]);
      cbn; intros x [? _].
    + rewrite (inv_blocks_len _ Hinv). lia.
    + rewrite (inv_map_len _ Hinv). lia.
  - apply (inv_free_zero _ Hinv).
  - intros name size Hsize Hc.
    destruct (create_file_cases fs name size Hinv Hsize)
      as [[Hfail _]|(p & l & _ & Hs & Hnone & Hslot & Hl & Hchoice & Hcreate)].
    { rewrite Hfail in Hc. done. }
    exists p. split; [done|]. rewrite Hcreate. cbn [snd]. cbn zeta.
    pose proof (free_slot_from_Some _ _ _ Hslot) as [Hp _].
    split; [|split].
    + unfold created. cbv zeta. cbn [file_table].
      rewrite list_lookup_total_insert_eq by lia. done.
    + unfold created. cbv zeta. cbn [file_table].
      rewrite list_lookup_total_insert_eq by lia. done.
    + intros o Ho. apply created_file_zero; try done. unfold blocks_for. zlia.
  - intros name size calls buffer Hsize Hc Hname Hcalls Hbuf.
    destruct (create_file_cases fs name size Hinv Hsize)
      as [[Hfail _]|(p & l & _ & Hs & Hnone & Hslot & Hl & Hchoice & Hcreate)].
    { rewrite Hfail in Hc. done. }
    rewrite Hcreate. cbn [snd].
    pose proof (created_inv fs p name size l Hinv Hs Hslot Hl Hchoice) as Hinv1.
    pose proof (find_file_created fs p name size l Hinv Hnone Hslot Hname) as Hfind1.
    pose proof (find_file_Some _ _ _ Hfind1) as (Hp1 & Hu1 & _).
    assert (fe_size (file_table (created fs p name size l) !!! p) = size ∧
            fe_num_blocks (file_table (created fs p name size l) !!! p) = blocks_for size)
      as [Hsz Hnb].
    { apply free_slot_from_Some in Hslot as [Hp _].
      unfold created. cbv zeta. cbn [file_table].
      rewrite list_lookup_total_insert_eq by lia. done. }
    destruct (other_calls_keep name p calls _ Hinv1 Hfind1 Hcalls)
      as (Hinv2 & Hfind2 & Hentry2 & Hrows2).
    rewrite (read_file_ok _ name p); rewrite ?Hentry2, ?Hsz; [|done|done|lia|lia|zlia|lia].
    rewrite Z.sub_0_r, Z.min_id, Z.add_0_l.
    destruct (Z.gtb_spec size size); [lia|]. cbn [app]. do 3 f_equal.
    rewrite (file_bytes_rows (created fs p name size l) p);
      [|done|done|done|lia|rewrite Hnb; unfold blocks_for; zlia|done].
    apply list_eq_aget; [by rewrite length_file_bytes, length_replicate|].
    intros j Hj. rewrite length_file_bytes in Hj.
    rewrite aget_file_bytes by lia. rewrite aget_replicate by lia.
    apply created_file_zero; try done. unfold blocks_for. zlia.
Qed.

Lemma C9_freed_blocks_cleared_witness :
  (fs_blocks fs_f10_written).[0] ≠ replicate (Z.to_nat BLOCK_SIZE) 0 ∧
  (block_map fs_f10_written).[0] = true ∧
  (fs_blocks (delete_file fs_f10_written (Some name_f)).2).[0]
    = replicate (Z.to_nat BLOCK_SIZE) 0 ∧
  (block_map (delete_file fs_f10_written (Some name_f)).2).[0] = false.
Proof.
  split; [vm_compute; discriminate|]. split; [vm_compute; reflexivity|].
  destruct (C9_freed_blocks_cleared fs_f10_written reachable_fs_f10_written)
    as (_ & Hdelete & _).
  apply (Hdelete name_f 0%nat 0).
  - vm_compute. reflexivity.
  - assert (owned_blocks (file_table fs_f10_written !!! 0%nat) = [0]) as ->
      by (vm_compute; reflexivity).
    apply list_elem_of_here.
Defined.

(** C9 as stated fails for a long name: a file created under a name of 256
    characters is stored under the first 255, so a read under the name it
    was created with finds no file and delivers nothing. *)
Lemma C9_counterexample :
  let long := replicate 256 97 in
  (create_file fs_init (Some long) 10).1.1 = 0 ∧
  read_file (create_file fs_init (Some long) 10).2 (Some long) 0 10
            (Some (replicate 16 7)) =
  (-1, [ErrNotFound long], Some (replicate 16 7)).
Proof. split; vm_compute; reflexivity. Qed.
